(** * showcase_todo: the optimistic synchronisation engine of [TodoListView]

    A shallow embedding of [src/islands/TodoListView.tsx]: the mutation
    buffer (a JavaScript [Map] held in a ref), the perpetual sync loop
    (an async function, cut at its [await]s into a program counter), the
    [EventSource] subscription with its two listeners, the callbacks
    [addTodo], [saveTodo] and the rows' [doSave], [doDelete],
    [doSaveCompleted], and, in a layer of its own on top of the view, the
    editing mode of a row with [cancelEdit].

    The component runs on one cooperative thread: between two [await]s a
    piece of code runs to completion.  The embedding is therefore a
    deterministic step function [step : State -> Event -> option (State *
    list Action)], where an [Event] is what the platform or the user
    delivers (a click, a message, a timer, the outcome of a request) and an
    [Action] is a call to the platform or an operation on the buffer that
    the code performs in that step. *)

From Stdlib Require Import ZArith List Bool String Ascii Lia SpecFloat DecimalString
  DecimalPos DecimalZ.
From Equations Require Import Equations.
Import ListNotations.

Local Open Scope string_scope.
Local Open Scope list_scope.
Local Open Scope Z_scope.

(** ** Data model *)

(** Modelled from the spec: the declarations of [TodoListItem] and
    [TodoList] live in [src/shared/api.ts], which is not part of the
    sources at hand; the fields are the ones section 3 of the
    specification lists and the ones the view reads. *)
Record TodoListItem := mkItem {
  id : string;
  item_text : string;
  item_completed : bool;
  createdAt : Z;
  versionstamp : string
}.

Record TodoList := mkList { items : list TodoListItem }.

(** [interface LocalMutation { text: string | null; completed: boolean }] *)
Record LocalMutation := mkMutation {
  text : option string;
  completed : bool
}.

(** One element of the array handed to [axios.post]:
    [{ id, text: mut.text, completed: mut.completed }]. *)
Record BatchRecord := mkBatch {
  post_id : string;
  post_text : option string;
  post_completed : bool
}.

(** ** The JavaScript [Map] behind [localMutations]

    A [Map] iterates in insertion order, and [set] on a key that is already
    present replaces the value and keeps the key's position.  An
    association list without repeated keys, updated in place, is exactly
    that. *)
Module JsMap.

Definition t := list (string * LocalMutation).

Definition empty : t := [].

Fixpoint set (m : t) (k : string) (v : LocalMutation) : t :=
  match m with
  | [] => [(k, v)]
  | (k', v') :: m' =>
      if String.eqb k' k then (k', v) :: m' else (k', v') :: set m' k v
  end.

Fixpoint get (m : t) (k : string) : option LocalMutation :=
  match m with
  | [] => None
  | (k', v') :: m' => if String.eqb k' k then Some v' else get m' k
  end.

Definition keys (m : t) : list string := map fst m.

(** [Array.from(map)]: the entries, as [[key, value]] pairs, in
    iteration order. *)
Definition entries (m : t) : list (string * LocalMutation) := m.

(** How many entries the map holds for one key. *)
Definition count (m : t) (k : string) : nat :=
  List.length (filter (fun kv => String.eqb (fst kv) k) m).

End JsMap.

(** [Array.prototype.slice(a, b)] for [0 <= a <= b]. *)
Definition slice {A} (l : list A) (a b : nat) : list A :=
  firstn (b - a) (skipn a l).

(** ** JavaScript numbers

    A [number] is an IEEE 754 binary64 value; [SpecFloat] of the standard
    library defines these and their correctly rounded operations
    (round to nearest, ties to even). *)
Module Number.

Definition prec : Z := 53.
Definition emax : Z := 1024.

Definition t := spec_float.

Definition of_Z (z : Z) : t := binary_normalize prec emax z 0 false.
Definition add (x y : t) : t := SFadd prec emax x y.
Definition mul (x y : t) : t := SFmul prec emax x y.
Definition leb (x y : t) : bool := SFleb x y.
Definition ltb (x y : t) : bool := SFltb x y.

Definition positive_sign (x : t) : bool :=
  match x with
  | S754_zero s | S754_infinity s | S754_finite s _ _ => negb s
  | S754_nan => false
  end.

(** What [Math.random()] may return: a number with positive sign,
    greater than or equal to 0 and strictly less than 1. *)
Definition is_random (r : t) : bool :=
  valid_binary prec emax r && positive_sign r
  && leb (of_Z 0) r && ltb r (of_Z 1).

(** The integral part, rounding towards zero. *)
Definition truncate (x : t) : Z :=
  match x with
  | S754_finite s m e => cond_Zopp s (Z.shiftl (Zpos m) e)
  | _ => 0
  end.

Definition ToInt32 (z : Z) : Z := (z + 2 ^ 31) mod 2 ^ 32 - 2 ^ 31.

(** The [timeout] argument of [setTimeout] is a WebIDL [long]: the
    number is truncated and wrapped to 32 bits, and a negative timeout
    counts as 0. *)
Definition timeout (x : t) : Z := Z.max 0 (ToInt32 (truncate x)).

End Number.

(** ** The state of the view *)

Inductive ReadyState := CONNECTING | OPEN | CLOSED.

(** The two closures registered in the first effect: the ["message"]
    listener of lines 23-28 and the ["error"] listener of lines 30-35. *)
Inductive Listener := onMessage | onError.

(** An [EventSource] object: its connection state and the listeners that
    [addEventListener] attached to this very object. *)
Record EventSource := mkSource {
  readyState : ReadyState;
  listeners : list Listener
}.

(** Where the sync loop is suspended.  [mutations] and [i] are the local
    variables of the loop body that are live across the [await]. *)
Inductive Loop :=
| Posting (mutations : list (string * LocalMutation)) (i : nat)
    (* line 58: awaiting [axios.post(url, chunk)] for the chunk at [i] *)
| RetryWait (mutations : list (string * LocalMutation)) (i : nat) (due : Z)
    (* line 61: awaiting the 1000 ms timer after a failed post *)
| PauseWait (due : Z)
    (* lines 67-72: awaiting the 1000 ms timer of the pause *)
| FrameWait.
    (* lines 67-72: timer fired, awaiting [requestAnimationFrame] *)

Record State := mkState {
  data : TodoList;                  (* useState(props.initialData) *)
  dirty : bool;                     (* useState(false) *)
  localMutations : JsMap.t;         (* useRef(new Map()).current *)
  hasLocalMutations : bool;         (* useState(false) *)
  adding : bool;                    (* useState(false) *)
  addTodoInput : string;            (* addTodoInput.current.value *)
  sources : list EventSource;       (* every EventSource created so far *)
  es : nat;                         (* [let es]: index into [sources] *)
  reconnecting : list Z;            (* due times of the pending backoff timers *)
  loop : Loop;                      (* the suspended sync loop *)
  now : Z;                          (* the clock, in milliseconds *)
  busy_rows : list string           (* keys of the rows whose [busy] is true *)
}.

(** [const busy = hasLocalMutations || dirty;] *)
Definition busy (s : State) : bool := hasLocalMutations s || dirty s.

Definition setData d s :=
  mkState d (dirty s) (localMutations s) (hasLocalMutations s) (adding s)
    (addTodoInput s) (sources s) (es s) (reconnecting s) (loop s) (now s) (busy_rows s).
Definition setDirty b s :=
  mkState (data s) b (localMutations s) (hasLocalMutations s) (adding s)
    (addTodoInput s) (sources s) (es s) (reconnecting s) (loop s) (now s) (busy_rows s).
Definition set_localMutations m s :=
  mkState (data s) (dirty s) m (hasLocalMutations s) (adding s)
    (addTodoInput s) (sources s) (es s) (reconnecting s) (loop s) (now s) (busy_rows s).
Definition setHasLocalMutations b s :=
  mkState (data s) (dirty s) (localMutations s) b (adding s)
    (addTodoInput s) (sources s) (es s) (reconnecting s) (loop s) (now s) (busy_rows s).
Definition setAdding b s :=
  mkState (data s) (dirty s) (localMutations s) (hasLocalMutations s) b
    (addTodoInput s) (sources s) (es s) (reconnecting s) (loop s) (now s) (busy_rows s).
Definition set_addTodoInput v s :=
  mkState (data s) (dirty s) (localMutations s) (hasLocalMutations s) (adding s)
    v (sources s) (es s) (reconnecting s) (loop s) (now s) (busy_rows s).
Definition set_sources l s :=
  mkState (data s) (dirty s) (localMutations s) (hasLocalMutations s) (adding s)
    (addTodoInput s) l (es s) (reconnecting s) (loop s) (now s) (busy_rows s).
Definition set_es o s :=
  mkState (data s) (dirty s) (localMutations s) (hasLocalMutations s) (adding s)
    (addTodoInput s) (sources s) o (reconnecting s) (loop s) (now s) (busy_rows s).
Definition set_reconnecting l s :=
  mkState (data s) (dirty s) (localMutations s) (hasLocalMutations s) (adding s)
    (addTodoInput s) (sources s) (es s) l (loop s) (now s) (busy_rows s).
Definition set_loop p s :=
  mkState (data s) (dirty s) (localMutations s) (hasLocalMutations s) (adding s)
    (addTodoInput s) (sources s) (es s) (reconnecting s) p (now s) (busy_rows s).
Definition set_now t s :=
  mkState (data s) (dirty s) (localMutations s) (hasLocalMutations s) (adding s)
    (addTodoInput s) (sources s) (es s) (reconnecting s) (loop s) t (busy_rows s).
Definition set_busy_rows l s :=
  mkState (data s) (dirty s) (localMutations s) (hasLocalMutations s) (adding s)
    (addTodoInput s) (sources s) (es s) (reconnecting s) (loop s) (now s) l.

(** ** Events and actions *)

(** What the user and the platform deliver to the component. *)
Inductive Event :=
| Type_ (value : string)
    (* the user edits the "New task..." input *)
| ClickAdd (uuid : string)
    (* a click on "+"; [uuid] is what [crypto.randomUUID()] returns *)
| RowSave (row : nat) (input : option string)
    (* [doSave] of a row; [input] is [input.current?.value] *)
| RowDelete (row : nat) (yes : bool)
    (* [doDelete] of a row; [yes] is the answer to [confirm(...)] *)
| RowToggle (row : nat) (checked : bool)
    (* [doSaveCompleted(e.currentTarget.checked)] of a row *)
| Opened (o : nat)
    (* the connection of source [o] is established *)
| Message (o : nat) (payload : string)
    (* source [o] receives a message *)
| Error (o : nat) (fatal : bool) (random : Number.t)
    (* source [o] loses its connection; [random] is the next draw of
       [Math.random()] *)
| BackoffElapsed (k : nat)
    (* the [k]-th pending backoff timer fires *)
| PostOk
    (* the pending [axios.post] resolves *)
| PostFail
    (* the pending [axios.post] rejects: network error or non-2xx status *)
| TimerElapsed
    (* the timer the sync loop awaits fires *)
| Frame
    (* the [requestAnimationFrame] callback runs *)
| Tick (dt : Z).
    (* time passes *)

(** What the code does that the properties speak about: its calls to
    the platform, and its operations on the buffer ([set], and the swap
    of lines 41-42). *)
Inductive Action :=
| GenerateItemId (id : string)
| MapSet (id : string) (mut : LocalMutation)
| Swap (mutations : list (string * LocalMutation))
| Post (chunk : list BatchRecord)
| SetTimeout (delay : Z)
| RequestAnimationFrame
| Close (o : nat)
| NewEventSource (o : nat).

(** A piece of code that runs to completion: it transforms the state and
    leaves a trace of actions. *)
Definition Cmd := State -> State * list Action.

Definition skip : Cmd := fun s => (s, []).
Definition upd (f : State -> State) : Cmd := fun s => (f s, []).
Definition act (a : Action) : Cmd := fun s => (s, [a]).
Definition seqc (c1 c2 : Cmd) : Cmd :=
  fun s => (fst (c2 (fst (c1 s))), snd (c1 s) ++ snd (c2 (fst (c1 s)))).

Declare Scope cmd_scope.
Delimit Scope cmd_scope with cmd.
Bind Scope cmd_scope with Cmd.
Notation "c1 ';;' c2" := (seqc c1 c2)
  (at level 61, right associativity) : cmd_scope.

(** [localMutations.current.set(id, mut)] *)
Definition mapSet (k : string) (mut : LocalMutation) : Cmd :=
  (upd (fun s => set_localMutations (JsMap.set (localMutations s) k mut) s) ;;
   act (MapSet k mut))%cmd.

Definition string_of_Z (z : Z) : string := NilZero.string_of_int (Z.to_int z).

(** [function generateItemId() { return `${Date.now()}-${crypto.randomUUID()}`; }] *)
Definition generateItemId (date_now : Z) (uuid : string) : string :=
  (string_of_Z date_now ++ "-" ++ uuid)%string.

(** ** The callbacks of [TodoListView] *)

(** Lines 78-90. *)
Definition addTodo (uuid : string) : Cmd :=
  fun s =>
    let value := addTodoInput s in
    if String.eqb value "" then skip s
    else
      let id := generateItemId (now s) uuid in
      (upd (set_addTodoInput "") ;;
       act (GenerateItemId id) ;;
       mapSet id {| text := Some value; completed := false |} ;;
       upd (setHasLocalMutations true) ;;
       upd (setAdding true))%cmd s.

(** Lines 92-101. *)
Definition saveTodo (item : TodoListItem) (text : option string)
    (completed : bool) : Cmd :=
  (mapSet (id item) {| text := text; completed := completed |} ;;
   upd (setHasLocalMutations true))%cmd.

(** ** The callbacks of a row, [TodoItem]

    [save] is the [saveTodo] of the view.  A row is a component with a
    state of its own, kept as long as its key stays in the list (line
    119).  Its [busy] flag is recorded, by key, in [busy_rows]; its
    [editing] flag only switches between the two sets of controls and is
    not part of [State]; it is added, with the input of the editing
    mode, in the section on the editing mode of a row below. *)

(** Line 119: [item.id! + ":" + item.versionstamp!]. *)
Definition row_key (item : TodoListItem) : string :=
  (id item ++ ":" ++ versionstamp item)%string.

(** [setBusy(true)] in the row of [item]. *)
Definition setBusy (item : TodoListItem) (s : State) : State :=
  set_busy_rows (row_key item :: busy_rows s) s.

(** [disabled={busy}] on the controls of the row of [item]. *)
Definition disabled (s : State) (item : TodoListItem) : bool :=
  existsb (String.eqb (row_key item)) (busy_rows s).

(** Lines 142-146. *)
Definition doSave (item : TodoListItem) (input : option string) : Cmd :=
  match input with
  | None => skip
  | Some value =>
      (upd (setBusy item) ;;
       saveTodo item (Some value) (item_completed item))%cmd
  end.

(** Lines 152-157. *)
Definition doDelete (item : TodoListItem) (yes : bool) : Cmd :=
  if negb yes then skip
  else (upd (setBusy item) ;; saveTodo item None (item_completed item))%cmd.

(** Lines 158-161. *)
Definition doSaveCompleted (item : TodoListItem) (completed : bool) : Cmd :=
  (upd (setBusy item) ;; saveTodo item (Some (item_text item)) completed)%cmd.

(** Lines 118-120, after [setData]: the rows are rendered from the new
    list; the state of a row whose key is no longer in the list is
    dropped with the row. *)
Definition render_rows (s : State) : State :=
  set_busy_rows
    (filter (fun k => existsb (fun item => String.eqb (row_key item) k)
                              (items (data s)))
            (busy_rows s)) s.

(** ** The sync loop, lines 38-75 *)

Definition chunkSize : nat := 10.

(** Lines 50-55: [([id, mut]) => ({ id, text: mut.text, completed: mut.completed })]. *)
Definition batch_record (entry : string * LocalMutation) : BatchRecord :=
  {| post_id := fst entry;
     post_text := text (snd entry);
     post_completed := completed (snd entry) |}.

(** Lines 49-55: [mutations.slice(i, i + chunkSize).map(...)]. *)
Definition chunk_at (mutations : list (string * LocalMutation)) (i : nat)
    : list BatchRecord :=
  map batch_record (slice mutations i (i + chunkSize)).

(** Lines 56-58: the request for the chunk at [i] is sent and awaited. *)
Definition post (mutations : list (string * LocalMutation)) (i : nat) : Cmd :=
  (act (Post (chunk_at mutations i)) ;;
   upd (set_loop (Posting mutations i)))%cmd.

(** Line 61: a failed request is followed by a timer of 1000 ms. *)
Definition retry_later (mutations : list (string * LocalMutation)) (i : nat)
    : Cmd :=
  fun s =>
    (act (SetTimeout 1000) ;;
     upd (set_loop (RetryWait mutations i (now s + 1000))))%cmd s.

(** Lines 67-72: the pause, first its timer of 1000 ms. *)
Definition pause : Cmd :=
  fun s =>
    (act (SetTimeout 1000) ;;
     upd (set_loop (PauseWait (now s + 1000))))%cmd s.

(** Line 48: the test [i < mutations.length] of the [for] loop, then
    either the body for the chunk at [i] or what follows the loop. *)
Definition for_chunks (mutations : list (string * LocalMutation)) (i : nat)
    : Cmd :=
  if Nat.ltb i (List.length mutations) then post mutations i else pause.

(** Lines 41-46: the head of one turn of [while (1)]. *)
Definition sync : Cmd :=
  fun s =>
    let mutations := JsMap.entries (localMutations s) in
    (upd (set_localMutations JsMap.empty) ;;
     act (Swap mutations) ;;
     upd (setHasLocalMutations false) ;;
     if Nat.ltb 0 (List.length mutations)
     then (upd (setDirty true) ;; for_chunks mutations 0)
     else pause)%cmd s.

(** The chunks the [for] loop of lines 48-64 goes through, in order: the
    loop with its [await]s taken out. *)
Equations? chunks (mutations : list (string * LocalMutation)) (i : nat)
    : list (list BatchRecord) by wf (List.length mutations - i)%nat lt :=
  chunks mutations i with lt_dec i (List.length mutations) => {
    | left _ := chunk_at mutations i :: chunks mutations (i + chunkSize);
    | right _ := [] }.
Proof. unfold chunkSize. lia. Qed.

(** ** The live state channel, lines 20-36 *)

Fixpoint update {A} (k : nat) (f : A -> A) (l : list A) : list A :=
  match l, k with
  | [], _ => []
  | x :: l', O => f x :: l'
  | x :: l', S k' => x :: update k' f l'
  end.

(** The connection state of source [o] changes; its listeners stay. *)
Definition set_readyState (o : nat) (r : ReadyState) (s : State) : State :=
  set_sources (update o (fun src => mkSource r (listeners src)) (sources s)) s.

(** Line 32. *)
Definition backoff (random : Number.t) : Number.t :=
  Number.add (Number.of_Z 10000) (Number.mul random (Number.of_Z 5000)).

Fixpoint remove_nth {A} (k : nat) (l : list A) : list A :=
  match k, l with
  | _, [] => []
  | O, _ :: l' => l'
  | S k', x :: l' => x :: remove_nth k' l'
  end.

Fixpoint dispatch (ls : list Listener) (call : Listener -> Cmd) : Cmd :=
  match ls with
  | [] => skip
  | l :: ls' => (call l ;; dispatch ls' call)%cmd
  end.

Section View.

(** [JSON.parse], applied to the payload of a message: [None] when it
    throws. *)
Variable JSON_parse : string -> option TodoList.

(** Lines 23-28. *)
Definition messageListener (payload : string) : Cmd :=
  match JSON_parse payload with
  | None => skip
  | Some newData =>
      (upd (setData newData) ;;
       upd (setDirty false) ;;
       upd (setAdding false) ;;
       upd render_rows)%cmd
  end.

(** Lines 30-33, up to the [await]: the source that [es] names is
    closed and the backoff timer is started. *)
Definition errorListener (random : Number.t) : Cmd :=
  fun s =>
    let delay := Number.timeout (backoff random) in
    (upd (set_readyState (es s) CLOSED) ;;
     act (Close (es s)) ;;
     act (SetTimeout delay) ;;
     upd (set_reconnecting (reconnecting s ++ [now s + delay])))%cmd s.

(** Line 34, after the [await]: a new [EventSource], assigned to [es].
    Nothing is attached to it. *)
Definition reconnect : Cmd :=
  fun s =>
    let o := List.length (sources s) in
    (upd (set_sources (sources s ++ [mkSource CONNECTING []])) ;;
     upd (set_es o) ;;
     act (NewEventSource o))%cmd s.

(** What each listener does on a ["message"] event and on an
    ["error"] event. *)
Definition on_message (payload : string) (l : Listener) : Cmd :=
  match l with
  | onMessage => messageListener payload
  | onError => skip
  end.

Definition on_error (random : Number.t) (l : Listener) : Cmd :=
  match l with
  | onMessage => skip
  | onError => errorListener random
  end.

(** ** One step of the component *)
Definition step (s : State) (ev : Event) : option (State * list Action) :=
  match ev with
  | Type_ value => Some (upd (set_addTodoInput value) s)
  | ClickAdd uuid =>
      (* [disabled={adding}] *)
      if adding s then None else Some (addTodo uuid s)
  | RowSave row input =>
      match nth_error (items (data s)) row with
      | Some item =>
          if disabled s item then None else Some (doSave item input s)
      | None => None
      end
  | RowDelete row yes =>
      match nth_error (items (data s)) row with
      | Some item =>
          if disabled s item then None else Some (doDelete item yes s)
      | None => None
      end
  | RowToggle row checked =>
      match nth_error (items (data s)) row with
      | Some item =>
          if disabled s item then None else Some (doSaveCompleted item checked s)
      | None => None
      end
  | Opened o =>
      match nth_error (sources s) o with
      | Some (mkSource CONNECTING _) => Some (upd (set_readyState o OPEN) s)
      | _ => None
      end
  | Message o payload =>
      match nth_error (sources s) o with
      | Some (mkSource OPEN ls) =>
          Some (dispatch ls (on_message payload) s)
      | _ => None
      end
  | Error o fatal random =>
      match nth_error (sources s) o with
      | Some (mkSource CLOSED _) | None => None
      | Some (mkSource _ ls) =>
          Some ((upd (set_readyState o (if fatal then CLOSED else CONNECTING)) ;;
                 dispatch ls (on_error random))%cmd s)
      end
  | BackoffElapsed k =>
      match nth_error (reconnecting s) k with
      | Some due =>
          if due <=? now s
          then Some ((upd (set_reconnecting (remove_nth k (reconnecting s))) ;;
                      reconnect)%cmd s)
          else None
      | None => None
      end
  | PostOk =>
      match loop s with
      | Posting mutations i => Some (for_chunks mutations (i + chunkSize) s)
      | _ => None
      end
  | PostFail =>
      match loop s with
      | Posting mutations i => Some (retry_later mutations i s)
      | _ => None
      end
  | TimerElapsed =>
      match loop s with
      | RetryWait mutations i due =>
          if due <=? now s then Some (post mutations i s) else None
      | PauseWait due =>
          if due <=? now s
          then Some ((act RequestAnimationFrame ;; upd (set_loop FrameWait))%cmd s)
          else None
      | _ => None
      end
  | Frame =>
      match loop s with
      | FrameWait => Some (sync s)
      | _ => None
      end
  | Tick dt => if 0 <=? dt then Some (upd (set_now (now s + dt)) s) else None
  end.

(** A run: the events are delivered one after the other; [None] when
    one of them cannot occur in the state it meets. *)
Fixpoint run (s : State) (evs : list Event) : option (State * list Action) :=
  match evs with
  | [] => Some (s, [])
  | ev :: evs' =>
      match step s ev with
      | None => None
      | Some (s1, a1) =>
          match run s1 evs' with
          | None => None
          | Some (s2, a2) => Some (s2, a1 ++ a2)
          end
      end
  end.

(** Mounting the component at time [t0]: the initial values of the
    hooks, then the two effects, each up to its first [await]. *)
Definition mount (initialData : TodoList) (t0 : Z) : State * list Action :=
  ((fun s => (upd (set_sources [mkSource CONNECTING [onMessage; onError]]) ;;
              upd (set_es 0%nat) ;;
              act (NewEventSource 0%nat))%cmd s) ;;
   sync)%cmd
    (mkState initialData false JsMap.empty false false "" [] 0%nat [] FrameWait t0 []).

Definition init (initialData : TodoList) (t0 : Z) : State :=
  fst (mount initialData t0).

End View.

(** ** What a trace of actions says about the mutation buffer *)

(** The [set] calls made since the last swap, oldest first; [acc] holds
    the ones made before the trace starts. *)
Fixpoint window (acts : list Action) (acc : list (string * LocalMutation))
    : list (string * LocalMutation) :=
  match acts with
  | [] => acc
  | MapSet k v :: acts' => window acts' (acc ++ [(k, v)])
  | Swap _ :: acts' => window acts' []
  | _ :: acts' => window acts' acc
  end.

(** The edit recorded last for [k] in a sequence of [set] calls. *)
Definition last_recorded (w : list (string * LocalMutation)) (k : string)
    : option LocalMutation :=
  option_map snd (find (fun kv => String.eqb (fst kv) k) (rev w)).

(** The map a sequence of [set] calls builds from the empty map. *)
Definition build (w : list (string * LocalMutation)) : JsMap.t :=
  fold_left (fun m kv => JsMap.set m (fst kv) (snd kv)) w JsMap.empty.

(** The map most recently swapped out, if any. *)
Fixpoint last_swap (acts : list Action)
    (acc : option (list (string * LocalMutation)))
    : option (list (string * LocalMutation)) :=
  match acts with
  | [] => acc
  | Swap m :: acts' => last_swap acts' (Some m)
  | _ :: acts' => last_swap acts' acc
  end.

Definition is_NewEventSource (a : Action) : bool :=
  match a with NewEventSource _ => true | _ => false end.

Definition is_Post (a : Action) : bool :=
  match a with Post _ => true | _ => false end.

Definition is_Message (ev : Event) : bool :=
  match ev with Message _ _ => true | _ => false end.

(** The events that resume the sync loop. *)
Definition is_loop_event (ev : Event) : bool :=
  match ev with
  | PostOk | PostFail | TimerElapsed | Frame => true
  | _ => false
  end.

Definition is_onMessage (l : Listener) : bool :=
  match l with onMessage => true | onError => false end.

(** The actions of the ["error"] listener. *)
Definition channel_action (a : Action) : bool :=
  match a with Close _ | SetTimeout _ => true | _ => false end.

(** Two states that differ at most in the sources and the backoff
    timers. *)
Definition same_view (s s' : State) : Prop :=
  data s' = data s /\ dirty s' = dirty s /\
  localMutations s' = localMutations s /\
  hasLocalMutations s' = hasLocalMutations s /\
  adding s' = adding s /\ addTodoInput s' = addTodoInput s /\
  loop s' = loop s /\ now s' = now s.

(** ** Invariants of the reachable states *)

(** The buffer holds at most one entry per id, and the flag
    [hasLocalMutations] tells whether it holds one at all. *)
Definition buffer_ok (s : State) : Prop :=
  NoDup (JsMap.keys (localMutations s)) /\
  (hasLocalMutations s = true <-> localMutations s <> []).

(** The listeners sit on the first source and on no other; while the
    first source is not closed, [es] names it and no backoff timer is
    pending. *)
Definition channel_ok (s : State) : Prop :=
  match sources s with
  | [] => False
  | src0 :: rest =>
      listeners src0 = [onMessage; onError] /\
      Forall (fun src => listeners src = []) rest /\
      (readyState src0 <> CLOSED -> es s = 0%nat /\ reconnecting s = [])
  end.

(** How many reconnections can still happen: the pending backoff timers,
    and one more while the first source can still fail. *)
Definition pending_reconnections (s : State) : nat :=
  (List.length (reconnecting s)
   + match sources s with
     | mkSource CLOSED _ :: _ => 0
     | _ :: _ => 1
     | [] => 0
     end)%nat.

(** No backoff timer is due before [T], and no source that still carries
    the ["error"] listener can fail any more. *)
Definition reconnects_after (T : Z) (s : State) : Prop :=
  Forall (fun due => T <= due) (reconnecting s) /\
  Forall (fun src => In onError (listeners src) -> readyState src = CLOSED)
         (sources s).

(** ** Traces that agree with the buffer

    [swaps_ok acts w]: every swap in [acts] takes out the map built by the
    [set] calls made since the swap before it ([w] holds the ones made
    before [acts] starts). *)
Fixpoint swaps_ok (acts : list Action) (w : list (string * LocalMutation))
    : Prop :=
  match acts with
  | [] => True
  | Swap m :: acts' => m = build w /\ swaps_ok acts' []
  | MapSet k v :: acts' => swaps_ok acts' (w ++ [(k, v)])
  | _ :: acts' => swaps_ok acts' w
  end.

(** [posts_ok acts cur]: every request in [acts] carries a chunk of the
    map swapped out last ([cur] is the one swapped out before [acts]
    starts). *)
Fixpoint posts_ok (acts : list Action)
    (cur : option (list (string * LocalMutation))) : Prop :=
  match acts with
  | [] => True
  | Swap m :: acts' => posts_ok acts' (Some m)
  | Post c :: acts' =>
      (exists m i, cur = Some m /\ c = chunk_at m i) /\ posts_ok acts' cur
  | _ :: acts' => posts_ok acts' cur
  end.

(** The map the sync loop is submitting is the one swapped out last. *)
Definition loop_batch (s : State) (cur : option (list (string * LocalMutation)))
    : Prop :=
  match loop s with
  | Posting m _ | RetryWait m _ _ => cur = Some m
  | _ => True
  end.

(** The chunk the sync loop is busy with: the one whose request is
    pending, or whose failed request awaits its retry. *)
Definition loop_chunk (s : State)
    : option (list (string * LocalMutation) * nat) :=
  match loop s with
  | Posting m i | RetryWait m i _ => Some (m, i)
  | _ => None
  end.

(** A request is pending. *)
Definition in_flight (s : State) : bool :=
  match loop s with Posting _ _ => true | _ => false end.

Definition is_PostOk (ev : Event) : bool :=
  match ev with PostOk => true | _ => false end.

(** Two draws of [Math.random()]: one half, and the largest number below
    one, [1 - 2^-53]. *)
Definition one_half : Number.t := S754_finite false 4503599627370496 (-53).

Definition largest_below_one : Number.t :=
  S754_finite false 9007199254740991 (-53).

(** A draw close to one third, [6004799503160661 * 2^-54]: with it the
    backoff is not a whole number of milliseconds. *)
Definition one_third : Number.t := S754_finite false 6004799503160661 (-54).

(** ** Rounding, step by step

    [binary_round_aux] of [SpecFloat] rounds [N * 2^E] in two shifts to
    the right: [shift1 N E] is by how many binary digits a mantissa
    [N] at exponent [E] is shifted, and [finish] builds the number from
    the final mantissa and exponent. *)
Definition shift1 (prec emax N E : Z) : Z :=
  Z.max 0 (fexp prec emax (Zdigits2 N + E) - E).

Definition finish (prec emax : Z) (sx : bool) (m e : Z) : spec_float :=
  match m with
  | Z0 => S754_zero sx
  | Zpos p => if e <=? emax - prec then S754_finite sx p e else S754_infinity sx
  | Zneg _ => S754_nan
  end.

(** The mantissa of 10000 at exponent -39, which is also the mantissa of
    5000 at exponent -40, and the mantissa of 15000 at exponent -39. *)
Definition M5 : Z := 5497558138880000.

Definition M15 : Z := 8246337208320000.

(** ** Data for the examples *)

Definition item_X : TodoListItem := mkItem "X" "milk" false 0 "v1".

Definition item_Y : TodoListItem := mkItem "Y" "eggs" true 0 "v7".

(** The item X after another client has renamed it. *)
Definition item_X2 : TodoListItem := mkItem "X" "oat milk" false 0 "v2".

(** A stand-in for [JSON.parse] in the examples: it knows two payloads. *)
Definition parse_example (payload : string) : option TodoList :=
  if String.eqb payload "snapshot" then Some (mkList [item_Y])
  else if String.eqb payload "renamed" then Some (mkList [item_X2])
  else None.

(** The state a run ends in; the starting state when the run is not
    possible. *)
Definition state_after (P : string -> option TodoList) (s : State)
    (evs : list Event) : State :=
  match run P s evs with
  | Some (s', _) => s'
  | None => s
  end.

(** ** Further readings of a trace and of a state *)

Definition is_GenerateItemId (a : Action) : bool :=
  match a with GenerateItemId _ => true | _ => false end.

Definition is_Swap (a : Action) : bool :=
  match a with Swap _ => true | _ => false end.

(** The events of the controls of the row at index [row]. *)
Definition is_row_event (row : nat) (ev : Event) : bool :=
  match ev with
  | RowSave r _ | RowDelete r _ | RowToggle r _ => Nat.eqb r row
  | _ => false
  end.

(** How many more calls of [generateItemId] the button "+" allows before
    the next snapshot: none while [adding] is set. *)
Definition adds_left (s : State) : nat := if adding s then 0%nat else 1%nat.

(** The sync loop does not drain before [T]: the timer of its pause is
    not due before [T]; while it submits a batch, the pause has still to
    start. *)
Definition next_drain_after (T : Z) (s : State) : Prop :=
  match loop s with
  | PauseWait due => T <= due
  | FrameWait => T <= now s
  | Posting _ _ | RetryWait _ _ _ => T <= now s + 1000
  end.

(** The chunk the sync loop is busy with starts inside the batch. *)
Definition chunk_in_range (s : State) : Prop :=
  match loop s with
  | Posting m i | RetryWait m i _ => (i < List.length m)%nat
  | _ => True
  end.

(** The first [EventSource], the one that carries the listeners, is
    closed. *)
Definition first_source_closed (s : State) : bool :=
  match sources s with
  | mkSource CLOSED _ :: _ => true
  | _ => false
  end.

(** The actions of a run; none when the run is not possible. *)
Definition trace_of (P : string -> option TodoList) (s : State)
    (evs : list Event) : list Action :=
  match run P s evs with
  | Some (_, a) => a
  | None => []
  end.

Definition is_Type (ev : Event) : bool :=
  match ev with Type_ _ => true | _ => false end.

(** Only rows on display are locked. *)
Definition locks_displayed (s : State) : Prop :=
  forall k, In k (busy_rows s) ->
            exists item, In item (items (data s)) /\ row_key item = k.

(** ** A cycle of the sync loop with failing requests *)

(** The events of a request that fails [f] times, each failure followed
    by one second and the timer, and then succeeds. *)
Definition attempts (f : nat) : list Event :=
  List.concat (repeat [PostFail; Tick 1000; TimerElapsed] f) ++ [PostOk].

(** The requests of a cycle in which the chunks [cs] fail [fails] times,
    chunk by chunk: every chunk once more than it failed. *)
Fixpoint requests (cs : list (list BatchRecord)) (fails : list nat)
    : list Action :=
  match cs, fails with
  | c :: cs', f :: fails' => repeat (Post c) (S f) ++ requests cs' fails'
  | _, _ => []
  end.

(** ** The order of a drain *)

(** The ids of a sequence of [set] calls, each at its first occurrence. *)
Fixpoint first_seen (l : list string) : list string :=
  match l with
  | [] => []
  | k :: l' => k :: filter (fun k' => negb (String.eqb k' k)) (first_seen l')
  end.

(** ** The editing mode of a row, lines 139-151 and 163-228

    Besides [busy], a row keeps the flag [editing], and a ref [input]
    to the text input of the editing mode.  Rendering shows one of two
    sets of controls: with [editing], the input (created with
    [defaultValue={item.text}]), "Save" and "Cancel"; without, the
    checkbox, "Edit" and "Delete".  The ref names the input while the
    input is rendered and is [null] otherwise.  All the buttons and the
    checkbox carry [disabled={busy}]; the text input does not. *)
Record RowState := mkRow {
  editing : bool;          (* useState(false) *)
  input : option string    (* [input.current?.value]; [None] for [null] *)
}.

(** The state of a row that has just been created. *)
Definition new_row : RowState := mkRow false None.

(** The user interface: the view, and the state of its rows by key; a
    row without an entry is in the state [new_row]. *)
Record UI := mkUI {
  view : State;
  rows : list (string * RowState)
}.

Definition row_state (u : UI) (item : TodoListItem) : RowState :=
  match find (fun kr => String.eqb (fst kr) (row_key item)) (rows u) with
  | Some kr => snd kr
  | None => new_row
  end.

(** Lines 168-174 and 193: what rendering makes of the input of a row. *)
Definition render_row (item : TodoListItem) (r : RowState) : RowState :=
  if editing r
  then mkRow true (Some (match input r with
                         | Some value => value
                         | None => item_text item
                         end))
  else mkRow false None.

(** The row of [item] takes the state [r] and is rendered. *)
Definition set_row (item : TodoListItem) (r : RowState) (u : UI) : UI :=
  mkUI (view u)
       ((row_key item, render_row item r)
        :: filter (fun kr => negb (String.eqb (fst kr) (row_key item))) (rows u)).

(** Line 213: [onClick={() => setEditing(true)}]. *)
Definition startEdit (r : RowState) : RowState := mkRow true (input r).

(** Lines 147-151.  The callback is made once ([useCallback] with no
    dependencies) and keeps the [item] of the row's first rendering; a
    row lives under one key, [id:versionstamp], so that is the item of
    the row.  The rendering that follows takes the input away. *)
Definition cancelEdit (item : TodoListItem) (r : RowState) : RowState :=
  match input r with
  | None => r
  | Some _ => mkRow false (Some (item_text item))
  end.

(** The user edits the text in the input of a row. *)
Definition typeRow (value : string) (r : RowState) : RowState :=
  mkRow (editing r) (Some value).

(** Lines 118-120: the rows are rendered from the list; the state of a
    row whose key is no longer in the list is dropped with the row. *)
Definition render_ui (u : UI) : UI :=
  mkUI (view u)
       (filter (fun kr => existsb (fun item => String.eqb (row_key item) (fst kr))
                                  (items (data (view u))))
               (rows u)).

(** What the user does with a row, and everything else. *)
Inductive UIEvent :=
| ClickEdit (row : nat)
| TypeRow (row : nat) (value : string)
| ClickSave (row : nat)
| ClickCancel (row : nat)
| ClickDelete (row : nat) (yes : bool)
| ChangeCompleted (row : nat) (checked : bool)
| ViewEvent (ev : Event).

Definition is_row_callback (ev : Event) : bool :=
  match ev with
  | RowSave _ _ | RowDelete _ _ | RowToggle _ _ => true
  | _ => false
  end.

(** The view takes a step, and the rows are rendered. *)
Definition view_step (u : UI) (r : option (State * list Action))
    : option (UI * list Action) :=
  match r with
  | Some (s', a) => Some (render_ui (mkUI s' (rows u)), a)
  | None => None
  end.

(** One step of the user interface.  A control can be used when it is
    rendered, which depends on [editing], and not disabled; the
    callbacks that call [save] are the ones of [step], which tests
    [disabled]. *)
Definition ui_step (JSON_parse : string -> option TodoList) (u : UI)
    (e : UIEvent) : option (UI * list Action) :=
  match e with
  | ViewEvent ev =>
      if is_row_callback ev then None
      else view_step u (step JSON_parse (view u) ev)
  | ClickEdit row =>
      match nth_error (items (data (view u))) row with
      | Some item =>
          if editing (row_state u item) || disabled (view u) item then None
          else Some (set_row item (startEdit (row_state u item)) u, [])
      | None => None
      end
  | TypeRow row value =>
      match nth_error (items (data (view u))) row with
      | Some item =>
          match input (row_state u item) with
          | Some _ => Some (set_row item (typeRow value (row_state u item)) u, [])
          | None => None
          end
      | None => None
      end
  | ClickSave row =>
      match nth_error (items (data (view u))) row with
      | Some item =>
          if negb (editing (row_state u item)) then None
          else view_step u (step JSON_parse (view u)
                              (RowSave row (input (row_state u item))))
      | None => None
      end
  | ClickCancel row =>
      match nth_error (items (data (view u))) row with
      | Some item =>
          if negb (editing (row_state u item)) || disabled (view u) item then None
          else Some (set_row item (cancelEdit item (row_state u item)) u, [])
      | None => None
      end
  | ClickDelete row yes =>
      match nth_error (items (data (view u))) row with
      | Some item =>
          if editing (row_state u item) then None
          else view_step u (step JSON_parse (view u) (RowDelete row yes))
      | None => None
      end
  | ChangeCompleted row checked =>
      match nth_error (items (data (view u))) row with
      | Some item =>
          if editing (row_state u item) then None
          else view_step u (step JSON_parse (view u) (RowToggle row checked))
      | None => None
      end
  end.

Fixpoint ui_run (JSON_parse : string -> option TodoList) (u : UI)
    (es : list UIEvent) : option (UI * list Action) :=
  match es with
  | [] => Some (u, [])
  | e :: es' =>
      match ui_step JSON_parse u e with
      | None => None
      | Some (u1, a1) =>
          match ui_run JSON_parse u1 es' with
          | None => None
          | Some (u2, a2) => Some (u2, a1 ++ a2)
          end
      end
  end.

Definition ui_init (initialData : TodoList) (t0 : Z) : UI :=
  mkUI (init initialData t0) [].

(** In a rendered row the input is there exactly in editing mode. *)
Definition row_ok (r : RowState) : Prop :=
  match input r with
  | Some _ => editing r = true
  | None => editing r = false
  end.

Definition rows_ok (u : UI) : Prop :=
  Forall (fun kr => row_ok (snd kr)) (rows u).

(** A click on a button or on the checkbox of the row at index [row]. *)
Definition is_click_on (row : nat) (e : UIEvent) : bool :=
  match e with
  | ClickEdit r | ClickSave r | ClickCancel r
  | ClickDelete r _ | ChangeCompleted r _ => Nat.eqb r row
  | _ => false
  end.

Definition is_snapshot (e : UIEvent) : bool :=
  match e with
  | ViewEvent ev => is_Message ev
  | _ => false
  end.

Definition ui_after (P : string -> option TodoList) (u : UI)
    (es : list UIEvent) : UI :=
  match ui_run P u es with
  | Some (u', _) => u'
  | None => u
  end.

(** ** Progress of the sync loop *)

(** Time passes until the timer due at [due] can fire, and it fires. *)
Definition await_timer (s : State) (due : Z) : list Event :=
  [Tick (Z.max 0 (due - now s)); TimerElapsed].

(** The requests of the batch [m] from the chunk at [i] on succeed one
    after the other, and the pause that follows runs out. *)
Definition finish_batch (m : list (string * LocalMutation)) (i : nat)
    : list Event :=
  repeat PostOk (S (List.length (chunks m (i + chunkSize))))
  ++ [Tick 1000; TimerElapsed].

(** The events that take the sync loop to its next animation frame when
    no request fails any more. *)
Definition to_next_frame (s : State) : list Event :=
  match loop s with
  | FrameWait => []
  | PauseWait due => await_timer s due
  | Posting m i => finish_batch m i
  | RetryWait m i due => await_timer s due ++ finish_batch m i
  end.

(** The events that can put an edit into the buffer or take the edits
    out. *)
Definition touches_buffer (ev : Event) : bool :=
  match ev with
  | ClickAdd _ | RowSave _ _ | RowDelete _ _ | RowToggle _ _ | Frame => true
  | _ => false
  end.

(** * Properties *)

(** ** The handlers, in closed form *)

Lemma Some_pair_inv {A B} (x : A * B) s a :
  Some x = Some (s, a) -> s = fst x /\ a = snd x.
Proof. intros H. injection H as H. now rewrite H. Qed.

Lemma addTodo_eq uuid s :
  addTodo uuid s =
  if String.eqb (addTodoInput s) "" then (s, [])
  else (mkState (data s) (dirty s)
          (JsMap.set (localMutations s) (generateItemId (now s) uuid)
             {| text := Some (addTodoInput s); completed := false |})
          true true "" (sources s) (es s) (reconnecting s) (loop s) (now s)
          (busy_rows s),
        [GenerateItemId (generateItemId (now s) uuid);
         MapSet (generateItemId (now s) uuid)
           {| text := Some (addTodoInput s); completed := false |}]).
Proof. unfold addTodo. destruct (String.eqb (addTodoInput s) ""); reflexivity. Qed.

Lemma saveTodo_eq item t c s :
  saveTodo item t c s =
  (mkState (data s) (dirty s)
     (JsMap.set (localMutations s) (id item) {| text := t; completed := c |})
     true (adding s) (addTodoInput s) (sources s) (es s) (reconnecting s)
     (loop s) (now s) (busy_rows s),
   [MapSet (id item) {| text := t; completed := c |}]).
Proof. reflexivity. Qed.

Lemma row_save_eq item t c s :
  (upd (setBusy item) ;; saveTodo item t c)%cmd s =
  (mkState (data s) (dirty s)
     (JsMap.set (localMutations s) (id item) {| text := t; completed := c |})
     true (adding s) (addTodoInput s) (sources s) (es s) (reconnecting s)
     (loop s) (now s) (row_key item :: busy_rows s),
   [MapSet (id item) {| text := t; completed := c |}]).
Proof. reflexivity. Qed.

Lemma doSave_eq item input s :
  doSave item input s =
  match input with
  | None => (s, [])
  | Some value =>
      (upd (setBusy item) ;; saveTodo item (Some value) (item_completed item))%cmd s
  end.
Proof. now destruct input. Qed.

Lemma doDelete_eq item yes s :
  doDelete item yes s =
  if yes
  then (upd (setBusy item) ;; saveTodo item None (item_completed item))%cmd s
  else (s, []).
Proof. now destruct yes. Qed.

Lemma messageListener_eq P payload s :
  messageListener P payload s =
  match P payload with
  | None => (s, [])
  | Some d =>
      (mkState d false (localMutations s) (hasLocalMutations s) false
         (addTodoInput s) (sources s) (es s) (reconnecting s) (loop s) (now s)
         (filter (fun k => existsb (fun item => String.eqb (row_key item) k)
                                   (items d))
                 (busy_rows s)),
       [])
  end.
Proof. unfold messageListener. destruct (P payload); reflexivity. Qed.

Lemma filter_idem {A} (f : A -> bool) l : filter f (filter f l) = filter f l.
Proof.
  induction l as [|x l IH]; [reflexivity|]. simpl.
  destruct (f x) eqn:E; simpl; rewrite ?E, IH; reflexivity.
Qed.

Lemma messageListener_idem P payload s :
  messageListener P payload (fst (messageListener P payload s))
  = messageListener P payload s.
Proof.
  rewrite !messageListener_eq. destruct (P payload) as [d|]; [|reflexivity].
  cbn [fst data dirty localMutations hasLocalMutations adding addTodoInput
       sources es reconnecting loop now busy_rows].
  now rewrite filter_idem.
Qed.

Lemma messageListener_silent P payload s : snd (messageListener P payload s) = [].
Proof. rewrite messageListener_eq. now destruct (P payload). Qed.

Lemma dispatch_message P payload ls s :
  dispatch ls (on_message P payload) s =
  if existsb is_onMessage ls then messageListener P payload s else (s, []).
Proof.
  revert s. induction ls as [|l ls IH]; intros s; [reflexivity|].
  simpl dispatch. unfold seqc. rewrite !IH.
  destruct l; cbn [on_message existsb is_onMessage orb].
  - rewrite messageListener_silent. cbn [app].
    destruct (existsb is_onMessage ls).
    + rewrite messageListener_idem. symmetry. apply surjective_pairing.
    + cbn [fst snd]. rewrite <- (messageListener_silent P payload s).
      symmetry. apply surjective_pairing.
  - unfold skip. cbn [fst snd app].
    destruct (existsb is_onMessage ls); [|reflexivity].
    symmetry. apply surjective_pairing.
Qed.

Lemma for_chunks_eq m i s :
  for_chunks m i s =
  if Nat.ltb i (List.length m)
  then (set_loop (Posting m i) s, [Post (chunk_at m i)])
  else (set_loop (PauseWait (now s + 1000)) s, [SetTimeout 1000]).
Proof. unfold for_chunks. destruct (Nat.ltb i (List.length m)); reflexivity. Qed.

Lemma sync_eq s :
  sync s =
  match localMutations s with
  | [] =>
      (mkState (data s) (dirty s) [] false (adding s) (addTodoInput s)
         (sources s) (es s) (reconnecting s) (PauseWait (now s + 1000)) (now s)
         (busy_rows s),
       [Swap []; SetTimeout 1000])
  | _ :: _ =>
      (mkState (data s) true [] false (adding s) (addTodoInput s)
         (sources s) (es s) (reconnecting s) (Posting (localMutations s) 0) (now s)
         (busy_rows s),
       [Swap (localMutations s); Post (chunk_at (localMutations s) 0)])
  end.
Proof. unfold sync. destruct (localMutations s) eqn:E; reflexivity. Qed.

Lemma dispatch_error_view random ls s :
  same_view s (fst (dispatch ls (on_error random) s)) /\
  forallb channel_action (snd (dispatch ls (on_error random) s)) = true.
Proof.
  revert s. induction ls as [|l ls IH]; intros s.
  - simpl. unfold same_view. tauto.
  - simpl dispatch. unfold seqc. cbn [fst snd].
    destruct (IH (fst (on_error random l s))) as [Hv Ha].
    rewrite forallb_app, Ha.
    destruct l; simpl on_error in *.
    + split; [exact Hv | reflexivity].
    + unfold same_view in *. simpl in *. split; [exact Hv| reflexivity].
Qed.

Ltac case_handlers :=
  rewrite ?addTodo_eq, ?doSave_eq, ?doDelete_eq, ?for_chunks_eq, ?sync_eq,
    ?dispatch_message, ?messageListener_eq in *;
  unfold doSaveCompleted, retry_later, post, pause in *;
  rewrite ?row_save_eq, ?saveTodo_eq in *;
  repeat match goal with
         | |- context [match ?x with _ => _ end] => destruct x eqn:?
         | H : context [match ?x with _ => _ end] |- _ => destruct x eqn:?
         end.

Ltac step_inv H :=
  cbn [step] in H;
  repeat match type of H with
         | context [match ?x with _ => _ end] => destruct x eqn:?
         end;
  try discriminate H;
  apply Some_pair_inv in H; destruct H as [? ?]; subst.


(** ** The map *)

Lemma get_set_same m k v : JsMap.get (JsMap.set m k v) k = Some v.
Proof.
  induction m as [|[k' v'] m IH]; simpl.
  - now rewrite String.eqb_refl.
  - destruct (String.eqb k' k) eqn:E; simpl; rewrite E; auto.
Qed.

Lemma get_set_other m k v k' :
  k' <> k -> JsMap.get (JsMap.set m k v) k' = JsMap.get m k'.
Proof.
  intros Hne. induction m as [|[k0 v0] m IH]; simpl.
  - destruct (String.eqb_spec k k'); congruence.
  - destruct (String.eqb_spec k0 k) as [->|Hk]; simpl.
    + destruct (String.eqb_spec k k'); congruence.
    + destruct (String.eqb_spec k0 k'); auto.
Qed.

Lemma keys_set_in m k v k' :
  In k' (JsMap.keys (JsMap.set m k v)) <-> k' = k \/ In k' (JsMap.keys m).
Proof.
  induction m as [|[k0 v0] m IH]; simpl.
  - intuition.
  - destruct (String.eqb_spec k0 k) as [->|Hk]; simpl.
    + intuition.
    + unfold JsMap.keys in IH. rewrite IH. intuition.
Qed.

Lemma NoDup_keys_set m k v :
  NoDup (JsMap.keys m) -> NoDup (JsMap.keys (JsMap.set m k v)).
Proof.
  induction m as [|[k0 v0] m IH]; simpl; intros H.
  - constructor; [intros [] | constructor].
  - inversion H as [|? ? Hin Hnd]; subst.
    destruct (String.eqb_spec k0 k) as [->|Hk]; simpl.
    + constructor; auto.
    + constructor; auto.
      intros Hin'. apply keys_set_in in Hin'. destruct Hin'; congruence.
Qed.

Lemma count_notin m k : ~ In k (JsMap.keys m) -> JsMap.count m k = 0%nat.
Proof.
  unfold JsMap.count. induction m as [|[k0 v0] m IH]; simpl; intros H; auto.
  destruct (String.eqb_spec k0 k) as [->|Hk]; simpl.
  - exfalso; auto.
  - apply IH. intros Hin; auto.
Qed.

Lemma count_NoDup m k :
  NoDup (JsMap.keys m) ->
  JsMap.count m k = match JsMap.get m k with Some _ => 1%nat | None => 0%nat end.
Proof.
  induction m as [|[k0 v0] m IH]; simpl; intros H; auto.
  inversion H as [|? ? Hin Hnd]; subst. unfold JsMap.count in *. simpl.
  destruct (String.eqb_spec k0 k) as [->|Hk]; simpl.
  - f_equal. apply (count_notin m k Hin).
  - auto.
Qed.

Lemma get_In m k v : JsMap.get m k = Some v -> In (k, v) m.
Proof.
  induction m as [|[k0 v0] m IH]; simpl; intros H; [discriminate|].
  destruct (String.eqb_spec k0 k) as [->|Hk].
  - left. congruence.
  - right. auto.
Qed.

Lemma In_get m k v : NoDup (JsMap.keys m) -> In (k, v) m -> JsMap.get m k = Some v.
Proof.
  induction m as [|[k0 v0] m IH]; simpl; intros H Hin; [contradiction|].
  inversion H as [|? ? Hnin Hnd]; subst.
  destruct Hin as [Heq|Hin].
  - inversion Heq; subst. now rewrite String.eqb_refl.
  - destruct (String.eqb_spec k0 k) as [->|Hk]; auto.
    exfalso. apply Hnin. apply (in_map fst) in Hin. exact Hin.
Qed.

Lemma build_snoc w k v : build (w ++ [(k, v)]) = JsMap.set (build w) k v.
Proof. unfold build. now rewrite fold_left_app. Qed.

Lemma last_recorded_snoc w k v k' :
  last_recorded (w ++ [(k, v)]) k' =
  if String.eqb k k' then Some v else last_recorded w k'.
Proof.
  unfold last_recorded. rewrite rev_unit. simpl.
  now destruct (String.eqb k k').
Qed.

Lemma get_build w k : JsMap.get (build w) k = last_recorded w k.
Proof.
  induction w as [|[k0 v0] w IH] using rev_ind; [reflexivity|].
  rewrite build_snoc, last_recorded_snoc.
  destruct (String.eqb_spec k0 k) as [->|Hne].
  - apply get_set_same.
  - rewrite get_set_other by congruence. exact IH.
Qed.

Lemma NoDup_keys_build w : NoDup (JsMap.keys (build w)).
Proof.
  induction w as [|[k0 v0] w IH] using rev_ind; [constructor|].
  rewrite build_snoc. now apply NoDup_keys_set.
Qed.

Lemma set_not_empty m k v : JsMap.set m k v <> [].
Proof.
  destruct m as [|[k0 v0] m]; simpl; [discriminate|].
  destruct (String.eqb k0 k); discriminate.
Qed.

(** ** C10: adding with an empty input *)

(** C10.  [addTodo] with an empty input string returns at once: the whole
    state (mutation buffer, has-pending-edits flag, adding flag and
    everything else) is the one before, and no action is performed, so
    [generateItemId] is not called; the same holds for the click on the
    add button that calls it. *)
Theorem C10_addTodo_empty_is_noop :
  forall (JSON_parse : string -> option TodoList) (uuid : string) (s : State),
    addTodoInput s = "" ->
    addTodo uuid s = (s, []) /\
    (adding s = false -> step JSON_parse s (ClickAdd uuid) = Some (s, [])).
Proof.
  intros P uuid s Hempty.
  assert (Hadd : addTodo uuid s = (s, [])).
  { unfold addTodo. rewrite Hempty. reflexivity. }
  split; [exact Hadd|].
  intros Hadding. simpl. now rewrite Hadding, Hadd.
Qed.

Lemma C10_witness :
  addTodo "u" (init (mkList []) 0) = (init (mkList []) 0, []) /\
  step (fun _ => None) (init (mkList []) 0) (ClickAdd "u")
  = Some (init (mkList []) 0, []).
Proof.
  destruct (C10_addTodo_empty_is_noop (fun _ => None) "u" (init (mkList []) 0)
              eq_refl) as [H1 H2].
  split; [exact H1 | exact (H2 eq_refl)].
Defined.

(** ** Steps, field by field *)

Lemma step_Error_view P s o fatal random s' a :
  step P s (Error o fatal random) = Some (s', a) ->
  same_view s s' /\ forallb channel_action a = true.
Proof.
  intros H. step_inv H; unfold seqc, upd; cbn [fst snd app];
    match goal with
    | |- context [dispatch ?ls (on_error ?r) ?s0] =>
        destruct (dispatch_error_view r ls s0) as [Hv Ha]
    end; (split; [exact Hv | exact Ha]).
Qed.

Lemma channel_action_not_In a (x : Action) :
  forallb channel_action a = true -> channel_action x = false -> ~ In x a.
Proof.
  intros Ha Hx Hin. rewrite forallb_forall in Ha. apply Ha in Hin. congruence.
Qed.

(** Only a message that reaches the ["message"] listener, with a payload
    that parses, takes [dirty] from true to false. *)
Lemma step_clears_dirty P s ev s' a :
  step P s ev = Some (s', a) ->
  dirty s = true -> dirty s' = false ->
  exists o payload d,
    ev = Message o payload /\ P payload = Some d /\
    data s' = d /\ adding s' = false.
Proof.
  intros H Hd Hd'.
  destruct ev;
    try (apply step_Error_view in H; destruct H as [(_ & Hv & _) _]; congruence);
    step_inv H; case_handlers; simpl in *; try congruence.
  exists o, payload, t. auto.
Qed.

(** The swap happens in the step of [Frame] only, and it takes the whole
    map. *)
Lemma step_Swap P s ev s' a m :
  step P s ev = Some (s', a) -> In (Swap m) a ->
  ev = Frame /\ m = localMutations s /\ localMutations s' = [] /\
  (m <> [] -> dirty s' = true /\ loop s' = Posting m 0).
Proof.
  intros H Hin.
  destruct ev;
    try (apply step_Error_view in H; destruct H as [_ Ha];
         exfalso; revert Hin; now apply channel_action_not_In);
    step_inv H; case_handlers; simpl in *;
    repeat match goal with
           | H : _ \/ _ |- _ => destruct H
           | H : False |- _ => destruct H
           end; try discriminate.
  - match goal with H : Swap _ = Swap _ |- _ => injection H as <- end.
    repeat split; auto; intros; congruence.
  - match goal with H : Swap _ = Swap _ |- _ => injection H as <- end.
    repeat split; auto.
Qed.

(** ** C5: who sets and who clears [dirty] *)

(** C5.  In every step of the component: a drain that returns a non-empty
    sequence (a [Swap] of a non-empty map, which only the sync loop's
    [Frame] step performs) leaves [dirty] true; no step of the sync loop
    takes [dirty] from true to false; and a step that does take [dirty]
    from true to false is the delivery of a message whose payload parses
    to a snapshot, the one now displayed. *)
Theorem C5_dirty_set_by_drain_cleared_by_snapshot :
  forall (JSON_parse : string -> option TodoList) s ev s' a,
    step JSON_parse s ev = Some (s', a) ->
    (forall m, In (Swap m) a -> m <> [] -> ev = Frame /\ dirty s' = true) /\
    (is_loop_event ev = true -> dirty s = true -> dirty s' = true) /\
    (dirty s = true -> dirty s' = false ->
     exists o payload d,
       ev = Message o payload /\ JSON_parse payload = Some d /\ data s' = d).
Proof.
  intros P s ev s' a H. split; [|split].
  - intros m Hin Hne.
    destruct (step_Swap _ _ _ _ _ _ H Hin) as (-> & _ & _ & Hd).
    split; [reflexivity | now apply Hd].
  - intros Hloop Hd. destruct (dirty s') eqn:E; [reflexivity|].
    destruct (step_clears_dirty _ _ _ _ _ H Hd E) as (o & p & d & -> & _).
    discriminate.
  - intros Hd Hd'.
    destruct (step_clears_dirty _ _ _ _ _ H Hd Hd') as (o & p & d & ? & ? & ? & _).
    exists o, p, d. auto.
Qed.

(** ** Runs *)

Lemma run_cons_inv P s ev evs s' a :
  run P s (ev :: evs) = Some (s', a) ->
  exists s1 a1 a2,
    step P s ev = Some (s1, a1) /\ run P s1 evs = Some (s', a2) /\
    a = a1 ++ a2.
Proof.
  simpl. destruct (step P s ev) as [[s1 a1]|]; [|discriminate].
  destruct (run P s1 evs) as [[s2 a2]|] eqn:E; [|discriminate].
  intros H. injection H as <- <-. exists s1, a1, a2. auto.
Qed.

Lemma run_app P s evs1 evs2 :
  run P s (evs1 ++ evs2) =
  match run P s evs1 with
  | None => None
  | Some (s1, a1) =>
      match run P s1 evs2 with
      | None => None
      | Some (s2, a2) => Some (s2, a1 ++ a2)
      end
  end.
Proof.
  revert s. induction evs1 as [|ev evs1 IH]; intros s; simpl.
  - destruct (run P s evs2) as [[s2 a2]|]; reflexivity.
  - destruct (step P s ev) as [[s1 a1]|]; [|reflexivity].
    rewrite IH. destruct (run P s1 evs1) as [[s2 a2]|]; [|reflexivity].
    destruct (run P s2 evs2) as [[s3 a3]|]; [|reflexivity].
    now rewrite app_assoc.
Qed.

Lemma run_invariant P (Q : State -> Prop) :
  (forall s ev s' a, step P s ev = Some (s', a) -> Q s -> Q s') ->
  forall evs s s' a, run P s evs = Some (s', a) -> Q s -> Q s'.
Proof.
  intros Hstep. induction evs as [|ev evs IH]; intros s s' a H HQ.
  - simpl in H. injection H as <- _. exact HQ.
  - apply run_cons_inv in H. destruct H as (s1 & a1 & a2 & H1 & H2 & _).
    eapply IH; eauto.
Qed.

(** ** The invariant of the buffer *)

Lemma buffer_ok_set s' s k v :
  localMutations s' = JsMap.set (localMutations s) k v ->
  hasLocalMutations s' = true ->
  buffer_ok s -> buffer_ok s'.
Proof.
  intros Hm Hf [Hnd _]. split.
  - rewrite Hm. now apply NoDup_keys_set.
  - rewrite Hm, Hf. split; intros _; [apply set_not_empty | reflexivity].
Qed.

Lemma buffer_ok_same s' s :
  localMutations s' = localMutations s ->
  hasLocalMutations s' = hasLocalMutations s ->
  buffer_ok s -> buffer_ok s'.
Proof. unfold buffer_ok. intros -> ->. auto. Qed.

Lemma buffer_ok_step P s ev s' a :
  step P s ev = Some (s', a) -> buffer_ok s -> buffer_ok s'.
Proof.
  intros H Hok.
  destruct ev;
    try (apply step_Error_view in H; destruct H as [(_ & _ & Hm & Hf & _) _];
         now apply (buffer_ok_same _ s));
    step_inv H; case_handlers;
    try (apply (buffer_ok_same _ s); [reflexivity | reflexivity | exact Hok]);
    try (eapply buffer_ok_set; [reflexivity | reflexivity | exact Hok]);
    try (split; simpl;
         [constructor | split; [discriminate | intros Hx; now elim Hx]]).
Qed.

Lemma buffer_ok_init d t0 : buffer_ok (init d t0).
Proof.
  split; simpl.
  - constructor.
  - split; [discriminate | intros Hx; now elim Hx].
Qed.

Lemma buffer_ok_run P d t0 evs s a :
  run P (init d t0) evs = Some (s, a) -> buffer_ok s.
Proof.
  intros H. eapply (run_invariant P buffer_ok); eauto using buffer_ok_step.
  apply buffer_ok_init.
Qed.

(** ** C8: one pending edit per id, overwritten as a whole *)

(** The scenario of the claim, in the view: the row of X, shown as not
    completed, is ticked, which queues [{text: "milk", completed: true}]
    and locks the row; before the loop drains the buffer a snapshot
    arrives in which another client has renamed X, so the row is replaced
    by a fresh one, still not completed; its delete button then records
    [{text: null, completed: item.completed}].  The buffer ends with one
    edit for X, with [completed = false], not [true]. *)
Lemma C8_counterexample :
  let s0 := init (mkList [item_X]) 0 in
  let s1 := state_after parse_example s0 [Opened 0; RowToggle 0 true] in
  let s2 := state_after parse_example s1 [Message 0 "renamed"; RowDelete 0 true] in
  run parse_example s0 [Opened 0; RowToggle 0 true]
  = Some (s1, [MapSet "X" {| text := Some "milk"; completed := true |}]) /\
  localMutations s1 = [("X", {| text := Some "milk"; completed := true |})] /\
  run parse_example s1 [Message 0 "renamed"; RowDelete 0 true]
  = Some (s2, [MapSet "X" {| text := None; completed := false |}]) /\
  localMutations s2 = [("X", {| text := None; completed := false |})] /\
  JsMap.get (localMutations s2) "X"
  <> Some {| text := None; completed := true |}.
Proof.
  cbv zeta.
  split; [vm_compute; reflexivity|].
  split; [vm_compute; reflexivity|].
  split; [vm_compute; reflexivity|].
  split; [vm_compute; reflexivity|].
  vm_compute. discriminate.
Qed.

(** C8, amended.  In every state the component reaches, the buffer holds
    at most one pending edit per id.  [saveTodo] leaves exactly one edit
    for the item's id, made of the text and the completed flag of this
    call and of nothing that was queued before, and leaves the edits of
    the other ids alone.  When a delete is recorded for an item that has
    an earlier edit with [completed = true] queued, the buffer holds
    exactly one edit for it, with [text = null] and with the completed
    flag that the delete passes, which is the one of the displayed item. *)
Theorem C8_one_edit_per_id_overwritten_whole :
  forall (JSON_parse : string -> option TodoList) d t0 evs s a,
    run JSON_parse (init d t0) evs = Some (s, a) ->
    (forall k, (JsMap.count (localMutations s) k <= 1)%nat) /\
    (forall item t c,
        let s' := fst (saveTodo item t c s) in
        JsMap.get (localMutations s') (id item)
        = Some {| text := t; completed := c |} /\
        JsMap.count (localMutations s') (id item) = 1%nat /\
        (forall k, k <> id item ->
                   JsMap.get (localMutations s') k = JsMap.get (localMutations s) k)) /\
    (forall item t,
        JsMap.get (localMutations s) (id item)
        = Some {| text := t; completed := true |} ->
        let s' := fst (doDelete item true s) in
        JsMap.get (localMutations s') (id item)
        = Some {| text := None; completed := item_completed item |} /\
        JsMap.count (localMutations s') (id item) = 1%nat).
Proof.
  intros P d t0 evs s a Hrun.
  destruct (buffer_ok_run _ _ _ _ _ _ Hrun) as [Hnd _].
  assert (Hsave : forall item t c,
             JsMap.get (localMutations (fst (saveTodo item t c s))) (id item)
             = Some {| text := t; completed := c |} /\
             JsMap.count (localMutations (fst (saveTodo item t c s))) (id item)
             = 1%nat).
  { intros item t c. simpl. split; [apply get_set_same|].
    rewrite count_NoDup by now apply NoDup_keys_set.
    now rewrite get_set_same. }
  split; [|split].
  - intros k. rewrite count_NoDup by exact Hnd.
    destruct (JsMap.get (localMutations s) k); lia.
  - intros item t c. cbv zeta.
    destruct (Hsave item t c) as [H1 H2]. repeat split; auto.
    intros k Hk. simpl. now apply get_set_other.
  - intros item t _. cbv zeta. apply (Hsave item None (item_completed item)).
Qed.

Lemma C8_witness :
  let s := state_after parse_example (init (mkList [item_Y]) 0) [RowSave 0 (Some "ham")] in
  let s' := fst (doDelete item_Y true s) in
  JsMap.get (localMutations s) "Y" = Some {| text := Some "ham"; completed := true |} /\
  JsMap.get (localMutations s') "Y" = Some {| text := None; completed := true |} /\
  JsMap.count (localMutations s') "Y" = 1%nat.
Proof.
  cbv zeta.
  assert (Hrun : run parse_example (init (mkList [item_Y]) 0) [RowSave 0 (Some "ham")]
                 = Some (state_after parse_example (init (mkList [item_Y]) 0)
                           [RowSave 0 (Some "ham")],
                         [MapSet "Y" {| text := Some "ham"; completed := true |}]))
    by (vm_compute; reflexivity).
  split; [vm_compute; reflexivity|].
  exact (proj2 (proj2 (C8_one_edit_per_id_overwritten_whole
                         parse_example _ _ _ _ _ Hrun))
           item_Y (Some "ham") eq_refl).
Defined.

(** ** Traces and the buffer *)

Lemma window_app a1 a2 w : window (a1 ++ a2) w = window a2 (window a1 w).
Proof.
  revert w. induction a1 as [|x a1 IH]; intros w; [reflexivity|].
  destruct x; simpl; apply IH.
Qed.

Lemma last_swap_app a1 a2 cur :
  last_swap (a1 ++ a2) cur = last_swap a2 (last_swap a1 cur).
Proof.
  revert cur. induction a1 as [|x a1 IH]; intros cur; [reflexivity|].
  destruct x; simpl; apply IH.
Qed.

Lemma swaps_ok_app a1 a2 w :
  swaps_ok (a1 ++ a2) w <-> swaps_ok a1 w /\ swaps_ok a2 (window a1 w).
Proof.
  revert w. induction a1 as [|x a1 IH]; intros w; [simpl; tauto|].
  destruct x; simpl; rewrite ?IH; tauto.
Qed.

Lemma posts_ok_app a1 a2 cur :
  posts_ok (a1 ++ a2) cur <-> posts_ok a1 cur /\ posts_ok a2 (last_swap a1 cur).
Proof.
  revert cur. induction a1 as [|x a1 IH]; intros cur; [simpl; tauto|].
  destruct x; simpl; rewrite ?IH; tauto.
Qed.

Lemma channel_actions_trace a w cur :
  forallb channel_action a = true ->
  window a w = w /\ swaps_ok a w /\ last_swap a cur = cur /\ posts_ok a cur.
Proof.
  induction a as [|x a IH]; simpl; [tauto|].
  intros H. apply andb_prop in H. destruct H as [Hx Ha].
  destruct x; try discriminate; simpl; auto.
Qed.

(** One step keeps the trace and the buffer in agreement. *)
Lemma step_trace P s ev s' a w cur :
  step P s ev = Some (s', a) ->
  localMutations s = build w -> loop_batch s cur ->
  swaps_ok a w /\ posts_ok a cur /\
  localMutations s' = build (window a w) /\ loop_batch s' (last_swap a cur).
Proof.
  intros H Hw Hb.
  destruct ev;
    try (apply step_Error_view in H;
         destruct H as [(_ & _ & Hm & _ & _ & _ & Hl & _) Ha];
         destruct (channel_actions_trace a w cur Ha) as (E1 & E2 & E3 & E4);
         unfold loop_batch in *; rewrite E1, E3, Hm, Hl; auto);
    step_inv H; case_handlers; unfold loop_batch in *; simpl in *;
      rewrite ?build_snoc, <- ?Hw;
      repeat match goal with
             | H : loop _ = _ |- _ => rewrite H in *
             end;
      repeat split; eauto.
Qed.

Lemma run_trace P evs : forall s s' a w cur,
  run P s evs = Some (s', a) ->
  localMutations s = build w -> loop_batch s cur ->
  swaps_ok a w /\ posts_ok a cur /\
  localMutations s' = build (window a w) /\ loop_batch s' (last_swap a cur).
Proof.
  induction evs as [|ev evs IH]; intros s s' a w cur H Hw Hb.
  - simpl in H. injection H as <- <-. simpl. auto.
  - apply run_cons_inv in H. destruct H as (s1 & a1 & a2 & H1 & H2 & ->).
    destruct (step_trace _ _ _ _ _ _ _ H1 Hw Hb) as (S1 & P1 & W1 & B1).
    destruct (IH _ _ _ _ _ H2 W1 B1) as (S2 & P2 & W2 & B2).
    rewrite swaps_ok_app, posts_ok_app, window_app, last_swap_app. auto.
Qed.

Lemma swaps_ok_at pre m post w :
  swaps_ok (pre ++ Swap m :: post) w -> m = build (window pre w).
Proof. rewrite swaps_ok_app. simpl. tauto. Qed.

Lemma last_swap_no_swap a cur :
  (forall m', ~ In (Swap m') a) -> last_swap a cur = cur.
Proof.
  revert cur. induction a as [|x a IH]; intros cur H; [reflexivity|].
  assert (Ha : forall m', ~ In (Swap m') a) by (intros m' Hin; apply (H m'); now right).
  destruct x; simpl; auto.
  exfalso. apply (H mutations). now left.
Qed.

Lemma posts_ok_at pre m mid c rest cur :
  posts_ok (pre ++ Swap m :: mid ++ Post c :: rest) cur ->
  (forall m', ~ In (Swap m') mid) ->
  exists i, c = chunk_at m i.
Proof.
  rewrite posts_ok_app. simpl. rewrite posts_ok_app. simpl.
  intros (_ & _ & (m0 & i & Hcur & Hc) & _) Hmid.
  rewrite last_swap_no_swap in Hcur by exact Hmid.
  injection Hcur as <-. eauto.
Qed.

Lemma last_recorded_In w k v : last_recorded w k = Some v -> In (k, v) w.
Proof.
  unfold last_recorded.
  destruct (find _ (rev w)) as [[k' v']|] eqn:E; [|discriminate].
  simpl. intros H. injection H as <-.
  apply find_some in E. destruct E as [Hin Hk]. simpl in Hk.
  apply String.eqb_eq in Hk. subst. now apply in_rev.
Qed.

Lemma last_recorded_some w k v :
  In (k, v) w -> exists v', last_recorded w k = Some v'.
Proof.
  unfold last_recorded. intros Hin.
  destruct (find _ (rev w)) as [[k' v']|] eqn:E; [simpl; eauto|].
  exfalso. pose proof (find_none _ _ E (k, v)) as Hn. simpl in Hn.
  rewrite String.eqb_refl in Hn. rewrite <- in_rev in Hn.
  specialize (Hn Hin). discriminate.
Qed.

Lemma window_In a : forall w k v,
  In (k, v) (window a w) -> In (k, v) w \/ In (MapSet k v) a.
Proof.
  induction a as [|x a IH]; intros w k v H; [now left|].
  destruct x; simpl in H; try (apply IH in H; simpl; tauto).
  - apply IH in H. destruct H as [H|H]; [|simpl; tauto].
    apply in_app_or in H. destruct H as [H|[H|[]]]; [now left|].
    injection H as <- <-. right. now left.
  - apply IH in H. destruct H as [[]|H]. right. now right.
Qed.

Lemma window_keeps a : forall w k v,
  (forall m', ~ In (Swap m') a) ->
  In (k, v) w \/ In (MapSet k v) a -> In (k, v) (window a w).
Proof.
  induction a as [|x a IH]; intros w k v Hns H.
  - simpl. destruct H as [H|[]]. exact H.
  - assert (Ha : forall m', ~ In (Swap m') a)
      by (intros m' Hin; apply (Hns m'); now right).
    destruct x; simpl;
      try (apply IH; [exact Ha|];
           destruct H as [H|[H|H]]; [now left | discriminate | now right]).
    + apply IH; [exact Ha|].
      destruct H as [H|[H|H]].
      * left. apply in_or_app. now left.
      * injection H as <- <-. left. apply in_or_app. right. now left.
      * now right.
    + exfalso. apply (Hns mutations). now left.
Qed.

Lemma window_last_recorded a : forall w k,
  (forall m', ~ In (Swap m') a) -> (forall v', ~ In (MapSet k v') a) ->
  last_recorded (window a w) k = last_recorded w k.
Proof.
  induction a as [|x a IH]; intros w k Hns Hnk; [reflexivity|].
  assert (Ha : forall m', ~ In (Swap m') a)
    by (intros m' Hin; apply (Hns m'); now right).
  assert (Hk : forall v', ~ In (MapSet k v') a)
    by (intros v' Hin; apply (Hnk v'); now right).
  destruct x; simpl; auto.
  - rewrite IH by assumption. rewrite last_recorded_snoc.
    destruct (String.eqb_spec id0 k) as [->|Hne]; [|reflexivity].
    exfalso. apply (Hnk mut). now left.
  - exfalso. apply (Hns mutations). now left.
Qed.

(** ** C1: no edit is lost, none is drained twice *)

(** C1.  Take any run of the component from its mounting and any drain in
    it, that is, a [Swap m] in the trace of actions, and let [recorded] be
    the [set] calls made since the drain before it (since the mounting for
    the first one).  Then
    - for each id, the edit recorded last for it is in [m], and [m] holds
      exactly one entry for that id;
    - every entry of [m] is the edit recorded last for its id, so nothing
      is in [m] that was not recorded since the drain before: an entry is
      in the results of two consecutive drains only when it was recorded
      again in between;
    - every request sent until the next drain carries a chunk of [m]: the
      batch of the cycle is made of what was recorded before the swap;
    - an edit recorded after the swap, while the submission is under way
      or later, is in the map the next drain takes: that map holds an
      entry for its id, which is this edit unless a later [set] for the
      same id replaced it. *)
Theorem C1_edits_drained_once_none_lost :
  forall (JSON_parse : string -> option TodoList) d t0 evs s acts,
    run JSON_parse (init d t0) evs = Some (s, acts) ->
    forall pre m post,
      acts = pre ++ Swap m :: post ->
      (forall k v, last_recorded (window pre []) k = Some v ->
                   In (k, v) m /\ JsMap.count m k = 1%nat) /\
      (forall k v, In (k, v) m -> last_recorded (window pre []) k = Some v) /\
      (forall pre0 m0 mid,
          pre = pre0 ++ Swap m0 :: mid -> (forall m', ~ In (Swap m') mid) ->
          forall k v, In (k, v) m -> In (MapSet k v) mid) /\
      (forall mid c rest,
          post = mid ++ Post c :: rest -> (forall m', ~ In (Swap m') mid) ->
          exists i, c = chunk_at m i) /\
      (forall mid k v rest m2 post2,
          post = mid ++ MapSet k v :: rest ++ Swap m2 :: post2 ->
          (forall m', ~ In (Swap m') mid) -> (forall m', ~ In (Swap m') rest) ->
          exists v', In (k, v') m2 /\
                     ((forall v'', ~ In (MapSet k v'') rest) -> v' = v)).
Proof.
  intros P d t0 evs s acts Hrun pre m post Hacts.
  destruct (run_trace P evs _ _ _ [] None Hrun eq_refl I) as (Hs & Hp & _ & _).
  subst acts.
  pose proof (swaps_ok_at _ _ _ _ Hs) as Hm.
  assert (Hlast : forall k v, In (k, v) m <-> last_recorded (window pre []) k = Some v).
  { intros k v. rewrite <- get_build, <- Hm. split.
    - apply In_get. rewrite Hm. apply NoDup_keys_build.
    - apply get_In. }
  split; [|split; [|split; [|split]]].
  - intros k v Hk. split; [now apply Hlast|].
    rewrite count_NoDup by (rewrite Hm; apply NoDup_keys_build).
    rewrite Hm, get_build, Hk. reflexivity.
  - intros k v. apply Hlast.
  - intros pre0 m0 mid -> Hmid k v Hin.
    apply Hlast, last_recorded_In in Hin.
    rewrite window_app in Hin. simpl in Hin.
    apply window_In in Hin. destruct Hin as [[]|Hin]. exact Hin.
  - intros mid c rest -> Hmid. eapply posts_ok_at; eauto.
  - intros mid k v rest m2 post2 -> Hmid Hrest.
    replace (pre ++ Swap m :: mid ++ MapSet k v :: rest ++ Swap m2 :: post2)
      with ((pre ++ Swap m :: mid ++ MapSet k v :: rest) ++ Swap m2 :: post2) in Hs
      by (rewrite <- !app_assoc; simpl; rewrite <- !app_assoc; reflexivity).
    apply swaps_ok_at in Hs.
    rewrite !window_app in Hs. simpl in Hs. rewrite window_app in Hs. simpl in Hs.
    assert (Hin : In (k, v) (window rest (window mid [] ++ [(k, v)]))).
    { apply window_keeps; [exact Hrest|]. left. apply in_or_app. right. now left. }
    destruct (last_recorded_some _ _ _ Hin) as [v' Hv'].
    exists v'. split.
    + rewrite Hs. apply get_In. now rewrite get_build.
    + intros Hnone. rewrite window_last_recorded in Hv' by assumption.
      rewrite last_recorded_snoc, String.eqb_refl in Hv'. congruence.
Qed.


Lemma C1_witness :
  let evs := [RowToggle 0 true; Tick 1000; TimerElapsed; Frame;
              RowDelete 1 true; PostOk; Tick 1000; TimerElapsed; Frame] in
  let s0 := init (mkList [item_X; item_Y]) 0 in
  let m1 := [("X", {| text := Some "milk"; completed := true |})] in
  let m2 := [("Y", {| text := None; completed := true |})] in
  let pre := [MapSet "X" {| text := Some "milk"; completed := true |};
              RequestAnimationFrame; Swap m1; Post (chunk_at m1 0);
              MapSet "Y" {| text := None; completed := true |};
              SetTimeout 1000; RequestAnimationFrame] in
  run parse_example s0 evs
  = Some (state_after parse_example s0 evs, pre ++ Swap m2 :: [Post (chunk_at m2 0)]) /\
  In ("Y", {| text := None; completed := true |}) m2 /\
  JsMap.count m2 "Y" = 1%nat.
Proof.
  intros evs s0 m1 m2 pre.
  assert (Hrun : run parse_example s0 evs
                 = Some (state_after parse_example s0 evs,
                         pre ++ Swap m2 :: [Post (chunk_at m2 0)]))
    by (vm_compute; reflexivity).
  assert (Hlast : last_recorded (window pre []) "Y"
                  = Some {| text := None; completed := true |})
    by (vm_compute; reflexivity).
  split; [exact Hrun|].
  exact (proj1 (C1_edits_drained_once_none_lost parse_example
                  (mkList [item_X; item_Y]) 0 evs _ _ Hrun pre m2
                  [Post (chunk_at m2 0)] eq_refl)
           "Y" {| text := None; completed := true |} Hlast).
Defined.

Lemma C5_witness :
  let s := state_after parse_example (init (mkList [item_X]) 0)
             [RowToggle 0 true; Tick 1000; TimerElapsed] in
  loop s = FrameWait /\ dirty s = false /\
  dirty (fst (sync s)) = true.
Proof.
  intros s.
  assert (Hstep : step parse_example s Frame = Some (fst (sync s), snd (sync s)))
    by (vm_compute; reflexivity).
  split; [vm_compute; reflexivity|]. split; [vm_compute; reflexivity|].
  refine (proj2 (proj1 (C5_dirty_set_by_drain_cleared_by_snapshot parse_example
                          s Frame _ _ Hstep)
                   [("X", {| text := Some "milk"; completed := true |})] _ _)).
  - vm_compute. left. reflexivity.
  - discriminate.
Defined.

(** ** C9: the busy signal *)

(** The flag [hasLocalMutations] goes from true to false in the drain
    only. *)
Lemma step_clears_hasLocalMutations P s ev s' a :
  step P s ev = Some (s', a) ->
  hasLocalMutations s = true -> hasLocalMutations s' = false ->
  ev = Frame /\ (localMutations s <> [] -> dirty s' = true).
Proof.
  intros H Hf Hf'.
  destruct ev;
    try (apply step_Error_view in H; destruct H as [(_ & _ & _ & Hv & _) _];
         congruence);
    step_inv H; case_handlers; simpl in *; try congruence;
    (split; [reflexivity|]); intros Hne; congruence.
Qed.

Lemma run_keeps_dirty P evs : forall s s' a,
  run P s evs = Some (s', a) ->
  forallb (fun ev => negb (is_Message ev)) evs = true ->
  dirty s = true -> dirty s' = true.
Proof.
  induction evs as [|ev evs IH]; intros s s' a H Hev Hd.
  - simpl in H. injection H as <- _. exact Hd.
  - apply run_cons_inv in H. destruct H as (s1 & a1 & a2 & H1 & H2 & _).
    simpl in Hev. apply andb_prop in Hev. destruct Hev as [Hev1 Hev2].
    apply (IH _ _ _ H2 Hev2).
    destruct (dirty s1) eqn:E; [reflexivity|].
    destruct (step_clears_dirty _ _ _ _ _ H1 Hd E) as (o & p & d & -> & _).
    discriminate.
Qed.

(** C9.  In every state the component reaches, [busy] is true exactly
    when the buffer holds a pending edit or [dirty] is set.  A step that
    takes [busy] from true to false is the delivery of a message whose
    payload parses to a snapshot.  And once a non-empty drain has been
    taken for submission, [busy] is true after every further run in which
    no message arrives, whatever the outcomes of the requests. *)
Theorem C9_busy_until_snapshot :
  forall (JSON_parse : string -> option TodoList) d t0 evs s a,
    run JSON_parse (init d t0) evs = Some (s, a) ->
    (busy s = true <-> localMutations s <> [] \/ dirty s = true) /\
    (forall ev s' a',
        step JSON_parse s ev = Some (s', a') ->
        busy s = true -> busy s' = false ->
        exists o payload d',
          ev = Message o payload /\ JSON_parse payload = Some d' /\
          data s' = d') /\
    (forall s1 a1 evs' s2 a2,
        step JSON_parse s Frame = Some (s1, a1) ->
        localMutations s <> [] ->
        run JSON_parse s1 evs' = Some (s2, a2) ->
        forallb (fun ev => negb (is_Message ev)) evs' = true ->
        busy s2 = true).
Proof.
  intros P d t0 evs s a Hrun.
  destruct (buffer_ok_run _ _ _ _ _ _ Hrun) as [_ Hflag].
  split; [|split].
  - unfold busy. rewrite orb_true_iff, Hflag. tauto.
  - intros ev s' a' Hstep Hb Hb'. unfold busy in *.
    apply orb_false_elim in Hb'. destruct Hb' as [Hf' Hd'].
    destruct (dirty s) eqn:Hd.
    + destruct (step_clears_dirty _ _ _ _ _ Hstep Hd Hd')
        as (o & p & d' & ? & ? & ? & _).
      exists o, p, d'. auto.
    + rewrite orb_false_r in Hb.
      destruct (step_clears_hasLocalMutations _ _ _ _ _ Hstep Hb Hf') as [_ Hx].
      rewrite Hx in Hd' by now apply Hflag. discriminate.
  - intros s1 a1 evs' s2 a2 Hstep Hne Hrun' Hev.
    assert (Hd1 : dirty s1 = true).
    { step_inv Hstep. rewrite sync_eq.
      destruct (localMutations s); [now elim Hne | reflexivity]. }
    unfold busy. rewrite (run_keeps_dirty _ _ _ _ _ Hrun' Hev Hd1).
    apply orb_true_r.
Qed.

(** The scenario of the specification: "Buy milk" is added while the
    network is down; two requests fail, the third succeeds, and the
    indicator stays on. *)
Lemma C9_witness :
  let s := state_after parse_example (init (mkList []) 0)
             [Type_ "Buy milk"; ClickAdd "u"; Tick 1000; TimerElapsed] in
  let evs' := [PostFail; Tick 1000; TimerElapsed;
               PostFail; Tick 1000; TimerElapsed; PostOk] in
  localMutations s = [("0-u", {| text := Some "Buy milk"; completed := false |})] /\
  busy s = true /\
  busy (state_after parse_example (fst (sync s)) evs') = true.
Proof.
  intros s evs'.
  assert (Hrun : run parse_example (init (mkList []) 0)
                   [Type_ "Buy milk"; ClickAdd "u"; Tick 1000; TimerElapsed]
                 = Some (s, [GenerateItemId "0-u";
                             MapSet "0-u" {| text := Some "Buy milk"; completed := false |};
                             RequestAnimationFrame]))
    by (vm_compute; reflexivity).
  assert (Hstep : step parse_example s Frame = Some (fst (sync s), snd (sync s)))
    by (vm_compute; reflexivity).
  assert (Hrun' : run parse_example (fst (sync s)) evs'
                  = Some (state_after parse_example (fst (sync s)) evs',
                          [SetTimeout 1000;
                           Post [mkBatch "0-u" (Some "Buy milk") false];
                           SetTimeout 1000;
                           Post [mkBatch "0-u" (Some "Buy milk") false];
                           SetTimeout 1000]))
    by (vm_compute; reflexivity).
  split; [vm_compute; reflexivity|]. split; [vm_compute; reflexivity|].
  refine (proj2 (proj2 (C9_busy_until_snapshot parse_example _ _ _ _ _ Hrun))
            _ _ evs' _ _ Hstep _ Hrun' _).
  - vm_compute. discriminate.
  - vm_compute. reflexivity.
Defined.

(** ** C2: chunks of ten, in order *)

Lemma chunks_eq m i :
  chunks m i =
  if Nat.ltb i (List.length m)
  then chunk_at m i :: chunks m (i + chunkSize)
  else [].
Proof.
  rewrite chunks_equation_1.
  destruct (lt_dec i (List.length m)) as [Hlt|Hge]; simpl.
  - apply Nat.ltb_lt in Hlt. now rewrite Hlt.
  - apply Nat.ltb_nlt in Hge. now rewrite Hge.
Qed.

Lemma chunks_past_end m i : (List.length m <= i)%nat -> chunks m i = [].
Proof.
  intros H. rewrite chunks_eq. apply Nat.ltb_ge in H. now rewrite H.
Qed.

Lemma chunk_at_length m i :
  List.length (chunk_at m i) = Nat.min chunkSize (List.length m - i).
Proof.
  unfold chunk_at, slice. rewrite length_map, length_firstn, length_skipn.
  f_equal. lia.
Qed.

(** Induction along the [for] loop: from [i] to [i + chunkSize] while
    [i] is below the length. *)
Lemma for_loop_ind (n : nat) (Q : nat -> Prop) :
  (forall i, (n <= i)%nat -> Q i) ->
  (forall i, (i < n)%nat -> Q (i + chunkSize)%nat -> Q i) ->
  forall i, Q i.
Proof.
  intros Hend Hstep i.
  remember (n - i)%nat as k eqn:Hk. revert i Hk.
  induction k as [k IH] using lt_wf_ind. intros i Hk.
  destruct (le_lt_dec n i) as [Hle|Hlt]; [now apply Hend|].
  apply Hstep; [exact Hlt|].
  apply (IH (n - (i + chunkSize))%nat); unfold chunkSize; lia.
Qed.

Lemma chunks_concat m : forall i,
  List.concat (chunks m i) = map batch_record (skipn i m).
Proof.
  apply (for_loop_ind (List.length m)); intros i Hi.
  - rewrite chunks_past_end, skipn_all2 by exact Hi. reflexivity.
  - intros IH. rewrite chunks_eq.
    apply Nat.ltb_lt in Hi. rewrite Hi. simpl. rewrite IH.
    unfold chunk_at, slice. rewrite <- map_app. f_equal.
    replace (i + chunkSize - i)%nat with chunkSize by lia.
    rewrite <- (firstn_skipn chunkSize (skipn i m)) at 2.
    f_equal. rewrite skipn_skipn. f_equal. lia.
Qed.

Lemma chunks_sizes m : forall i,
  (i <= List.length m)%nat ->
  map (@List.length _) (chunks m i) =
  repeat chunkSize ((List.length m - i) / chunkSize)
  ++ (if Nat.eqb ((List.length m - i) mod chunkSize) 0 then []
      else [((List.length m - i) mod chunkSize)%nat]).
Proof.
  apply (for_loop_ind (List.length m)
           (fun i => (i <= List.length m)%nat -> _)); intros i Hi.
  - intros Hle. rewrite chunks_past_end by exact Hi.
    replace (List.length m - i)%nat with 0%nat by lia. reflexivity.
  - intros IH _. rewrite chunks_eq.
    pose proof Hi as Hlt. apply Nat.ltb_lt in Hi. rewrite Hi. cbn [map].
    rewrite chunk_at_length.
    assert (Hcs : chunkSize <> 0%nat) by discriminate.
    destruct (le_lt_dec (i + chunkSize) (List.length m)) as [Hfull|Hpart].
    + rewrite IH by exact Hfull.
      replace (List.length m - i)%nat
        with (List.length m - (i + chunkSize) + 1 * chunkSize)%nat by lia.
      rewrite Nat.div_add, Nat.Div0.mod_add by exact Hcs.
      rewrite Nat.add_1_r. cbn [repeat app]. f_equal. lia.
    + rewrite chunks_past_end by lia. cbn [map].
      rewrite Nat.div_small, Nat.mod_small by lia. cbn [repeat app].
      replace (Nat.min chunkSize (List.length m - i)) with (List.length m - i)%nat by lia.
      destruct (Nat.eqb_spec (List.length m - i) 0); [lia | reflexivity].
Qed.

Lemma run_cons P s ev evs :
  run P s (ev :: evs) =
  match step P s ev with
  | None => None
  | Some (s1, a1) =>
      match run P s1 evs with
      | None => None
      | Some (s2, a2) => Some (s2, a1 ++ a2)
      end
  end.
Proof. reflexivity. Qed.

(** When every request succeeds, the loop goes through the chunks from
    [j] on, one request after the other, and then pauses. *)
Lemma run_all_PostOk P m : forall j s,
  (exists i, loop s = Posting m i /\ j = (i + chunkSize)%nat) ->
  exists s',
    run P s (repeat PostOk (S (List.length (chunks m j))))
    = Some (s', map Post (chunks m j) ++ [SetTimeout 1000]) /\
    loop s' = PauseWait (now s + 1000).
Proof.
  apply (for_loop_ind (List.length m)
           (fun j => forall s, (exists i, loop s = Posting m i /\ j = (i + chunkSize)%nat) -> _));
    intros j Hj.
  - intros s (i & Hl & ->). rewrite chunks_past_end by exact Hj.
    cbn [List.length repeat map app]. rewrite run_cons. cbn [step run].
    rewrite Hl, for_chunks_eq.
    apply Nat.ltb_ge in Hj. rewrite Hj.
    eexists. split; reflexivity.
  - intros IH s (i & Hl & ->). rewrite chunks_eq.
    apply Nat.ltb_lt in Hj. rewrite Hj.
    destruct (IH (set_loop (Posting m (i + chunkSize)) s)) as (s' & Hrun & Hl').
    { exists (i + chunkSize)%nat. split; reflexivity. }
    exists s'. split; [|exact Hl'].
    cbn [List.length map]. rewrite <- app_comm_cons.
    change (repeat PostOk (S (S (List.length (chunks m (i + chunkSize + chunkSize))))))
      with (PostOk :: repeat PostOk (S (List.length (chunks m (i + chunkSize + chunkSize))))).
    rewrite run_cons. cbn [step]. rewrite Hl, for_chunks_eq, Hj, Hrun.
    reflexivity.
Qed.

(** A request is sent only by a step that finds none pending, or by the
    step that sees the pending one succeed; and a step sends one request
    at most. *)
Lemma step_Post P s ev s' a c :
  step P s ev = Some (s', a) -> In (Post c) a ->
  filter is_Post a = [Post c] /\ in_flight s' = true /\
  (in_flight s = true -> ev = PostOk).
Proof.
  intros H Hin. unfold in_flight.
  destruct ev;
    try (apply step_Error_view in H; destruct H as [_ Ha];
         exfalso; revert Hin; now apply channel_action_not_In);
    step_inv H; case_handlers; simpl in *;
    repeat match goal with
           | H : _ \/ _ |- _ => destruct H
           | H : False |- _ => destruct H
           end; try discriminate;
    match goal with H : Post _ = Post _ |- _ => injection H as <- end;
    repeat split; auto; try discriminate;
    repeat match goal with
           | H : loop _ = _ |- _ => rewrite H
           end; try discriminate.
Qed.

(** C2.  Let the sync loop be about to drain a buffer [m] of [n] edits.
    When every request succeeds, the cycle consists of the swap, one
    request per element of [chunks m 0] in that order, and the pause.
    The chunks put end to end are the drained edits in drain order; their
    sizes are [n / 10] times 10, followed by [n mod 10] when that is not
    0; for [n = 23] they are 10, 10, 3.  Requests are sequential: a step
    sends at most one request, and it sends one only when none is pending
    or when the pending one has just succeeded. *)
Theorem C2_chunks_of_ten_in_order :
  forall (JSON_parse : string -> option TodoList) (s : State),
    loop s = FrameWait ->
    let m := localMutations s in
    let n := List.length m in
    (exists s',
        run JSON_parse s (Frame :: repeat PostOk (List.length (chunks m 0)))
        = Some (s', Swap m :: map Post (chunks m 0) ++ [SetTimeout 1000]) /\
        loop s' = PauseWait (now s + 1000)) /\
    List.concat (chunks m 0) = map batch_record m /\
    map (@List.length _) (chunks m 0)
    = repeat 10%nat (n / 10)
      ++ (if Nat.eqb (n mod 10) 0 then [] else [(n mod 10)%nat]) /\
    (n = 23%nat -> map (@List.length _) (chunks m 0) = [10; 10; 3]%nat) /\
    (forall s1 ev s2 a c,
        step JSON_parse s1 ev = Some (s2, a) -> In (Post c) a ->
        filter is_Post a = [Post c] /\ in_flight s2 = true /\
        (in_flight s1 = true -> ev = PostOk)).
Proof.
  intros P s Hloop m n.
  assert (Hsizes : map (@List.length _) (chunks m 0)
                   = repeat 10%nat (n / 10)
                     ++ (if Nat.eqb (n mod 10) 0 then [] else [(n mod 10)%nat])).
  { rewrite (chunks_sizes m 0) by lia. rewrite Nat.sub_0_r. reflexivity. }
  split; [|split; [|split; [|split]]].
  - rewrite run_cons. cbn [step]. rewrite Hloop, sync_eq. fold m.
    destruct m as [|e m'] eqn:Em.
    + rewrite chunks_past_end by (simpl; lia). simpl.
      eexists. split; reflexivity.
    + rewrite <- Em. rewrite (chunks_eq m 0).
      replace (Nat.ltb 0 (List.length m)) with true
        by (rewrite Em; reflexivity).
      cbn [List.length map].
      match goal with
      | |- context [run P ?s1 _] =>
          destruct (run_all_PostOk P m (0 + chunkSize) s1) as (s' & Hrun & Hl')
      end.
      { exists 0%nat. split; reflexivity. }
      rewrite Hrun. exists s'. split; [reflexivity | exact Hl'].
  - rewrite chunks_concat. reflexivity.
  - exact Hsizes.
  - intros Hn. rewrite Hsizes, Hn. reflexivity.
  - intros s1 ev s2 a c. apply step_Post.
Qed.

(** Twenty-three rows are toggled before the loop wakes up. *)
Lemma C2_witness :
  let d := mkList (map (fun k => mkItem (string_of_Z (Z.of_nat k)) "task" false 0 "v1")
                       (List.seq 0 23)) in
  let s := state_after parse_example (init d 0)
             (map (fun k => RowToggle k true) (List.seq 0 23)
              ++ [Tick 1000; TimerElapsed]) in
  List.length (localMutations s) = 23%nat /\
  map (@List.length _) (chunks (localMutations s) 0) = [10; 10; 3]%nat.
Proof.
  intros d s.
  assert (Hloop : loop s = FrameWait) by (vm_compute; reflexivity).
  assert (Hn : List.length (localMutations s) = 23%nat) by (vm_compute; reflexivity).
  split; [exact Hn|].
  exact (proj1 (proj2 (proj2 (proj2
           (C2_chunks_of_ten_in_order parse_example s Hloop)))) Hn).
Defined.

(** ** C6: a failed chunk is retried every second until it succeeds *)

Lemma step_now_mono P s ev s' a :
  step P s ev = Some (s', a) -> now s <= now s'.
Proof.
  intros H.
  destruct ev;
    try (apply step_Error_view in H;
         destruct H as [(_ & _ & _ & _ & _ & _ & _ & Hn) _]; lia);
    step_inv H; case_handlers; simpl in *; lia.
Qed.

Lemma run_now_mono P evs : forall s s' a,
  run P s evs = Some (s', a) -> now s <= now s'.
Proof.
  induction evs as [|ev evs IH]; intros s s' a H.
  - simpl in H. injection H as <- _. lia.
  - apply run_cons_inv in H. destruct H as (s1 & a1 & a2 & H1 & H2 & _).
    apply step_now_mono in H1. apply IH in H2. lia.
Qed.

(** Until a request succeeds, the loop stays with its chunk, and every
    request it sends carries that chunk. *)
Lemma step_same_chunk P s ev s' a m i :
  step P s ev = Some (s', a) ->
  loop_chunk s = Some (m, i) -> is_PostOk ev = false ->
  loop_chunk s' = Some (m, i) /\ forall c, In (Post c) a -> c = chunk_at m i.
Proof.
  intros H Hc Hev. unfold loop_chunk in *.
  destruct ev; try discriminate Hev;
    try (apply step_Error_view in H;
         destruct H as [(_ & _ & _ & _ & _ & _ & Hl & _) Ha];
         rewrite Hl; split; [exact Hc|];
         intros c Hin; exfalso; revert Hin; now apply channel_action_not_In);
    step_inv H; case_handlers; simpl in *;
    repeat match goal with
           | H : loop _ = _ |- _ => rewrite H in *
           end;
    try discriminate; (split; [assumption || congruence|]);
    intros c Hin;
    repeat match goal with
           | H : _ \/ _ |- _ => destruct H
           | H : False |- _ => destruct H
           end; try discriminate; congruence.
Qed.

Lemma run_same_chunk P evs : forall s s' a m i,
  run P s evs = Some (s', a) ->
  loop_chunk s = Some (m, i) ->
  forallb (fun ev => negb (is_PostOk ev)) evs = true ->
  loop_chunk s' = Some (m, i) /\ forall c, In (Post c) a -> c = chunk_at m i.
Proof.
  induction evs as [|ev evs IH]; intros s s' a m i H Hc Hev.
  - simpl in H. injection H as <- <-. split; [exact Hc | intros c []].
  - apply run_cons_inv in H. destruct H as (s1 & a1 & a2 & H1 & H2 & ->).
    simpl in Hev. apply andb_prop in Hev. destruct Hev as [Hev1 Hev2].
    apply negb_true_iff in Hev1.
    destruct (step_same_chunk _ _ _ _ _ _ _ H1 Hc Hev1) as [Hc1 Hp1].
    destruct (IH _ _ _ _ _ H2 Hc1 Hev2) as [Hc2 Hp2].
    split; [exact Hc2|].
    intros c Hin. apply in_app_or in Hin. destruct Hin; auto.
Qed.

(** While a retry timer is not due, the loop waits and sends nothing. *)
Lemma step_waiting P s ev s' a m i due :
  step P s ev = Some (s', a) ->
  loop s = RetryWait m i due -> now s' < due ->
  loop s' = RetryWait m i due /\ filter is_Post a = [].
Proof.
  intros H Hl Hnow.
  pose proof (step_now_mono _ _ _ _ _ H) as Hmono.
  destruct ev;
    try (apply step_Error_view in H;
         destruct H as [(_ & _ & _ & _ & _ & _ & Hl' & _) Ha];
         rewrite Hl'; split; [exact Hl|];
         clear - Ha; induction a as [|x a IH]; [reflexivity|];
         simpl in Ha; apply andb_prop in Ha; destruct Ha as [Hx Ha];
         destruct x; try discriminate; simpl; auto);
    step_inv H; case_handlers; simpl in *;
    repeat match goal with
           | H : loop _ = _ |- _ => rewrite H in *
           end;
    try discriminate; try (split; [assumption || reflexivity | reflexivity]).
  all: match goal with
       | H : RetryWait _ _ _ = RetryWait _ _ _ |- _ => injection H as -> -> ->
       end.
  all: match goal with
       | H : (_ <=? _) = true |- _ => apply Z.leb_le in H; lia
       end.
Qed.

Lemma run_waiting P evs : forall s s' a m i due,
  run P s evs = Some (s', a) ->
  loop s = RetryWait m i due -> now s' < due ->
  loop s' = RetryWait m i due /\ filter is_Post a = [].
Proof.
  induction evs as [|ev evs IH]; intros s s' a m i due H Hl Hnow.
  - simpl in H. injection H as <- <-. split; [exact Hl | reflexivity].
  - apply run_cons_inv in H. destruct H as (s1 & a1 & a2 & H1 & H2 & ->).
    pose proof (run_now_mono _ _ _ _ _ H2) as Hmono.
    destruct (step_waiting _ _ _ _ _ _ _ _ H1 Hl ltac:(lia)) as [Hl1 Hp1].
    destruct (IH _ _ _ _ _ _ H2 Hl1 Hnow) as [Hl2 Hp2].
    split; [exact Hl2|]. rewrite filter_app, Hp1, Hp2. reflexivity.
Qed.

Lemma retry_once P s m i :
  loop s = Posting m i ->
  exists s',
    run P s [PostFail; Tick 1000; TimerElapsed]
    = Some (s', [SetTimeout 1000; Post (chunk_at m i)]) /\
    loop s' = Posting m i.
Proof.
  intros Hl. cbn [run step]. rewrite Hl. cbn.
  replace (now s + 1000 <=? now s + 1000) with true
    by (symmetry; apply Z.leb_refl).
  eexists. split; reflexivity.
Qed.

(** C6.  Let a request for the chunk at [i] of the batch [m] be pending.
    - For every number [k], after [k] failures, each followed by one
      second and the timer, the loop has started a 1000 ms timer and sent
      the same chunk again [k] times, and the request for that chunk is
      pending once more: the delay does not grow, there is no limit, the
      chunk is not split.
    - After a failure the loop waits: in every run that ends before the
      1000 ms have passed, it is still waiting and has sent nothing.
    - In every run without a successful request the loop stays with the
      chunk at [i], and every request sent carries that chunk.
    - A success takes the loop to the test of the [for] loop at
      [i + chunkSize]: the next chunk, or the pause after the last one. *)
Theorem C6_failed_chunk_retried_every_second :
  forall (JSON_parse : string -> option TodoList) s m i,
    loop s = Posting m i ->
    (forall k : nat,
        exists s',
          run JSON_parse s (List.concat (repeat [PostFail; Tick 1000; TimerElapsed] k))
          = Some (s', List.concat (repeat [SetTimeout 1000; Post (chunk_at m i)] k)) /\
          loop s' = Posting m i) /\
    (exists s1,
        step JSON_parse s PostFail = Some (s1, [SetTimeout 1000]) /\
        loop s1 = RetryWait m i (now s + 1000) /\
        forall evs s2 a2,
          run JSON_parse s1 evs = Some (s2, a2) -> now s2 < now s + 1000 ->
          loop s2 = RetryWait m i (now s + 1000) /\ filter is_Post a2 = []) /\
    (forall evs s' a,
        run JSON_parse s evs = Some (s', a) ->
        forallb (fun ev => negb (is_PostOk ev)) evs = true ->
        loop_chunk s' = Some (m, i) /\
        forall c, In (Post c) a -> c = chunk_at m i) /\
    step JSON_parse s PostOk = Some (for_chunks m (i + chunkSize) s).
Proof.
  intros P s m i Hl. split; [|split; [|split]].
  - intros k. revert s Hl. induction k as [|k IH]; intros s Hl.
    + exists s. split; [reflexivity | exact Hl].
    + destruct (retry_once P s m i Hl) as (s1 & H1 & Hl1).
      destruct (IH s1 Hl1) as (s2 & H2 & Hl2).
      exists s2. split; [|exact Hl2].
      cbn [repeat List.concat]. rewrite run_app, H1, H2. reflexivity.
  - exists (fst (retry_later m i s)).
    split; [cbn [step]; rewrite Hl; reflexivity|].
    split; [reflexivity|].
    intros evs s2 a2 Hrun Hnow.
    eapply run_waiting; eauto.
  - intros evs s' a Hrun Hev.
    eapply run_same_chunk; eauto. unfold loop_chunk. now rewrite Hl.
  - cbn [step]. now rewrite Hl.
Qed.

(** Two edits are drained; the request fails three times in a row. *)
Lemma C6_witness :
  let s := state_after parse_example (init (mkList [item_X; item_Y]) 0)
             [RowToggle 0 true; RowDelete 1 true; Tick 1000; TimerElapsed; Frame] in
  let m := [("X", {| text := Some "milk"; completed := true |});
            ("Y", {| text := None; completed := true |})] in
  exists s',
    run parse_example s (List.concat (repeat [PostFail; Tick 1000; TimerElapsed] 3))
    = Some (s', List.concat (repeat [SetTimeout 1000; Post (chunk_at m 0)] 3)) /\
    loop s' = Posting m 0.
Proof.
  intros s m.
  assert (Hl : loop s = Posting m 0) by (vm_compute; reflexivity).
  exact (proj1 (C6_failed_chunk_retried_every_second parse_example s m 0%nat Hl) 3%nat).
Defined.

(** ** The live state channel in the reachable states *)

Lemma update_length {A} (f : A -> A) l : forall k,
  List.length (update k f l) = List.length l.
Proof.
  induction l as [|x l IH]; intros [|k]; simpl; auto.
Qed.

Lemma Forall_update {A} (Q : A -> Prop) (f : A -> A) l :
  (forall x, Q x -> Q (f x)) ->
  forall k, Forall Q l -> Forall Q (update k f l).
Proof.
  intros Hf. induction l as [|x l IH]; intros [|k] H; simpl; auto;
    inversion H; subst; constructor; auto.
Qed.

Lemma dispatch_error_none random ls s :
  ~ In onError ls -> dispatch ls (on_error random) s = (s, []).
Proof.
  revert s. induction ls as [|l ls IH]; intros s Hnin; [reflexivity|].
  simpl dispatch. unfold seqc.
  destruct l; [|exfalso; apply Hnin; now left].
  simpl on_error. unfold skip. cbn [fst snd app].
  rewrite IH by (intros Hin; apply Hnin; now right). reflexivity.
Qed.

(** What an [Error] does in a state the component reaches: on the first
    source it runs the listener, once; on any other source it runs
    nothing. *)
Lemma step_Error_reachable P s o fatal random s' a :
  channel_ok s ->
  step P s (Error o fatal random) = Some (s', a) ->
  (o = 0%nat /\
   a = [Close 0%nat; SetTimeout (Number.timeout (backoff random))] /\
   reconnecting s = [] /\
   reconnecting s' = [now s + Number.timeout (backoff random)] /\
   (exists ls, sources s' = mkSource CLOSED [onMessage; onError] :: ls /\
               ls = skipn 1 (sources s)) /\
   (exists r0 rest, sources s = mkSource r0 [onMessage; onError] :: rest /\
                    r0 <> CLOSED) /\
   es s' = es s /\ same_view s s') \/
  (o <> 0%nat /\ a = [] /\
   s' = set_readyState o (if fatal then CLOSED else CONNECTING) s).
Proof.
  unfold channel_ok. intros Hok H.
  destruct (sources s) as [|[r0 l0] rest] eqn:Es; [contradiction|].
  destruct Hok as (Hl0 & Hrest & Hes). simpl in Hl0. subst l0.
  destruct o as [|o].
  - left. cbn [step] in H. rewrite Es in H. cbn [nth_error] in H.
    assert (Hopen : r0 <> CLOSED) by (intros ->; discriminate).
    destruct (Hes Hopen) as [He Hr].
    assert (Hgoal : forall r1,
               Some ((upd (set_readyState 0 r1);;
                      dispatch [onMessage; onError] (on_error random))%cmd s)
               = Some (s', a) ->
               0%nat = 0%nat /\
               a = [Close 0%nat; SetTimeout (Number.timeout (backoff random))] /\
               reconnecting s = [] /\
               reconnecting s' = [now s + Number.timeout (backoff random)] /\
               (exists ls, sources s' = mkSource CLOSED [onMessage; onError] :: ls /\
                           ls = skipn 1 (mkSource r0 [onMessage; onError] :: rest)) /\
               (exists r2 rest2,
                   mkSource r0 [onMessage; onError] :: rest
                   = mkSource r2 [onMessage; onError] :: rest2 /\ r2 <> CLOSED) /\
               es s' = es s /\ same_view s s').
    { intros r1 Hx. apply Some_pair_inv in Hx. destruct Hx as [-> ->].
      unfold seqc, upd, act, skip, errorListener, set_readyState, same_view;
        cbn; rewrite ?He, ?Hr, ?Es; cbn.
      repeat split; eauto. }
    destruct r0, fatal; try discriminate; eapply Hgoal; exact H.
  - right. cbn [step] in H. rewrite Es in H. cbn [nth_error] in H.
    destruct (nth_error rest o) as [[r1 l1]|] eqn:En; [|discriminate].
    assert (Hl1 : l1 = []).
    { rewrite Forall_forall in Hrest.
      apply (Hrest (mkSource r1 l1)). eapply nth_error_In; eauto. }
    subst l1.
    destruct r1; try discriminate; apply Some_pair_inv in H; destruct H as [-> ->];
      (split; [discriminate|]); split; reflexivity.
Qed.

Lemma channel_ok_same s s' :
  sources s' = sources s -> es s' = es s -> reconnecting s' = reconnecting s ->
  channel_ok s -> channel_ok s'.
Proof. unfold channel_ok. intros -> -> ->. auto. Qed.

Lemma channel_ok_step P s ev s' a :
  step P s ev = Some (s', a) -> channel_ok s -> channel_ok s'.
Proof.
  intros H Hok.
  destruct ev;
    try (step_inv H; case_handlers;
         (apply (channel_ok_same s);
          [reflexivity | reflexivity | reflexivity | exact Hok])).
  - (* Opened *)
    step_inv H. unfold channel_ok in *. cbn.
    destruct (sources s) as [|[r0 l0] rest]; [contradiction|].
    destruct Hok as (Hl0 & Hrest & Hes).
    destruct o as [|o]; cbn in *.
    + match goal with H : Some _ = Some _ |- _ => injection H as -> -> end.
      repeat split; auto; apply Hes; discriminate.
    + repeat split; auto; try (now apply Hes).
      apply Forall_update; auto.
  - (* Error *)
    destruct (step_Error_reachable _ _ _ _ _ _ _ Hok H)
      as [(_ & _ & _ & _ & (ls & Hs & Hls) & _ & _ & _) | (Ho & _ & ->)].
    + unfold channel_ok in *. rewrite Hs.
      destruct (sources s) as [|src0 rest]; [contradiction|].
      destruct Hok as (_ & Hrest & _). simpl in Hls. subst ls.
      repeat split; auto;
        match goal with Hx : _ <> CLOSED |- _ => now elim Hx end.
    + unfold channel_ok in *. cbn.
      destruct (sources s) as [|[r0 l0] rest]; [contradiction|].
      destruct o as [|o]; [now elim Ho|]. cbn.
      destruct Hok as (Hl0 & Hrest & Hes).
      repeat split; auto; try (now apply Hes).
      apply Forall_update; auto.
  - (* BackoffElapsed *)
    step_inv H. unfold channel_ok in *. cbn.
    destruct (sources s) as [|[r0 l0] rest]; [contradiction|].
    destruct Hok as (Hl0 & Hrest & Hes). cbn in *.
    repeat split; auto;
      try (match goal with
           | Hx : ?r <> CLOSED |- _ =>
               destruct (Hes Hx) as [_ Hr]; rewrite Hr in *;
               destruct k; discriminate
           end).
    apply Forall_app. split; [exact Hrest|]. repeat constructor.
Qed.

Lemma channel_ok_init d t0 : channel_ok (init d t0).
Proof. unfold channel_ok. cbn. repeat split; auto. Qed.

Lemma channel_ok_run P d t0 evs s a :
  run P (init d t0) evs = Some (s, a) -> channel_ok s.
Proof.
  intros H. eapply (run_invariant P channel_ok); eauto using channel_ok_step.
  apply channel_ok_init.
Qed.

(** A message on a source other than the first one runs no listener. *)
Lemma step_Message_reachable P s o payload s' a :
  channel_ok s ->
  step P s (Message o payload) = Some (s', a) ->
  a = [] /\
  ((o = 0%nat /\ s' = fst (messageListener P payload s)) \/
   (o <> 0%nat /\ s' = s)).
Proof.
  unfold channel_ok. intros Hok H. cbn [step] in H.
  destruct (sources s) as [|[r0 l0] rest] eqn:Es; [contradiction|].
  destruct Hok as (Hl0 & Hrest & _). simpl in Hl0. subst l0.
  destruct o as [|o]; cbn [nth_error] in H.
  - destruct r0; try discriminate.
    rewrite dispatch_message in H. cbn [existsb is_onMessage orb] in H.
    apply Some_pair_inv in H. destruct H as [-> ->].
    split; [|left; split; reflexivity].
    rewrite messageListener_eq. destruct (P payload); reflexivity.
  - destruct (nth_error rest o) as [[r1 l1]|] eqn:En; [|discriminate].
    assert (Hl1 : l1 = []).
    { rewrite Forall_forall in Hrest.
      apply (Hrest (mkSource r1 l1)). eapply nth_error_In; eauto. }
    subst l1. destruct r1; try discriminate.
    apply Some_pair_inv in H. destruct H as [-> ->].
    split; [reflexivity|]. right. split; [discriminate | reflexivity].
Qed.

(** ** C3: snapshots reach the view through the first source only *)

Lemma step_NewEventSource P s ev s' a o :
  channel_ok s -> step P s ev = Some (s', a) -> In (NewEventSource o) a ->
  o <> 0%nat /\ exists k, ev = BackoffElapsed k.
Proof.
  intros Hok H Hin.
  destruct ev;
    try (apply step_Error_view in H; destruct H as [_ Ha];
         exfalso; revert Hin; now apply channel_action_not_In);
    step_inv H; case_handlers; simpl in *;
    repeat match goal with
           | H : _ \/ _ |- _ => destruct H
           | H : False |- _ => destruct H
           end; try discriminate.
  match goal with H : NewEventSource _ = NewEventSource _ |- _ => injection H as <- end.
  split; [|eauto].
  unfold channel_ok in Hok. destruct (sources s); [contradiction | discriminate].
Qed.

Lemma run_NewEventSource P evs : forall s s' a o,
  channel_ok s -> run P s evs = Some (s', a) -> In (NewEventSource o) a ->
  o <> 0%nat.
Proof.
  induction evs as [|ev evs IH]; intros s s' a o Hok H Hin.
  - simpl in H. injection H as <- <-. destruct Hin.
  - apply run_cons_inv in H. destruct H as (s1 & a1 & a2 & H1 & H2 & ->).
    apply in_app_or in Hin. destruct Hin as [Hin|Hin].
    + destruct (step_NewEventSource _ _ _ _ _ _ Hok H1 Hin) as [Ho _]. exact Ho.
    + apply (IH s1 s' a2 o); auto. eapply channel_ok_step; eauto.
Qed.

(** C3, as the code has it.  In every state the component reaches, a
    message delivered on the first source, the one created when the
    component mounts, is parsed, and when it parses the displayed state is
    replaced by it and [dirty] and [adding] are cleared.  Every source
    that a reconnection opens is another one, and a message delivered on
    such a source changes nothing: no listener is attached to it. *)
Theorem C3_snapshots_handled_on_first_source_only :
  forall (JSON_parse : string -> option TodoList) d t0 evs s a,
    run JSON_parse (init d t0) evs = Some (s, a) ->
    (forall o, In (NewEventSource o) a -> o <> 0%nat) /\
    (forall o payload s' a',
        step JSON_parse s (Message o payload) = Some (s', a') ->
        (o = 0%nat ->
         forall d', JSON_parse payload = Some d' ->
                    data s' = d' /\ dirty s' = false /\ adding s' = false) /\
        (o <> 0%nat -> s' = s /\ a' = [])).
Proof.
  intros P d t0 evs s a Hrun.
  pose proof (channel_ok_run _ _ _ _ _ _ Hrun) as Hok.
  split.
  - intros o Hin.
    exact (run_NewEventSource P evs _ _ _ o (channel_ok_init d t0) Hrun Hin).
  - intros o payload s' a' Hstep.
    destruct (step_Message_reachable _ _ _ _ _ _ Hok Hstep)
      as [-> [[-> ->]|[Ho ->]]].
    + split; [|intros Hx; now elim Hx].
      intros _ d' Hd'. rewrite messageListener_eq, Hd'. auto.
    + split; [intros Hx; contradiction | auto].
Qed.

(** An edit is submitted, the connection drops and is opened again after
    the backoff; the snapshot that then arrives on the new source leaves
    the view as it was, [dirty] included. *)
Lemma C3_witness :
  let evs := [RowToggle 0 true; Tick 1000; TimerElapsed; Frame; PostOk;
              Error 0 false one_half; Tick 12500; BackoffElapsed 0; Opened 1] in
  let s := state_after parse_example (init (mkList [item_X]) 0) evs in
  parse_example "snapshot" = Some (mkList [item_Y]) /\
  dirty s = true /\ data s = mkList [item_X] /\
  exists s' a',
    step parse_example s (Message 1 "snapshot") = Some (s', a') /\
    s' = s /\ a' = [].
Proof.
  intros evs s.
  assert (Hrun : run parse_example (init (mkList [item_X]) 0) evs
                 = Some (s, [MapSet "X" {| text := Some "milk"; completed := true |};
                             RequestAnimationFrame;
                             Swap [("X", {| text := Some "milk"; completed := true |})];
                             Post [mkBatch "X" (Some "milk") true];
                             SetTimeout 1000;
                             Close 0; SetTimeout 12500; NewEventSource 1]))
    by (vm_compute; reflexivity).
  assert (Hstep : step parse_example s (Message 1 "snapshot")
                  = Some (fst (dispatch [] (on_message parse_example "snapshot") s),
                          snd (dispatch [] (on_message parse_example "snapshot") s)))
    by (vm_compute; reflexivity).
  split; [reflexivity|]. split; [vm_compute; reflexivity|].
  split; [vm_compute; reflexivity|].
  eexists _, _. split; [exact Hstep|].
  refine (proj2 (proj2 (C3_snapshots_handled_on_first_source_only
                          parse_example _ _ _ _ _ Hrun) 1%nat "snapshot" _ _ Hstep) _).
  discriminate.
Defined.

(** ** C4: the reconnection happens once *)

Lemma remove_nth_length {A} (l : list A) : forall k x,
  nth_error l k = Some x -> S (List.length (remove_nth k l)) = List.length l.
Proof.
  induction l as [|y l IH]; intros [|k] x H; simpl in *; try discriminate; auto.
  f_equal. eapply IH; eauto.
Qed.

Lemma pending_same s s' :
  sources s' = sources s -> reconnecting s' = reconnecting s ->
  pending_reconnections s' = pending_reconnections s.
Proof. unfold pending_reconnections. intros -> ->. reflexivity. Qed.

(** Each reconnection uses up one of the reconnections still possible. *)
Lemma step_pending P s ev s' a :
  channel_ok s -> step P s ev = Some (s', a) ->
  (List.length (filter is_NewEventSource a) + pending_reconnections s'
   <= pending_reconnections s)%nat.
Proof.
  intros Hok H.
  destruct ev;
    try (step_inv H; case_handlers;
         (unfold pending_reconnections; simpl; apply Nat.le_refl)).
  - (* Opened *)
    step_inv H. unfold pending_reconnections, channel_ok in *. cbn.
    destruct (sources s) as [|[r0 l0] rest]; [contradiction|].
    destruct o as [|o]; cbn in *.
    + match goal with H : Some _ = Some _ |- _ => injection H as -> -> end. lia.
    + lia.
  - (* Error *)
    destruct (step_Error_reachable _ _ _ _ _ _ _ Hok H)
      as [(_ & -> & Hr & Hr' & (ls & Hs & _) & (r0 & rest & Hs0 & Hopen) & _)
         | (Ho & -> & ->)].
    + unfold pending_reconnections. rewrite Hr, Hr', Hs, Hs0. cbn.
      destruct r0; [lia | lia | now elim Hopen].
    + unfold pending_reconnections. cbn.
      destruct o as [|o]; [now elim Ho|].
      destruct (sources s) as [|[r0 l0] rest]; cbn; lia.
  - (* BackoffElapsed *)
    step_inv H. unfold pending_reconnections. cbn.
    match goal with
    | Hn : nth_error (reconnecting s) _ = Some _ |- _ =>
        apply remove_nth_length in Hn; rewrite <- Hn
    end.
    unfold channel_ok in Hok.
    destruct (sources s) as [|[r0 l0] rest]; [contradiction|]. cbn. lia.
Qed.

Lemma run_pending P evs : forall s s' a,
  channel_ok s -> run P s evs = Some (s', a) ->
  (List.length (filter is_NewEventSource a) + pending_reconnections s'
   <= pending_reconnections s)%nat.
Proof.
  induction evs as [|ev evs IH]; intros s s' a Hok H.
  - simpl in H. injection H as <- <-. simpl. lia.
  - apply run_cons_inv in H. destruct H as (s1 & a1 & a2 & H1 & H2 & ->).
    pose proof (step_pending _ _ _ _ _ Hok H1) as Hp1.
    pose proof (IH _ _ _ (channel_ok_step _ _ _ _ _ H1 Hok) H2) as Hp2.
    rewrite filter_app, length_app. lia.
Qed.

(** C4, as the code has it.  In every run of the component from its
    mounting at most one new subscription is opened.  The listener that
    closes the connection, waits and opens a new one is attached to the
    first source only: an error on any other source, in particular on
    the one a reconnection opened, runs no code at all; nothing is
    closed, no timer is started, no subscription is opened. *)
Theorem C4_reconnection_happens_once_at_most :
  forall (JSON_parse : string -> option TodoList) d t0 evs s a,
    run JSON_parse (init d t0) evs = Some (s, a) ->
    (List.length (filter is_NewEventSource a) <= 1)%nat /\
    (forall o fatal random s' a',
        o <> 0%nat ->
        step JSON_parse s (Error o fatal random) = Some (s', a') ->
        a' = [] /\ reconnecting s' = reconnecting s /\
        List.length (sources s') = List.length (sources s) /\ es s' = es s).
Proof.
  intros P d t0 evs s a Hrun. split.
  - pose proof (run_pending P evs _ _ _ (channel_ok_init d t0) Hrun) as Hp.
    change (pending_reconnections (init d t0)) with 1%nat in Hp. lia.
  - intros o fatal random s' a' Ho Hstep.
    pose proof (channel_ok_run _ _ _ _ _ _ Hrun) as Hok.
    destruct (step_Error_reachable _ _ _ _ _ _ _ Hok Hstep)
      as [(Ho' & _) | (_ & -> & ->)]; [contradiction|].
    repeat split; try reflexivity.
    cbn. apply update_length.
Qed.

(** The connection drops, the backoff passes and a new subscription is
    opened; then the new connection drops as well, and nothing follows. *)
Lemma C4_witness :
  let evs := [Opened 0; Error 0 false one_half; Tick 12500; BackoffElapsed 0;
              Opened 1] in
  let s := state_after parse_example (init (mkList [item_X]) 0) evs in
  exists s' a',
    step parse_example s (Error 1 true one_half) = Some (s', a') /\
    a' = [] /\ reconnecting s' = reconnecting s /\
    List.length (sources s') = List.length (sources s) /\ es s' = es s.
Proof.
  intros evs s.
  assert (Hrun : run parse_example (init (mkList [item_X]) 0) evs
                 = Some (s, [Close 0; SetTimeout 12500; NewEventSource 1]))
    by (vm_compute; reflexivity).
  assert (Hstep : step parse_example s (Error 1 true one_half)
                  = Some (set_readyState 1 CLOSED s, []))
    by (vm_compute; reflexivity).
  eexists _, _. split; [exact Hstep|].
  refine (proj2 (C4_reconnection_happens_once_at_most parse_example _ _ _ _ _ Hrun)
            1%nat true one_half _ _ _ Hstep).
  discriminate.
Defined.

(** ** C7: the backoff, in binary64 arithmetic *)

Lemma iter_pos_nat {A} (f : A -> A) p : forall x,
  iter_pos f p x = Nat.iter (Pos.to_nat p) f x.
Proof.
  induction p as [p IH|p IH|]; intros x; cbn [iter_pos].
  - rewrite !IH. rewrite Pos2Nat.inj_xI.
    replace (S (2 * Pos.to_nat p)) with (Pos.to_nat p + (Pos.to_nat p + 1))%nat by lia.
    rewrite !Nat.iter_add. reflexivity.
  - rewrite !IH. rewrite Pos2Nat.inj_xO.
    replace (2 * Pos.to_nat p)%nat with (Pos.to_nat p + Pos.to_nat p)%nat by lia.
    rewrite Nat.iter_add. reflexivity.
  - reflexivity.
Qed.

Lemma shr_1_m mrs :
  0 <= shr_m mrs -> shr_m (shr_1 mrs) = Z.div2 (shr_m mrs).
Proof.
  destruct mrs as [m r s]. simpl. intros Hm.
  destruct m as [|[p|p|]|p]; try reflexivity; lia.
Qed.

Lemma shr_1_exact m :
  0 <= m -> Z.even m = true ->
  shr_1 (Build_shr_record m false false) = Build_shr_record (Z.div2 m) false false.
Proof.
  intros Hm He. destruct m as [|[p|p|]|p]; try reflexivity; try discriminate; lia.
Qed.

Lemma iter_shr_1_m k : forall mrs,
  0 <= shr_m mrs ->
  shr_m (Nat.iter k shr_1 mrs) = shr_m mrs / 2 ^ Z.of_nat k.
Proof.
  induction k as [|k IH]; intros mrs Hm.
  - simpl. now rewrite Z.div_1_r.
  - rewrite Nat.iter_succ. rewrite shr_1_m.
    + rewrite IH by exact Hm. rewrite Z.div2_div, Nat2Z.inj_succ, Z.pow_succ_r by lia.
      rewrite Z.div_div by lia. f_equal. lia.
    + rewrite IH by exact Hm. apply Z.div_pos; lia.
Qed.

Lemma iter_shr_1_exact k : forall m,
  0 <= m -> m mod 2 ^ Z.of_nat k = 0 ->
  Nat.iter k shr_1 (Build_shr_record m false false)
  = Build_shr_record (m / 2 ^ Z.of_nat k) false false.
Proof.
  induction k as [|k IH]; intros m Hm Hmod.
  - simpl. now rewrite Z.div_1_r.
  - rewrite Nat.iter_succ_r.
    rewrite Nat2Z.inj_succ, Z.pow_succ_r in * by lia.
    assert (Hk : 0 < 2 ^ Z.of_nat k) by (apply Z.pow_pos_nonneg; lia).
    apply Z.mod_divide in Hmod; [|lia]. destruct Hmod as [c Hc].
    assert (Hdiv2 : Z.div2 m = c * 2 ^ Z.of_nat k).
    { rewrite Z.div2_div. subst m.
      replace (c * (2 * 2 ^ Z.of_nat k)) with ((c * 2 ^ Z.of_nat k) * 2) by ring.
      apply Z.div_mul. lia. }
    rewrite shr_1_exact.
    + rewrite IH.
      * f_equal. rewrite Hdiv2, Hc.
        rewrite Z.div_mul by lia.
        replace (c * (2 * 2 ^ Z.of_nat k)) with (c * (2 * 2 ^ Z.of_nat k)) by ring.
        symmetry. apply Z.div_mul. lia.
      * rewrite Z.div2_div. apply Z.div_pos; lia.
      * rewrite Hdiv2. apply Z.mod_mul. lia.
    + exact Hm.
    + subst m. rewrite Z.even_mul, Z.even_mul. simpl. now rewrite orb_true_r.
Qed.

Lemma shr_exact_spec m e n :
  0 <= m ->
  snd (shr (Build_shr_record m false false) e n) = e + Z.max 0 n /\
  shr_m (fst (shr (Build_shr_record m false false) e n)) = m / 2 ^ Z.max 0 n /\
  0 <= shr_m (fst (shr (Build_shr_record m false false) e n)) /\
  (m mod 2 ^ Z.max 0 n = 0 ->
   loc_of_shr_record (fst (shr (Build_shr_record m false false) e n)) = loc_Exact).
Proof.
  intros Hm. destruct n as [|p|p]; cbn [shr fst snd].
  - replace (Z.max 0 0) with 0 by lia. simpl. rewrite Z.div_1_r, Z.add_0_r. auto.
  - replace (Z.max 0 (Zpos p)) with (Zpos p) by lia.
    rewrite iter_pos_nat, iter_shr_1_m by exact Hm.
    rewrite positive_nat_Z. cbn [shr_m].
    repeat split; auto.
    + apply Z.div_pos; [exact Hm | apply Z.pow_pos_nonneg; lia].
    + intros Hmod. rewrite iter_shr_1_exact; [reflexivity | exact Hm |].
      now rewrite positive_nat_Z.
  - replace (Z.max 0 (Zneg p)) with 0 by lia. simpl. rewrite Z.div_1_r, Z.add_0_r. auto.
Qed.

Lemma round_nearest_even_bounds m l :
  m <= round_nearest_even m l <= m + 1 /\
  (l = loc_Exact -> round_nearest_even m l = m).
Proof.
  split; [|intros ->; reflexivity].
  destruct l as [|[]]; simpl; try lia. destruct (Z.even m); lia.
Qed.

Lemma binary_round_aux_spec prec emax sx N E :
  0 <= N ->
  exists m2,
    N / 2 ^ shift1 prec emax N E <= m2 <= N / 2 ^ shift1 prec emax N E + 1 /\
    (N mod 2 ^ shift1 prec emax N E = 0 -> m2 = N / 2 ^ shift1 prec emax N E) /\
    binary_round_aux prec emax sx N E loc_Exact
    = finish prec emax sx (m2 / 2 ^ shift1 prec emax m2 (E + shift1 prec emax N E))
        (E + shift1 prec emax N E + shift1 prec emax m2 (E + shift1 prec emax N E)).
Proof.
  intros HN. unfold binary_round_aux, shr_fexp. cbn [shr_record_of_loc].
  destruct (shr_exact_spec N E (fexp prec emax (Zdigits2 N + E) - E) HN)
    as (He1 & Hm1 & Hpos1 & Hex1).
  fold (shift1 prec emax N E) in He1, Hm1, Hex1.
  destruct (shr (Build_shr_record N false false) E
              (fexp prec emax (Zdigits2 N + E) - E)) as [mrs1 e1].
  cbn [fst snd] in *. subst e1.
  set (m2 := round_nearest_even (shr_m mrs1) (loc_of_shr_record mrs1)).
  destruct (round_nearest_even_bounds (shr_m mrs1) (loc_of_shr_record mrs1))
    as [Hb Hexact]. fold m2 in Hb, Hexact.
  assert (Hm2 : 0 <= m2) by lia.
  destruct (shr_exact_spec m2 (E + shift1 prec emax N E)
              (fexp prec emax (Zdigits2 m2 + (E + shift1 prec emax N E)) - (E + shift1 prec emax N E)) Hm2)
    as (He2 & Hm3 & Hpos3 & _).
  fold (shift1 prec emax m2 (E + shift1 prec emax N E)) in He2, Hm3.
  destruct (shr (Build_shr_record m2 false false) (E + shift1 prec emax N E)
              (fexp prec emax (Zdigits2 m2 + (E + shift1 prec emax N E)) - (E + shift1 prec emax N E)))
    as [mrs2 e2].
  cbn [fst snd] in *. subst e2.
  exists m2. rewrite <- Hm1. split; [exact Hb|]. split.
  - intros Hmod. apply Hexact. now apply Hex1.
  - rewrite Hm3. unfold finish. reflexivity.
Qed.

Lemma digits2_pos_size p : digits2_pos p = Pos.size p.
Proof. induction p as [p IH|p IH|]; simpl; now rewrite ?IH. Qed.

Lemma Zdigits2_bounds N :
  0 < N -> 2 ^ (Zdigits2 N - 1) <= N < 2 ^ Zdigits2 N.
Proof.
  intros HN. destruct N as [|p|p]; try lia. cbn [Zdigits2].
  rewrite digits2_pos_size.
  pose proof (Pos.size_gt p) as Hgt. pose proof (Pos.size_le p) as Hle.
  apply Pos2Z.pos_lt_pos in Hgt. apply Pos2Z.pos_le_pos in Hle.
  rewrite Pos2Z.inj_pow in Hgt, Hle.
  split; [|exact Hgt].
  replace (Zpos (Pos.size p)) with (Z.succ (Zpos (Pos.size p) - 1)) in Hle by lia.
  rewrite Z.pow_succ_r in Hle by lia. lia.
Qed.

Lemma Zdigits2_nonneg N : 0 <= Zdigits2 N.
Proof. destruct N; simpl; lia. Qed.

Lemma Zdigits2_le N k : 0 <= k -> 0 <= N < 2 ^ k -> Zdigits2 N <= k.
Proof.
  intros Hk [H0 Hlt].
  destruct (Z.eq_dec N 0) as [->|Hne]; [simpl; lia|].
  destruct (Zdigits2_bounds N ltac:(lia)) as [Hlo _].
  destruct (Z_le_gt_dec (Zdigits2 N) k) as [|Hgt]; [assumption|].
  exfalso.
  assert (2 ^ k <= 2 ^ (Zdigits2 N - 1)) by (apply Z.pow_le_mono_r; lia).
  lia.
Qed.

Lemma Zdigits2_ge N k : 0 <= k -> 2 ^ k <= N -> k + 1 <= Zdigits2 N.
Proof.
  intros Hk Hle.
  assert (HN : 0 < N) by (pose proof (Z.pow_pos_nonneg 2 k); lia).
  destruct (Zdigits2_bounds N HN) as [_ Hhi].
  destruct (Z_le_gt_dec (k + 1) (Zdigits2 N)) as [|Hgt]; [assumption|].
  exfalso.
  assert (2 ^ Zdigits2 N <= 2 ^ k)
    by (apply Z.pow_le_mono_r; [lia | lia]).
  lia.
Qed.

Lemma div_pow2_le m n : 0 <= m -> 0 <= n -> m / 2 ^ n * 2 ^ n <= m.
Proof.
  intros Hm Hn. pose proof (Z.pow_pos_nonneg 2 n ltac:(lia) Hn).
  rewrite Z.mul_comm. apply Z.mul_div_le. lia.
Qed.

Lemma pow2_split a b : 0 <= a -> 0 <= b -> 2 ^ (a + b) = 2 ^ a * 2 ^ b.
Proof. intros. apply Z.pow_add_r; lia. Qed.

Lemma fexp_le x b : x - 53 <= b -> -1074 <= b -> fexp 53 1024 x <= b.
Proof. unfold fexp, emin. lia. Qed.

Lemma mul_5000_bound (mr : positive) (er : Z) :
  -1074 <= er <= -52 -> Zpos mr < 2 ^ (- er) ->
  SFmul 53 1024 (S754_finite false mr er) (S754_finite false 5497558138880000 (-40))
  = S754_zero false \/
  exists mp ep,
    SFmul 53 1024 (S754_finite false mr er) (S754_finite false 5497558138880000 (-40))
    = S754_finite false mp ep /\
    ep <= -40 /\ Zpos mp <= M5 * 2 ^ (-40 - ep).
Proof.
  intros Her Hr. unfold SFmul. cbn [xorb].
  set (N := Zpos (mr * 5497558138880000)).
  set (E := er + -40).
  assert (HN : N = Zpos mr * M5) by reflexivity.
  assert (HN0 : 0 <= N) by (unfold N; lia).
  destruct (binary_round_aux_spec 53 1024 false N E HN0) as (m2 & Hb & _ & ->).
  set (n0 := shift1 53 1024 N E) in *.
  set (K := - er) in *.
  assert (HK : 52 <= K) by (unfold K; lia).
  assert (HpK : 0 < 2 ^ K) by (apply Z.pow_pos_nonneg; lia).
  assert (HNlt : N < M5 * 2 ^ K) by (rewrite HN; unfold M5; nia).
  assert (Hn0 : 0 <= n0 <= K).
  { unfold n0, shift1. split; [lia|].
    assert (Hd : Zdigits2 N <= 53 + K).
    { apply Zdigits2_le; [lia|]. split; [exact HN0|].
      rewrite pow2_split by lia.
      assert (M5 < 2 ^ 53) by (unfold M5; reflexivity). nia. }
    assert (fexp 53 1024 (Zdigits2 N + E) <= -40)
      by (apply fexp_le; unfold E, K in *; lia).
    unfold E, K in *. lia. }
  assert (Hpn0 : 0 < 2 ^ n0) by (apply Z.pow_pos_nonneg; lia).
  set (T := M5 * 2 ^ (K - n0)).
  assert (HT : M5 * 2 ^ K = T * 2 ^ n0).
  { unfold T. rewrite <- Z.mul_assoc, <- pow2_split by lia. do 2 f_equal. lia. }
  assert (Hm1 : N / 2 ^ n0 < T).
  { apply Z.div_lt_upper_bound; [exact Hpn0|]. rewrite Z.mul_comm, <- HT. exact HNlt. }
  assert (Hm1pos : 0 <= N / 2 ^ n0) by (apply Z.div_pos; lia).
  assert (Hm2 : 0 <= m2 <= T) by lia.
  set (e' := E + n0) in *.
  set (n2 := shift1 53 1024 m2 e') in *.
  assert (Hn2 : 0 <= n2 <= K - n0).
  { unfold n2, shift1. split; [lia|].
    assert (Hd : Zdigits2 m2 <= 53 + (K - n0)).
    { apply Zdigits2_le; [lia|]. split; [lia|].
      rewrite pow2_split by lia.
      assert (M5 < 2 ^ 53) by (unfold M5; reflexivity).
      assert (0 < 2 ^ (K - n0)) by (apply Z.pow_pos_nonneg; lia).
      unfold T in Hm2. nia. }
    assert (fexp 53 1024 (Zdigits2 m2 + e') <= -40)
      by (apply fexp_le; unfold e', E, K in *; lia).
    unfold e', E, K in *. lia. }
  assert (Hpn2 : 0 < 2 ^ n2) by (apply Z.pow_pos_nonneg; lia).
  assert (Hm3 : 0 <= m2 / 2 ^ n2 <= M5 * 2 ^ (-40 - (e' + n2))).
  { split; [apply Z.div_pos; lia|].
    apply Z.div_le_upper_bound; [exact Hpn2|].
    replace (-40 - (e' + n2)) with (K - n0 - n2) by (unfold e', E, K; lia).
    rewrite Z.mul_comm, <- Z.mul_assoc, <- pow2_split by lia.
    replace (K - n0 - n2 + n2) with (K - n0) by lia. apply Hm2. }
  unfold finish.
  destruct (m2 / 2 ^ n2) as [|p|p] eqn:Em3; [now left | | lia].
  right. exists p, (e' + n2).
  assert (He : e' + n2 <= -40) by (unfold e', E, K in *; lia).
  replace (e' + n2 <=? 1024 - 53) with true by (symmetry; apply Z.leb_le; lia).
  repeat split; [exact He | apply Hm3].
Qed.

Lemma iter_xO m d : Zpos (Pos.iter xO m d) = Zpos m * 2 ^ Zpos d.
Proof.
  induction d as [|d IH] using Pos.peano_ind.
  - simpl. lia.
  - rewrite Pos.iter_succ, Pos2Z.inj_succ, Z.pow_succ_r by lia.
    rewrite Pos2Z.inj_xO, IH. ring.
Qed.

Lemma shl_align_spec m e e' :
  snd (shl_align m e e') = Z.min e e' /\
  Zpos (fst (shl_align m e e')) = Zpos m * 2 ^ (e - Z.min e e').
Proof.
  unfold shl_align. destruct (e' - e) as [|d|d] eqn:Ed; cbn [fst snd].
  - replace (Z.min e e') with e by lia. rewrite Z.sub_diag. simpl. lia.
  - replace (Z.min e e') with e by lia. rewrite Z.sub_diag. simpl. lia.
  - replace (Z.min e e') with e' by lia. split; [reflexivity|].
    rewrite iter_xO. do 2 f_equal. lia.
Qed.

Lemma add_10000_bound (mp : positive) (ep : Z) :
  ep <= -40 -> Zpos mp <= M5 * 2 ^ (-40 - ep) ->
  exists m,
    SFadd 53 1024 (S754_finite false 5497558138880000 (-39)) (S754_finite false mp ep)
    = S754_finite false m (-39) /\
    M5 <= Zpos m <= M15.
Proof.
  intros Hep Hmp. unfold SFadd. cbn [cond_Zopp].
  replace (Z.min (-39) ep) with ep by lia.
  destruct (shl_align_spec 5497558138880000 (-39) ep) as [_ Ha].
  destruct (shl_align_spec mp ep ep) as [_ Hb].
  replace (Z.min (-39) ep) with ep in Ha by lia.
  replace (Z.min ep ep) with ep in Hb by lia.
  rewrite Z.sub_diag in Hb. change (2 ^ 0) with 1 in Hb. rewrite Z.mul_1_r in Hb.
  set (n := -39 - ep) in *.
  assert (Hn : 1 <= n) by (unfold n; lia).
  set (a := fst (shl_align 5497558138880000 (-39) ep)) in *.
  set (b := fst (shl_align mp ep ep)) in *.
  change (Zpos a + Zpos b) with (Zpos (a + b)).
  cbn [binary_normalize]. unfold binary_round.
  assert (HpN : 0 < 2 ^ n) by (apply Z.pow_pos_nonneg; lia).
  assert (Hpn1 : 0 < 2 ^ (n - 1)) by (apply Z.pow_pos_nonneg; lia).
  assert (Hsplit : 2 ^ n = 2 * 2 ^ (n - 1)).
  { rewrite <- Z.pow_succ_r by lia. f_equal. lia. }
  replace (-40 - ep) with (n - 1) in Hmp by (unfold n; lia).
  assert (HN : Zpos (a + b) = M5 * 2 ^ n + Zpos mp)
    by (rewrite Pos2Z.inj_add, Ha, Hb; reflexivity).
  assert (Hlo : M5 * 2 ^ n <= Zpos (a + b)) by lia.
  assert (Hhi : Zpos (a + b) <= M15 * 2 ^ n).
  { clear - Hmp Hsplit HN Hpn1. unfold M5, M15 in *.
    generalize dependent (2 ^ (n - 1)). generalize dependent (2 ^ n).
    intros. lia. }
  assert (Hdig : Zpos (digits2_pos (a + b)) = 53 + n).
  { change (Zpos (digits2_pos (a + b))) with (Zdigits2 (Zpos (a + b))).
    assert (H52 : 2 ^ 52 <= M5) by (unfold M5; intros Hx; discriminate).
    assert (H53 : M15 < 2 ^ 53) by (unfold M15; reflexivity).
    assert (Zdigits2 (Zpos (a + b)) <= 53 + n).
    { apply Zdigits2_le; [lia|]. split; [lia|]. rewrite pow2_split by lia. nia. }
    assert (52 + n + 1 <= Zdigits2 (Zpos (a + b))).
    { apply Zdigits2_ge; [lia|]. rewrite pow2_split by lia. nia. }
    lia. }
  rewrite Hdig.
  replace (fexp 53 1024 (53 + n + ep)) with (-39) by (unfold fexp, emin, n; lia).
  destruct (shl_align_spec (a + b) ep (-39)) as [Hs1 Hs2].
  replace (Z.min ep (-39)) with ep in Hs1, Hs2 by lia.
  rewrite Z.sub_diag in Hs2. change (2 ^ 0) with 1 in Hs2. rewrite Z.mul_1_r in Hs2.
  destruct (shl_align (a + b) ep (-39)) as [mz ez]. cbn [fst snd] in Hs1, Hs2.
  subst ez. injection Hs2 as ->.
  destruct (binary_round_aux_spec 53 1024 false (Zpos (a + b)) ep ltac:(lia))
    as (m2 & Hb2 & Hex & ->).
  assert (Hn0 : shift1 53 1024 (Zpos (a + b)) ep = n).
  { unfold shift1. cbn [Zdigits2]. rewrite Hdig. unfold fexp, emin, n. lia. }
  rewrite Hn0 in *.
  assert (Hm1lo : M5 <= Zpos (a + b) / 2 ^ n)
    by (apply Z.div_le_lower_bound; [exact HpN | lia]).
  assert (Hm2 : M5 <= m2 <= M15).
  { split; [lia|].
    destruct (Z.eq_dec (Zpos (a + b)) (M15 * 2 ^ n)) as [Heq|Hne].
    - rewrite Hex; rewrite Heq.
      + rewrite Z.div_mul by lia. lia.
      + apply Z.mod_mul. lia.
    - assert (Zpos (a + b) / 2 ^ n < M15)
        by (apply Z.div_lt_upper_bound; [exact HpN | lia]).
      lia. }
  assert (Hn2 : shift1 53 1024 m2 (ep + n) = 0).
  { unfold shift1.
    assert (Zdigits2 m2 = 53).
    { assert (Zdigits2 m2 <= 53)
        by (apply Zdigits2_le; [lia|]; unfold M5, M15 in *; lia).
      assert (52 + 1 <= Zdigits2 m2)
        by (apply Zdigits2_ge; [lia|]; unfold M5 in *; lia).
      lia. }
    unfold fexp, emin, n. lia. }
  rewrite Hn2. change (2 ^ 0) with 1. rewrite Z.div_1_r, Z.add_0_r.
  replace (ep + n) with (-39) by (unfold n; lia).
  unfold finish.
  assert (Hpos : 0 < m2) by (unfold M5 in Hm2; lia).
  destruct m2 as [|p|p]; [lia | | lia].
  exists p. split; [reflexivity | exact Hm2].
Qed.

Lemma of_Z_0 : Number.of_Z 0 = S754_zero false.
Proof. reflexivity. Qed.

Lemma of_Z_1 : Number.of_Z 1 = S754_finite false 4503599627370496 (-52).
Proof. vm_compute. reflexivity. Qed.

Lemma of_Z_5000 : Number.of_Z 5000 = S754_finite false 5497558138880000 (-40).
Proof. vm_compute. reflexivity. Qed.

Lemma of_Z_10000 : Number.of_Z 10000 = S754_finite false 5497558138880000 (-39).
Proof. vm_compute. reflexivity. Qed.

Lemma of_Z_15000 : Number.of_Z 15000 = S754_finite false 8246337208320000 (-39).
Proof. vm_compute. reflexivity. Qed.

(** Comparisons of two positive finite numbers, in terms of their
    mantissas and exponents. *)
Lemma SFltb_finite_inv m e k ek :
  SFltb (S754_finite false m e) (S754_finite false k ek) = true ->
  e < ek \/ (e = ek /\ Zpos m < Zpos k).
Proof.
  unfold SFltb. cbn [SFcompare].
  destruct (Z.compare_spec e ek) as [He|He|He]; try discriminate.
  - intros H. right. split; [exact He|].
    rewrite Pos.compare_cont_spec in H. unfold Pos.switch_Eq in H.
    destruct (Pos.compare_spec m k) as [|Hlt|]; try discriminate H.
    exact (Pos2Z.pos_lt_pos _ _ Hlt).
  - intros _. now left.
Qed.

Lemma SFleb_same_exponent m k e :
  Zpos m <= Zpos k ->
  SFleb (S754_finite false m e) (S754_finite false k e) = true.
Proof.
  intros Hle. unfold SFleb. cbn [SFcompare]. rewrite Z.compare_refl.
  rewrite Pos.compare_cont_spec. unfold Pos.switch_Eq.
  destruct (Pos.compare_spec m k) as [| |Hgt]; try reflexivity.
  apply Pos2Z.pos_lt_pos in Hgt. lia.
Qed.

(** A draw of [Math.random()] is zero or [m * 2^e] with [m < 2^-e]. *)
Lemma is_random_inv r :
  Number.is_random r = true ->
  r = S754_zero false \/
  exists m e, r = S754_finite false m e /\ -1074 <= e <= -52 /\ Zpos m < 2 ^ (- e).
Proof.
  unfold Number.is_random, Number.leb, Number.ltb.
  rewrite of_Z_0, of_Z_1.
  intros H. repeat (apply andb_prop in H; destruct H as [H ?]).
  destruct r as [[|]|[|]| |[|] m e]; try discriminate; [now left|].
  right. exists m, e. split; [reflexivity|].
  match goal with
  | Hv : valid_binary _ _ _ = true |- _ =>
      cbn [valid_binary] in Hv; unfold bounded, canonical_mantissa in Hv;
      apply andb_prop in Hv; destruct Hv as [Hc _]; apply Z.eqb_eq in Hc
  end.
  unfold fexp, emin, Number.prec, Number.emax in Hc.
  assert (Hd : Zdigits2 (Zpos m) <= 53 /\ -1074 <= e)
    by (cbn [Zdigits2]; clear - Hc; lia).
  destruct Hd as [Hd He].
  destruct (Zdigits2_bounds (Zpos m) (Pos2Z.pos_is_pos m)) as [_ Hm].
  match goal with
  | Hx : SFltb _ _ = true |- _ =>
      destruct (SFltb_finite_inv _ _ _ _ Hx) as [He52|[He52 Hlt]]; clear Hx
  end.
  - split; [clear - He He52; lia|].
    assert (Hpow : 2 ^ Zdigits2 (Zpos m) <= 2 ^ (- e))
      by (apply Z.pow_le_mono_r; clear - Hd He52; lia).
    clear - Hm Hpow. lia.
  - subst e. split; [clear; lia|].
    assert (Hp : 2 ^ (- -52) = Zpos 4503599627370496) by (vm_compute; reflexivity).
    rewrite Hp. exact Hlt.
Qed.

(** Whatever the draw, the backoff is a number with exponent -39 whose
    mantissa lies between those of 10000 and 15000. *)
Lemma backoff_shape r :
  Number.is_random r = true ->
  exists m, backoff r = S754_finite false m (-39) /\ M5 <= Zpos m <= M15.
Proof.
  intros Hr. unfold backoff, Number.add, Number.mul.
  rewrite of_Z_10000, of_Z_5000.
  change Number.prec with 53. change Number.emax with 1024.
  destruct (is_random_inv r Hr) as [->|(m & e & -> & He & Hm)].
  - exists 5497558138880000%positive. split; [reflexivity|].
    unfold M5, M15. lia.
  - destruct (mul_5000_bound m e He Hm) as [->|(mp & ep & -> & Hep & Hmp)].
    + exists 5497558138880000%positive. split; [reflexivity|].
      unfold M5, M15. lia.
    + apply add_10000_bound; assumption.
Qed.

Lemma backoff_bounds r :
  Number.is_random r = true ->
  Number.leb (Number.of_Z 10000) (backoff r) = true /\
  Number.leb (backoff r) (Number.of_Z 15000) = true /\
  10000 <= Number.timeout (backoff r) <= 15000.
Proof.
  intros Hr. destruct (backoff_shape r Hr) as (m & -> & Hlo & Hhi).
  rewrite of_Z_10000, of_Z_15000. unfold Number.leb.
  split; [|split].
  - apply SFleb_same_exponent. exact Hlo.
  - apply SFleb_same_exponent. exact Hhi.
  - unfold Number.timeout, Number.truncate, Number.ToInt32. cbn [cond_Zopp].
    rewrite Z.shiftl_div_pow2 by (clear; lia).
    assert (Hp : 2 ^ (- -39) = 549755813888) by (vm_compute; reflexivity).
    rewrite Hp. unfold M5, M15 in *.
    assert (H1 : 10000 <= Zpos m / 549755813888)
      by (apply Z.div_le_lower_bound; [clear; lia | exact Hlo]).
    assert (H2 : Zpos m / 549755813888 <= 15000)
      by (apply Z.div_le_upper_bound; [clear; lia | exact Hhi]).
    assert (H31 : 2 ^ 31 = 2147483648) by (vm_compute; reflexivity).
    assert (H32 : 2 ^ 32 = 4294967296) by (vm_compute; reflexivity).
    rewrite H31, H32.
    rewrite Z.mod_small by (clear - H1 H2; lia). clear - H1 H2. lia.
Qed.

Lemma SFltb_same_exponent m k e :
  Zpos m < Zpos k ->
  SFltb (S754_finite false m e) (S754_finite false k e) = true.
Proof.
  intros Hlt. unfold SFltb. cbn [SFcompare]. rewrite Z.compare_refl.
  rewrite Pos.compare_cont_spec. unfold Pos.switch_Eq.
  destruct (Pos.compare_spec m k) as [Heq|_|Hgt]; try reflexivity.
  - subst. lia.
  - apply Pos2Z.pos_lt_pos in Hgt. lia.
Qed.

(** An integer of 14 binary digits is a binary64 number with the
    exponent -39. *)
Lemma of_Z_14_digits d :
  2 ^ 13 <= d < 2 ^ 14 ->
  exists p, Number.of_Z d = S754_finite false p (-39) /\ Zpos p = d * 2 ^ 39.
Proof.
  intros Hd.
  assert (H13 : 0 < 2 ^ 13) by (vm_compute; reflexivity).
  destruct d as [|q|q]; try (exfalso; clear - Hd H13; lia).
  unfold Number.of_Z, binary_normalize, binary_round.
  change Number.prec with 53. change Number.emax with 1024.
  assert (Hdig : Zpos (digits2_pos q) = 14).
  { change (Zpos (digits2_pos q)) with (Zdigits2 (Zpos q)).
    pose proof (Zdigits2_le (Zpos q) 14 ltac:(clear; lia) ltac:(clear - Hd; lia)).
    pose proof (Zdigits2_ge (Zpos q) 13 ltac:(clear; lia) (proj1 Hd)). lia. }
  rewrite Hdig. change (fexp 53 1024 (14 + 0)) with (-39).
  destruct (shl_align_spec q 0 (-39)) as [He Hm].
  destruct (shl_align q 0 (-39)) as [mz ez]. cbn [fst snd] in He, Hm.
  change (Z.min 0 (-39)) with (-39) in He, Hm. subst ez.
  change (0 - -39) with 39 in Hm.
  assert (Hlo : 2 ^ 52 <= Zpos mz).
  { rewrite Hm. change 52 with (13 + 39). rewrite pow2_split by (clear; lia).
    apply Z.mul_le_mono_nonneg_r; [apply Z.pow_nonneg; clear; lia|exact (proj1 Hd)]. }
  assert (Hhi : Zpos mz < 2 ^ 53).
  { rewrite Hm. change 53 with (14 + 39). rewrite pow2_split by (clear; lia).
    apply Z.mul_lt_mono_pos_r; [apply Z.pow_pos_nonneg; clear; lia|exact (proj2 Hd)]. }
  assert (Hdig2 : Zdigits2 (Zpos mz) = 53).
  { pose proof (Zdigits2_le (Zpos mz) 53 ltac:(clear; lia) ltac:(clear - Hhi; lia)).
    pose proof (Zdigits2_ge (Zpos mz) 52 ltac:(clear; lia) Hlo). lia. }
  assert (Hs : shift1 53 1024 (Zpos mz) (-39) = 0).
  { unfold shift1. rewrite Hdig2. reflexivity. }
  destruct (binary_round_aux_spec 53 1024 false (Zpos mz) (-39) ltac:(clear; lia))
    as (m2 & _ & Hex & Hround).
  rewrite Hs in Hex, Hround.
  rewrite Z.pow_0_r, Z.div_1_r in Hex.
  specialize (Hex (Z.mod_1_r _)). subst m2.
  change (-39 + 0) with (-39) in Hround. rewrite Hs in Hround.
  rewrite Z.pow_0_r, Z.div_1_r in Hround. change (-39 + 0) with (-39) in Hround.
  rewrite Hround. exists mz. split; [reflexivity|exact Hm].
Qed.

(** The delay handed to [setTimeout] is the backoff without its
    fraction: the whole number of milliseconds [delay] with
    [delay <= backoff < delay + 1]. *)
Lemma backoff_timeout r :
  Number.is_random r = true ->
  Number.timeout (backoff r) = Number.truncate (backoff r) /\
  Number.leb (Number.of_Z (Number.timeout (backoff r))) (backoff r) = true /\
  Number.ltb (backoff r) (Number.of_Z (Number.timeout (backoff r) + 1)) = true.
Proof.
  intros Hr. destruct (backoff_shape r Hr) as (m & Hb & Hlo & Hhi).
  rewrite Hb. unfold Number.timeout, Number.truncate, Number.ToInt32.
  cbn [cond_Zopp]. rewrite Z.shiftl_div_pow2 by (clear; lia).
  change (- -39) with 39.
  assert (Hp39 : 2 ^ 39 = 549755813888) by (vm_compute; reflexivity).
  assert (Hpos : 0 < 2 ^ 39) by (rewrite Hp39; clear; lia).
  assert (Hd : 10000 <= Zpos m / 2 ^ 39 <= 15000).
  { unfold M5, M15 in *. rewrite Hp39. split.
    - apply Z.div_le_lower_bound; [clear; lia|exact Hlo].
    - apply Z.div_le_upper_bound; [clear; lia|exact Hhi]. }
  pose proof (Z.mul_div_le (Zpos m) (2 ^ 39) Hpos) as Hle.
  pose proof (Z.mul_succ_div_gt (Zpos m) (2 ^ 39) Hpos) as Hgt.
  set (d := Zpos m / 2 ^ 39) in *.
  assert (H31 : 2 ^ 31 = 2147483648) by (vm_compute; reflexivity).
  assert (H32 : 2 ^ 32 = 4294967296) by (vm_compute; reflexivity).
  assert (Ht : Z.max 0 ((d + 2 ^ 31) mod 2 ^ 32 - 2 ^ 31) = d).
  { rewrite H31, H32. rewrite Z.mod_small by (clear - Hd; lia). clear - Hd. lia. }
  rewrite Ht. split; [reflexivity|].
  assert (H13 : 2 ^ 13 = 8192) by (vm_compute; reflexivity).
  assert (H14 : 2 ^ 14 = 16384) by (vm_compute; reflexivity).
  destruct (of_Z_14_digits d ltac:(clear - Hd H13 H14; lia)) as (p & -> & Hp).
  destruct (of_Z_14_digits (d + 1) ltac:(clear - Hd H13 H14; lia)) as (p' & -> & Hp').
  unfold Number.leb, Number.ltb. split.
  - apply SFleb_same_exponent. rewrite Hp. clear - Hle. lia.
  - apply SFltb_same_exponent. rewrite Hp'. clear - Hgt.
    unfold Z.succ in Hgt. lia.
Qed.

(** ** C7: the new subscription waits for the backoff *)

Lemma Forall_update_at {A} (Q : A -> Prop) (f : A -> A) l : forall k x,
  nth_error l k = Some x -> Q (f x) -> Forall Q l -> Forall Q (update k f l).
Proof.
  induction l as [|y l IH]; intros [|k] x Hn Hq H; simpl in *;
    try discriminate; inversion H; subst.
  - injection Hn as ->. constructor; auto.
  - constructor; eauto.
Qed.

Lemma Forall_remove_nth {A} (Q : A -> Prop) l : forall k,
  Forall Q l -> Forall Q (remove_nth k l).
Proof.
  induction l as [|y l IH]; intros [|k] H; simpl; auto;
    inversion H; subst; auto.
Qed.

Lemma reconnects_after_same T s s' :
  sources s' = sources s -> reconnecting s' = reconnecting s ->
  reconnects_after T s -> reconnects_after T s'.
Proof. unfold reconnects_after. intros -> ->. auto. Qed.

(** Once every source that carries the ["error"] listener is closed, no
    timer is added, and a subscription is opened only when a pending
    timer is due. *)
Lemma step_reconnects_after P T s ev s' a :
  step P s ev = Some (s', a) -> reconnects_after T s ->
  reconnects_after T s' /\
  (existsb is_NewEventSource a = true -> T <= now s).
Proof.
  intros H Hinv.
  destruct ev;
    try (step_inv H; case_handlers;
         (split; [apply (reconnects_after_same T s); [reflexivity | reflexivity | exact Hinv]
                 | simpl; discriminate])).
  - (* Opened *)
    step_inv H. destruct Hinv as [Ht Hs].
    split; [|simpl; discriminate].
    split; [exact Ht|]. cbn.
    eapply Forall_update_at; eauto. cbn. intros Hin.
    rewrite Forall_forall in Hs.
    match goal with
    | Hn : nth_error (sources s) _ = Some _ |- _ =>
        specialize (Hs _ (nth_error_In _ _ Hn) Hin); discriminate Hs
    end.
  - (* Error *)
    destruct Hinv as [Ht Hs].
    cbn [step] in H.
    destruct (nth_error (sources s) o) as [[r0 ls]|] eqn:En; [|discriminate].
    assert (Hno : r0 <> CLOSED -> ~ In onError ls).
    { intros Hopen Hin. rewrite Forall_forall in Hs.
      apply Hopen. apply (Hs (mkSource r0 ls)); [|exact Hin].
      eapply nth_error_In; eauto. }
    assert (Hgoal : forall r1,
               r0 <> CLOSED ->
               Some ((upd (set_readyState o r1);; dispatch ls (on_error random))%cmd s)
               = Some (s', a) ->
               reconnects_after T s' /\
               (existsb is_NewEventSource a = true -> T <= now s)).
    { intros r1 Hopen Hx. apply Some_pair_inv in Hx. destruct Hx as [-> ->].
      unfold seqc, upd. cbn [fst snd app].
      rewrite dispatch_error_none by auto. cbn [fst snd].
      split; [|simpl; discriminate].
      split; [exact Ht|]. cbn.
      eapply Forall_update_at; eauto. cbn. intros Hin. exfalso. now apply Hno. }
    destruct r0; try discriminate H; eapply Hgoal; try exact H; discriminate.
  - (* BackoffElapsed *)
    destruct Hinv as [Ht Hs].
    cbn [step] in H.
    destruct (nth_error (reconnecting s) k) as [due|] eqn:En; [|discriminate].
    destruct (due <=? now s) eqn:Edue; [|discriminate].
    apply Some_pair_inv in H. destruct H as [-> ->].
    apply Z.leb_le in Edue.
    assert (HT : T <= due).
    { rewrite Forall_forall in Ht. apply Ht. eapply nth_error_In; eauto. }
    split; [|intros _; lia].
    split; cbn.
    + now apply Forall_remove_nth.
    + apply Forall_app. split; [exact Hs|].
      constructor; [|constructor]. cbn. intros [].
Qed.

Lemma run_reconnects_after P T evs : forall s s' a,
  run P s evs = Some (s', a) -> reconnects_after T s ->
  existsb is_NewEventSource a = true -> T <= now s'.
Proof.
  induction evs as [|ev evs IH]; intros s s' a H Hinv Hnew.
  - simpl in H. injection H as <- <-. discriminate.
  - apply run_cons_inv in H. destruct H as (s1 & a1 & a2 & H1 & H2 & ->).
    destruct (step_reconnects_after _ _ _ _ _ _ H1 Hinv) as [Hinv1 Hnow].
    rewrite existsb_app in Hnew. apply orb_prop in Hnew.
    destruct Hnew as [Hnew|Hnew].
    + pose proof (step_now_mono _ _ _ _ _ H1).
      pose proof (run_now_mono _ _ _ _ _ H2).
      specialize (Hnow Hnew). lia.
    + eapply IH; eauto.
Qed.

(** The claim fails in two ways: the delay can be 15000 ms, and the
    subscription can be opened before the backoff has passed.

    With the largest draw below one, [1 - 2^-53], the product
    [random * 5000] rounds to [5000 - 2^-40]; the sum [10000 + (5000 -
    2^-40)] lies half way between two binary64 numbers and rounds to the
    even one, which is 15000: the delay is 15000 ms, not less.  The same
    happens with the draw [1 - 2^-52], the largest one of a generator
    that draws 52 bits.

    With the draw [one_third] the backoff is [6413817828693333 * 2^-39],
    about 11666.67, more than 11666; [setTimeout] takes whole
    milliseconds and the timer is started with 11666.  In the run below
    the new subscription is opened 11666 ms after the error, which is
    less than the backoff. *)
Lemma C7_counterexample :
  (Number.is_random largest_below_one = true /\
   Number.mul largest_below_one (Number.of_Z 5000)
   = S754_finite false 5497558138879999 (-40) /\
   backoff largest_below_one = Number.of_Z 15000 /\
   backoff (S754_finite false 9007199254740990 (-53)) = Number.of_Z 15000 /\
   Number.ltb (backoff largest_below_one) (Number.of_Z 15000) = false /\
   Number.timeout (backoff largest_below_one) = 15000 /\
   option_map snd (step parse_example (init (mkList [item_X]) 0)
                     (Error 0 false largest_below_one))
   = Some [Close 0%nat; SetTimeout 15000]) /\
  (let s1 := state_after parse_example (init (mkList [item_X]) 0) [Opened 0] in
   let evs := [Error 0 false one_third; Tick 11666; BackoffElapsed 0] in
   let s3 := state_after parse_example s1 evs in
   Number.is_random one_third = true /\
   backoff one_third = S754_finite false 6413817828693333 (-39) /\
   Number.ltb (Number.of_Z 11666) (backoff one_third) = true /\
   Number.timeout (backoff one_third) = 11666 /\
   run parse_example s1 evs
   = Some (s3, [Close 0%nat; SetTimeout 11666; NewEventSource 1]) /\
   now s3 - now s1 = 11666 /\
   Number.ltb (Number.of_Z (now s3 - now s1)) (backoff one_third) = true).
Proof.
  split.
  - split; [vm_compute; reflexivity|].
    split; [vm_compute; reflexivity|].
    split; [vm_compute; reflexivity|].
    split; [vm_compute; reflexivity|].
    split; [vm_compute; reflexivity|].
    split; [vm_compute; reflexivity|].
    vm_compute. reflexivity.
  - intros s1 evs s3.
    split; [vm_compute; reflexivity|].
    split; [vm_compute; reflexivity|].
    split; [vm_compute; reflexivity|].
    split; [vm_compute; reflexivity|].
    split; [vm_compute; reflexivity|].
    split; [vm_compute; reflexivity|].
    vm_compute. reflexivity.
Qed.

(** C7, amended.  Take a state the component reaches and an error that
    runs the listener, with any draw [random] of [Math.random()], a
    binary64 number in [0, 1).
    - The backoff of line 32, [10000 + random * 5000] in binary64
      arithmetic, is at least 10000 and at most 15000.
    - The delay of the timer is the backoff cut to whole milliseconds,
      as [setTimeout] does: [delay <= backoff < delay + 1]; it lies
      between 10000 and 15000 as well.
    - The listener closes the source and starts that timer, due
      [delay] ms after the error.
    - In every run that follows, a new subscription is opened only when
      [delay] ms have passed since the error; and it can be opened as
      soon as they have. *)
Theorem C7_backoff_between_10000_and_15000 :
  forall (JSON_parse : string -> option TodoList) d t0 evs1 s1 a1
         o fatal random s2 a2,
    run JSON_parse (init d t0) evs1 = Some (s1, a1) ->
    Number.is_random random = true ->
    step JSON_parse s1 (Error o fatal random) = Some (s2, a2) ->
    a2 <> [] ->
    let delay := Number.timeout (backoff random) in
    Number.leb (Number.of_Z 10000) (backoff random) = true /\
    Number.leb (backoff random) (Number.of_Z 15000) = true /\
    delay = Number.truncate (backoff random) /\
    Number.leb (Number.of_Z delay) (backoff random) = true /\
    Number.ltb (backoff random) (Number.of_Z (delay + 1)) = true /\
    10000 <= delay <= 15000 /\
    a2 = [Close o; SetTimeout delay] /\
    reconnecting s2 = [now s1 + delay] /\
    (forall evs2 s3 a3,
        run JSON_parse s2 evs2 = Some (s3, a3) ->
        existsb is_NewEventSource a3 = true ->
        now s1 + delay <= now s3) /\
    (exists s3,
        run JSON_parse s2 [Tick delay; BackoffElapsed 0]
        = Some (s3, [NewEventSource (List.length (sources s2))]) /\
        now s3 = now s1 + delay).
Proof.
  intros P d t0 evs1 s1 a1 o fatal random s2 a2 Hrun Hr Hstep Hne delay.
  destruct (backoff_bounds random Hr) as (Hlo & Hhi & Hdelay).
  destruct (backoff_timeout random Hr) as (Htr & Hfloor & Hceil).
  fold delay in Hdelay, Htr, Hfloor, Hceil.
  pose proof (channel_ok_run _ _ _ _ _ _ Hrun) as Hok.
  destruct (step_Error_reachable _ _ _ _ _ _ _ Hok Hstep)
    as [(-> & -> & _ & Hr2 & (ls & Hs2 & Hls) & _ & _ & Hview) | (_ & -> & _)];
    [|now elim Hne].
  destruct Hview as (_ & _ & _ & _ & _ & _ & _ & Hnow).
  fold delay in Hr2.
  split; [exact Hlo|]. split; [exact Hhi|]. split; [exact Htr|].
  split; [exact Hfloor|]. split; [exact Hceil|]. split; [exact Hdelay|].
  split; [reflexivity|]. split; [exact Hr2|]. split.
  - intros evs2 s3 a3 Hrun2 Hnew.
    apply (run_reconnects_after P (now s1 + delay) evs2 s2 s3 a3 Hrun2); [|exact Hnew].
    split.
    + rewrite Hr2. constructor; [lia | constructor].
    + rewrite Hs2. constructor; [reflexivity|].
      unfold channel_ok in Hok.
      destruct (sources s1) as [|src0 rest]; [contradiction|].
      destruct Hok as (_ & Hrest & _). simpl in Hls. subst ls.
      eapply Forall_impl; [|exact Hrest].
      intros src Hl. rewrite Hl. intros [].
  - cbn [run step].
    replace (0 <=? delay) with true by (symmetry; apply Z.leb_le; lia).
    cbn [upd fst snd set_now reconnecting now nth_error].
    rewrite Hr2. cbn [nth_error]. rewrite Hnow, Z.leb_refl.
    eexists. split; reflexivity.
Qed.

(** The connection drops with the draw [one_third]: the backoff lies
    between 11666 and 11667, the delay of the timer is 11666 ms, and the
    new subscription of the run below is opened that much later. *)
Lemma C7_witness :
  let s1 := state_after parse_example (init (mkList [item_X]) 0) [Opened 0] in
  let s2 := state_after parse_example s1 [Error 0 false one_third] in
  let s3 := state_after parse_example s2 [Tick 11666; BackoffElapsed 0] in
  Number.timeout (backoff one_third) = 11666 /\
  Number.leb (Number.of_Z 11666) (backoff one_third) = true /\
  Number.ltb (backoff one_third) (Number.of_Z 11667) = true /\
  10000 <= Number.timeout (backoff one_third) <= 15000 /\
  now s1 + Number.timeout (backoff one_third) <= now s3.
Proof.
  intros s1 s2 s3.
  assert (Hrun : run parse_example (init (mkList [item_X]) 0) [Opened 0]
                 = Some (s1, [])) by (vm_compute; reflexivity).
  assert (Hr : Number.is_random one_third = true) by (vm_compute; reflexivity).
  assert (Hstep : step parse_example s1 (Error 0 false one_third)
                  = Some (s2, [Close 0%nat; SetTimeout 11666]))
    by (vm_compute; reflexivity).
  assert (Hrun2 : run parse_example s2 [Tick 11666; BackoffElapsed 0]
                  = Some (s3, [NewEventSource 1]))
    by (vm_compute; reflexivity).
  assert (Hne : [Close 0%nat; SetTimeout 11666] <> []) by discriminate.
  assert (Ht : Number.timeout (backoff one_third) = 11666)
    by (vm_compute; reflexivity).
  destruct (C7_backoff_between_10000_and_15000 parse_example _ _ _ _ _ _ _ _ _ _
              Hrun Hr Hstep Hne)
    as (_ & _ & _ & Hfloor & Hceil & Hd & _ & _ & Hafter & _).
  rewrite Ht in Hfloor, Hceil.
  split; [exact Ht|]. split; [exact Hfloor|]. split; [exact Hceil|].
  split; [exact Hd|].
  exact (Hafter _ _ _ Hrun2 eq_refl).
Defined.

(** * Further properties of the view *)

Lemma channel_actions_filter (f : Action -> bool) a :
  forallb channel_action a = true ->
  (forall x, channel_action x = true -> f x = false) ->
  filter f a = [].
Proof.
  intros Ha Hf. induction a as [|x a IH]; [reflexivity|].
  simpl in *. apply andb_prop in Ha. destruct Ha as [Hx Ha].
  rewrite (Hf _ Hx). auto.
Qed.

(** ** At most one add between two snapshots *)

Lemma step_adds_left P s ev s' a :
  step P s ev = Some (s', a) -> is_Message ev = false ->
  (List.length (filter is_GenerateItemId a) + adds_left s' <= adds_left s)%nat.
Proof.
  intros H Hev. unfold adds_left.
  destruct ev; try discriminate Hev;
    try (apply step_Error_view in H;
         destruct H as [(_ & _ & _ & _ & Hadd & _) Ha];
         rewrite Hadd, (channel_actions_filter is_GenerateItemId a Ha)
           by (now intros []);
         simpl; lia);
    step_inv H; case_handlers; simpl in *;
    repeat match goal with
           | H : adding _ = _ |- _ => rewrite H
           end; simpl; try lia; destruct (adding s); simpl; lia.
Qed.

Lemma run_adds_left P evs : forall s s' a,
  run P s evs = Some (s', a) ->
  forallb (fun ev => negb (is_Message ev)) evs = true ->
  (List.length (filter is_GenerateItemId a) + adds_left s' <= adds_left s)%nat.
Proof.
  induction evs as [|ev evs IH]; intros s s' a H Hevs.
  - injection H as <- <-. simpl. lia.
  - apply run_cons_inv in H. destruct H as (s1 & a1 & a2 & H1 & H2 & ->).
    simpl in Hevs. apply andb_prop in Hevs. destruct Hevs as [Hev Hevs].
    apply negb_true_iff in Hev.
    pose proof (step_adds_left _ _ _ _ _ H1 Hev).
    pose proof (IH _ _ _ H2 Hevs).
    rewrite filter_app, length_app. lia.
Qed.

(** X1.  In a run in which no message arrives, [generateItemId] is
    called at most once, and not at all when an add already awaits its
    snapshot ([adding] is set); a call leaves [adding] set, and with it
    the button "+" disabled, at the end of the run. *)
Theorem add_once_between_snapshots :
  forall (JSON_parse : string -> option TodoList) s evs s' a,
    run JSON_parse s evs = Some (s', a) ->
    forallb (fun ev => negb (is_Message ev)) evs = true ->
    (List.length (filter is_GenerateItemId a) <= 1)%nat /\
    (adding s = true -> filter is_GenerateItemId a = []) /\
    (filter is_GenerateItemId a <> [] ->
     adding s' = true /\ forall uuid, step JSON_parse s' (ClickAdd uuid) = None).
Proof.
  intros P s evs s' a H Hevs.
  pose proof (run_adds_left _ _ _ _ _ H Hevs) as Hle. unfold adds_left in Hle.
  split; [destruct (adding s), (adding s'); lia|]. split.
  - intros Hs. rewrite Hs in Hle.
    destruct (filter is_GenerateItemId a); [reflexivity|simpl in Hle; lia].
  - intros Hne.
    assert (Hs' : adding s' = true).
    { destruct (filter is_GenerateItemId a); [congruence|].
      destruct (adding s), (adding s'); simpl in Hle; try lia; reflexivity. }
    split; [exact Hs'|]. intros uuid. cbn [step]. now rewrite Hs'.
Qed.

Lemma add_once_between_snapshots_witness :
  let s := init (mkList []) 0 in
  let evs := [Type_ "milk"; ClickAdd "u"; Type_ "eggs"; Tick 1000; TimerElapsed; Frame] in
  let s' := state_after parse_example s evs in
  filter is_GenerateItemId (trace_of parse_example s evs) = [GenerateItemId "0-u"] /\
  adding s' = true /\ step parse_example s' (ClickAdd "v") = None.
Proof.
  intros s evs s'.
  assert (Hrun : run parse_example s evs = Some (s', trace_of parse_example s evs))
    by (vm_compute; reflexivity).
  assert (Hevs : forallb (fun ev => negb (is_Message ev)) evs = true)
    by (vm_compute; reflexivity).
  assert (Hg : filter is_GenerateItemId (trace_of parse_example s evs)
               = [GenerateItemId "0-u"])
    by (vm_compute; reflexivity).
  destruct (add_once_between_snapshots parse_example s evs s' _ Hrun Hevs)
    as (_ & _ & H3).
  destruct (H3 ltac:(rewrite Hg; discriminate)) as [H4 H5].
  split; [exact Hg|]. split; [exact H4|exact (H5 "v")].
Defined.

(** ** A row that recorded an edit is locked until the next snapshot *)

Lemma dispatch_error_busy_rows random ls : forall s,
  busy_rows (fst (dispatch ls (on_error random) s)) = busy_rows s.
Proof.
  induction ls as [|l ls IH]; intros s; [reflexivity|].
  cbn [dispatch]. unfold seqc. cbn [fst]. rewrite IH.
  destruct l; reflexivity.
Qed.

Lemma step_keeps_rows P s ev s' a :
  step P s ev = Some (s', a) -> is_Message ev = false ->
  data s' = data s /\ incl (busy_rows s) (busy_rows s').
Proof.
  intros H Hev.
  destruct ev; try discriminate Hev;
    try (pose proof H as Hv; apply step_Error_view in Hv;
         destruct Hv as [(Hd & _) _]; split; [exact Hd|];
         cbn [step] in H;
         destruct (nth_error (sources s) o) as [[[] ls]|]; try discriminate H;
         injection H as <- _; unfold seqc; cbn [fst];
         rewrite dispatch_error_busy_rows; apply incl_refl);
    step_inv H; case_handlers; simpl in *;
    (split; [reflexivity|]);
    try apply incl_refl; try apply incl_tl, incl_refl.
Qed.

Lemma run_keeps_rows P evs : forall s s' a,
  run P s evs = Some (s', a) ->
  forallb (fun ev => negb (is_Message ev)) evs = true ->
  data s' = data s /\ incl (busy_rows s) (busy_rows s').
Proof.
  induction evs as [|ev evs IH]; intros s s' a H Hevs.
  - injection H as <- <-. split; [reflexivity|apply incl_refl].
  - apply run_cons_inv in H. destruct H as (s1 & a1 & a2 & H1 & H2 & ->).
    simpl in Hevs. apply andb_prop in Hevs. destruct Hevs as [Hev Hevs].
    apply negb_true_iff in Hev.
    destruct (step_keeps_rows _ _ _ _ _ H1 Hev) as [Hd1 Hi1].
    destruct (IH _ _ _ H2 Hevs) as [Hd2 Hi2].
    split; [congruence|]. eapply incl_tran; eassumption.
Qed.

Lemma step_row_locks P s row ev s' a :
  is_row_event row ev = true ->
  step P s ev = Some (s', a) -> a <> [] ->
  exists item,
    nth_error (items (data s)) row = Some item /\
    data s' = data s /\ In (row_key item) (busy_rows s').
Proof.
  intros Hev H Ha.
  destruct ev; try discriminate Hev; simpl in Hev;
    apply Nat.eqb_eq in Hev; subst;
    step_inv H; case_handlers; simpl in *; try congruence;
    eexists; (split; [reflexivity|]); split; auto.
Qed.

Lemma disabled_In s item :
  In (row_key item) (busy_rows s) -> disabled s item = true.
Proof.
  intros Hin. unfold disabled. apply existsb_exists.
  exists (row_key item). split; [exact Hin|apply String.eqb_refl].
Qed.

Lemma step_row_disabled P s row ev item :
  is_row_event row ev = true ->
  nth_error (items (data s)) row = Some item ->
  disabled s item = true ->
  step P s ev = None.
Proof.
  intros Hev Hn Hd.
  destruct ev; try discriminate Hev; simpl in Hev;
    apply Nat.eqb_eq in Hev; subst; cbn [step]; now rewrite Hn, Hd.
Qed.

(** X2.  When a control of a row has recorded an edit, no control of
    that row can be used again before a message arrives: in every run
    without a message that follows, [doSave], [doDelete] and
    [doSaveCompleted] of that row stay disabled. *)
Theorem row_locked_until_snapshot :
  forall (JSON_parse : string -> option TodoList) s row ev s1 a1 evs s2 a2 ev',
    is_row_event row ev = true ->
    step JSON_parse s ev = Some (s1, a1) -> a1 <> [] ->
    run JSON_parse s1 evs = Some (s2, a2) ->
    forallb (fun ev => negb (is_Message ev)) evs = true ->
    is_row_event row ev' = true ->
    step JSON_parse s2 ev' = None.
Proof.
  intros P s row ev s1 a1 evs s2 a2 ev' Hev H1 Ha1 H2 Hevs Hev'.
  destruct (step_row_locks _ _ _ _ _ _ Hev H1 Ha1) as (item & Hn & Hd1 & Hin).
  destruct (run_keeps_rows _ _ _ _ _ H2 Hevs) as [Hd2 Hincl].
  apply (step_row_disabled P s2 row ev' item Hev').
  - now rewrite Hd2, Hd1.
  - apply disabled_In, Hincl, Hin.
Qed.

Lemma row_locked_until_snapshot_witness :
  let s := init (mkList [item_X; item_Y]) 0 in
  let s1 := state_after parse_example s [RowToggle 0 true] in
  let evs := [Tick 1000; TimerElapsed; Frame; PostOk; RowDelete 1 true] in
  let s2 := state_after parse_example s1 evs in
  step parse_example s2 (RowSave 0 (Some "oat milk")) = None.
Proof.
  intros s s1 evs s2.
  assert (H1 : step parse_example s (RowToggle 0 true)
               = Some (s1, [MapSet "X" {| text := Some "milk"; completed := true |}]))
    by (vm_compute; reflexivity).
  assert (H2 : run parse_example s1 evs = Some (s2, trace_of parse_example s1 evs))
    by (vm_compute; reflexivity).
  apply (row_locked_until_snapshot parse_example s 0%nat (RowToggle 0 true) s1 _
           evs s2 _ (RowSave 0 (Some "oat milk")) eq_refl H1
           ltac:(discriminate) H2); vm_compute; reflexivity.
Defined.

(** ** Drains are at least one second apart *)

Lemma channel_actions_no_Swap a :
  forallb channel_action a = true -> existsb is_Swap a = false.
Proof.
  intros Ha. induction a as [|x a IH]; [reflexivity|].
  simpl in *. apply andb_prop in Ha. destruct Ha as [Hx Ha].
  rewrite (IH Ha). now destruct x.
Qed.

Lemma step_next_drain P T s ev s' a :
  step P s ev = Some (s', a) -> next_drain_after T s ->
  next_drain_after T s' /\ (existsb is_Swap a = true -> T <= now s).
Proof.
  intros H Hinv. pose proof (step_now_mono _ _ _ _ _ H) as Hmono.
  unfold next_drain_after in *.
  destruct ev;
    try (apply step_Error_view in H;
         destruct H as [(_ & _ & _ & _ & _ & _ & Hl & Hn) Ha];
         rewrite Hl, Hn, (channel_actions_no_Swap a Ha);
         split; [exact Hinv|discriminate]);
    step_inv H; case_handlers; simpl in *;
    repeat match goal with
           | H : loop _ = _ |- _ => rewrite H in *
           | H : (_ <=? _) = true |- _ => apply Z.leb_le in H
           | H : PauseWait _ = PauseWait _ |- _ => injection H as <-
           | H : RetryWait _ _ _ = RetryWait _ _ _ |- _ => injection H as <- <- <-
           | H : Posting _ _ = Posting _ _ |- _ => injection H as <- <-
           end;
    split; try discriminate; try lia; auto.
Qed.

Lemma run_next_drain P T evs : forall s s' a,
  run P s evs = Some (s', a) -> next_drain_after T s ->
  existsb is_Swap a = true -> T <= now s'.
Proof.
  induction evs as [|ev evs IH]; intros s s' a H Hinv Hsw.
  - injection H as <- <-. discriminate Hsw.
  - apply run_cons_inv in H. destruct H as (s1 & a1 & a2 & H1 & H2 & ->).
    destruct (step_next_drain _ T _ _ _ _ H1 Hinv) as [Hinv1 Hs1].
    rewrite existsb_app in Hsw. apply orb_true_iff in Hsw.
    destruct Hsw as [Hsw|Hsw].
    + pose proof (step_now_mono _ _ _ _ _ H1).
      pose proof (run_now_mono _ _ _ _ _ H2).
      specialize (Hs1 Hsw). lia.
    + exact (IH _ _ _ H2 Hinv1 Hsw).
Qed.

(** X3.  After a drain the sync loop does not drain again before 1000 ms
    have passed: when the animation frame callback has run the head of
    the loop at time [now s], every run that follows and contains a
    further swap ends at [now s + 1000] or later. *)
Theorem drains_one_second_apart :
  forall (JSON_parse : string -> option TodoList) s s1 a1 evs s2 a2,
    step JSON_parse s Frame = Some (s1, a1) ->
    run JSON_parse s1 evs = Some (s2, a2) ->
    existsb is_Swap a2 = true ->
    now s + 1000 <= now s2.
Proof.
  intros P s s1 a1 evs s2 a2 H1 H2 Hsw.
  apply (run_next_drain P (now s + 1000) evs s1 s2 a2 H2); [|exact Hsw].
  unfold next_drain_after.
  step_inv H1. rewrite sync_eq. destruct (localMutations s); cbn; lia.
Qed.

Lemma drains_one_second_apart_witness :
  let s := state_after parse_example (init (mkList [item_X]) 0)
             [RowToggle 0 true; Tick 1000; TimerElapsed] in
  let evs := [PostOk; Tick 400; Tick 700; TimerElapsed; Frame] in
  existsb is_Swap (trace_of parse_example (fst (sync s)) evs) = true /\
  now s + 1000 <= now (state_after parse_example (fst (sync s)) evs).
Proof.
  intros s evs.
  assert (H1 : step parse_example s Frame = Some (fst (sync s), snd (sync s)))
    by (vm_compute; reflexivity).
  assert (H2 : run parse_example (fst (sync s)) evs
               = Some (state_after parse_example (fst (sync s)) evs,
                       trace_of parse_example (fst (sync s)) evs))
    by (vm_compute; reflexivity).
  assert (H3 : existsb is_Swap (trace_of parse_example (fst (sync s)) evs) = true)
    by (vm_compute; reflexivity).
  split; [exact H3|].
  exact (drains_one_second_apart parse_example s _ _ evs _ _ H1 H2 H3).
Defined.

(** ** No request is empty, none carries more than ten records *)

Lemma step_chunk_in_range P s ev s' a :
  step P s ev = Some (s', a) -> chunk_in_range s ->
  chunk_in_range s' /\
  forall c, In (Post c) a -> (1 <= List.length c <= chunkSize)%nat.
Proof.
  intros H Hinv. unfold chunk_in_range in *.
  destruct ev;
    try (apply step_Error_view in H;
         destruct H as [(_ & _ & _ & _ & _ & _ & Hl & _) Ha];
         rewrite Hl; split; [exact Hinv|];
         intros c Hin; exfalso; revert Hin;
         now apply channel_action_not_In);
    step_inv H; simpl in Hinv; case_handlers; simpl in *;
    try congruence;
    repeat match goal with
           | H : loop _ = _ |- _ => rewrite H in *
           | H : Nat.ltb _ _ = true |- _ => apply Nat.ltb_lt in H
           | H : PauseWait _ = PauseWait _ |- _ => injection H as <-
           | H : RetryWait _ _ _ = RetryWait _ _ _ |- _ => injection H as <- <- <-
           | H : Posting _ _ = Posting _ _ |- _ => injection H as <- <-
           end;
    (split; [solve [simpl; auto; try lia]|]);
    intros c Hin;
    repeat match goal with
           | H : _ \/ _ |- _ => destruct H
           | H : False |- _ => destruct H
           end; try discriminate;
    match goal with H : Post _ = Post _ |- _ => injection H as <- end;
    rewrite chunk_at_length; unfold chunkSize in *; simpl List.length; lia.
Qed.

Lemma run_chunk_in_range P evs : forall s s' a,
  run P s evs = Some (s', a) -> chunk_in_range s ->
  chunk_in_range s' /\
  forall c, In (Post c) a -> (1 <= List.length c <= chunkSize)%nat.
Proof.
  induction evs as [|ev evs IH]; intros s s' a H Hinv.
  - injection H as <- <-. split; [exact Hinv|]. intros c [].
  - apply run_cons_inv in H. destruct H as (s1 & a1 & a2 & H1 & H2 & ->).
    destruct (step_chunk_in_range _ _ _ _ _ H1 Hinv) as [Hinv1 Hp1].
    destruct (IH _ _ _ H2 Hinv1) as [Hinv2 Hp2].
    split; [exact Hinv2|]. intros c Hin. apply in_app_or in Hin.
    destruct Hin; auto.
Qed.

(** X4.  Every request the view ever sends carries at least one record
    and at most ten: the loop sends nothing for an empty drain, and never
    asks for a chunk that starts at or after the end of the batch. *)
Theorem requests_carry_one_to_ten_records :
  forall (JSON_parse : string -> option TodoList) d t0 evs s a c,
    run JSON_parse (init d t0) evs = Some (s, a) ->
    In (Post c) a ->
    (1 <= List.length c <= 10)%nat.
Proof.
  intros P d t0 evs s a c H Hin.
  assert (Hinit : chunk_in_range (init d t0)) by exact I.
  destruct (run_chunk_in_range _ _ _ _ _ H Hinit) as [_ Hp].
  exact (Hp c Hin).
Qed.

Lemma requests_carry_one_to_ten_records_witness :
  let s0 := init (mkList [item_X; item_Y]) 0 in
  let evs := [RowToggle 0 true; RowDelete 1 true; Tick 1000; TimerElapsed; Frame] in
  let c := [mkBatch "X" (Some "milk") true; mkBatch "Y" None true] in
  In (Post c) (trace_of parse_example s0 evs) /\
  (1 <= List.length c <= 10)%nat.
Proof.
  intros s0 evs c.
  assert (H : run parse_example s0 evs
              = Some (state_after parse_example s0 evs, trace_of parse_example s0 evs))
    by (vm_compute; reflexivity).
  assert (Hin : In (Post c) (trace_of parse_example s0 evs)).
  { vm_compute. do 4 right. left. reflexivity. }
  split; [exact Hin|].
  exact (requests_carry_one_to_ten_records parse_example _ _ evs _ _ c H Hin).
Defined.

(** ** Snapshots and the buffer *)

(** X5.  A snapshot handled by the view replaces the list and touches
    neither the buffer nor the sync loop: edits not yet drained stay in
    the buffer, a chunk still unsent stays with the loop.  After it the
    indicator is on exactly when the buffer holds an edit; with an empty
    buffer it goes off even while a request of the loop is pending or
    waits for its retry. *)
Theorem snapshot_keeps_buffer_and_loop :
  forall (JSON_parse : string -> option TodoList) d t0 evs s a payload d' s' a',
    run JSON_parse (init d t0) evs = Some (s, a) ->
    step JSON_parse s (Message 0 payload) = Some (s', a') ->
    JSON_parse payload = Some d' ->
    data s' = d' /\
    localMutations s' = localMutations s /\
    loop s' = loop s /\
    (busy s' = true <-> localMutations s <> []) /\
    (localMutations s = [] -> busy s' = false /\ loop_chunk s' = loop_chunk s).
Proof.
  intros P d t0 evs s a payload d' s' a' Hrun Hstep Hparse.
  pose proof (channel_ok_run _ _ _ _ _ _ Hrun) as Hch.
  destruct (buffer_ok_run _ _ _ _ _ _ Hrun) as [_ Hflag].
  destruct (step_Message_reachable _ _ _ _ _ _ Hch Hstep) as [_ [[_ ->]|[Ho _]]];
    [|now elim Ho].
  rewrite messageListener_eq, Hparse. unfold busy, loop_chunk. cbn.
  rewrite orb_false_r.
  split; [reflexivity|]. split; [reflexivity|]. split; [reflexivity|].
  split; [exact Hflag|].
  intros Hm. split; [|reflexivity].
  destruct (hasLocalMutations s); [|reflexivity].
  now elim (proj1 Hflag eq_refl).
Qed.

Lemma snapshot_keeps_buffer_and_loop_witness :
  let s := state_after parse_example (init (mkList [item_X]) 0)
             [Opened 0; RowToggle 0 true; Tick 1000; TimerElapsed; Frame; PostFail] in
  let s' := state_after parse_example s [Message 0 "snapshot"] in
  loop_chunk s = Some ([("X", {| text := Some "milk"; completed := true |})], 0%nat) /\
  busy s = true /\
  busy s' = false /\ loop_chunk s' = loop_chunk s.
Proof.
  intros s s'.
  assert (H0 : run parse_example (init (mkList [item_X]) 0)
                 [Opened 0; RowToggle 0 true; Tick 1000; TimerElapsed; Frame; PostFail]
               = Some (s, trace_of parse_example (init (mkList [item_X]) 0)
                            [Opened 0; RowToggle 0 true; Tick 1000; TimerElapsed;
                             Frame; PostFail]))
    by (vm_compute; reflexivity).
  assert (H1 : step parse_example s (Message 0 "snapshot") = Some (s', []))
    by (vm_compute; reflexivity).
  assert (H2 : parse_example "snapshot" = Some (mkList [item_Y]))
    by (vm_compute; reflexivity).
  assert (H3 : localMutations s = []) by (vm_compute; reflexivity).
  destruct (snapshot_keeps_buffer_and_loop parse_example _ _ _ _ _ _ _ _ _ H0 H1 H2)
    as (_ & _ & _ & _ & H).
  split; [vm_compute; reflexivity|]. split; [vm_compute; reflexivity|].
  exact (H H3).
Defined.

(** X6.  A message whose payload [JSON.parse] rejects changes nothing:
    whatever the source it arrives on, the state stays as it is, [dirty]
    and [adding] included, and nothing is done. *)
Theorem unparsable_message_changes_nothing :
  forall (JSON_parse : string -> option TodoList) s o payload s' a,
    step JSON_parse s (Message o payload) = Some (s', a) ->
    JSON_parse payload = None ->
    s' = s /\ a = [].
Proof.
  intros P s o payload s' a H Hparse.
  step_inv H. rewrite dispatch_message, messageListener_eq, Hparse.
  match goal with
  | |- context [existsb is_onMessage ?ls] => destruct (existsb is_onMessage ls)
  end; split; reflexivity.
Qed.

Lemma unparsable_message_changes_nothing_witness :
  let s := state_after parse_example (init (mkList [item_X]) 0)
             [Opened 0; RowToggle 0 true; Tick 1000; TimerElapsed; Frame] in
  dirty s = true /\
  state_after parse_example s [Message 0 "{"] = s.
Proof.
  intros s.
  assert (H1 : step parse_example s (Message 0 "{")
               = Some (state_after parse_example s [Message 0 "{"], []))
    by (vm_compute; reflexivity).
  assert (H2 : parse_example "{" = None) by (vm_compute; reflexivity).
  split; [vm_compute; reflexivity|].
  exact (proj1 (unparsable_message_changes_nothing parse_example _ _ _ _ _ H1 H2)).
Defined.

(** ** After the first channel error *)

Lemma first_source_closed_inv s :
  first_source_closed s = true ->
  exists ls rest, sources s = mkSource CLOSED ls :: rest.
Proof.
  unfold first_source_closed.
  destruct (sources s) as [|[[] ls] rest]; try discriminate. eauto.
Qed.

Lemma step_first_source_closed P s ev s' a :
  channel_ok s -> first_source_closed s = true ->
  step P s ev = Some (s', a) ->
  first_source_closed s' = true.
Proof.
  intros Hch Hc H.
  destruct (first_source_closed_inv _ Hc) as (ls0 & rest0 & Hs). clear Hc.
  assert (exists rest', sources s' = mkSource CLOSED ls0 :: rest') as (rest' & Hs');
    [|unfold first_source_closed; now rewrite Hs'].
  destruct ev;
    try (destruct (step_Message_reachable _ _ _ _ _ _ Hch H) as [_ [[_ ->]|[_ ->]]];
         rewrite ?messageListener_eq; [destruct (P payload)|]; simpl; eauto);
    try (destruct (step_Error_reachable _ _ _ _ _ _ _ Hch H)
           as [(_ & _ & _ & _ & _ & (r0 & rest & Hs0 & Hr0) & _)|(Ho & _ & ->)];
         [rewrite Hs0 in Hs; injection Hs as -> _ _; now elim Hr0
         |destruct o as [|o]; [now elim Ho|];
          unfold set_readyState; cbn; rewrite Hs; cbn; eauto]);
    step_inv H; case_handlers; simpl in *; eauto;
    try (rewrite Hs in *; destruct o; simpl in *; [congruence|eauto]).
  rewrite Hs. simpl. eauto.
Qed.

Lemma step_after_close P s ev s' a :
  channel_ok s -> first_source_closed s = true ->
  step P s ev = Some (s', a) ->
  data s' = data s /\
  (dirty s = true -> dirty s' = true) /\
  (adding s = true -> adding s' = true) /\
  incl (busy_rows s) (busy_rows s').
Proof.
  intros Hch Hc H.
  destruct (is_Message ev) eqn:Hev.
  - destruct ev; try discriminate Hev.
    destruct (step_Message_reachable _ _ _ _ _ _ Hch H) as [_ [[-> _]|[_ ->]]].
    + exfalso. destruct (first_source_closed_inv _ Hc) as (ls0 & rest0 & Hs).
      cbn [step] in H. rewrite Hs in H. discriminate H.
    + repeat split; auto. apply incl_refl.
  - destruct (step_keeps_rows _ _ _ _ _ H Hev) as [Hd Hincl].
    pose proof (step_adds_left _ _ _ _ _ H Hev) as Hadd.
    split; [exact Hd|split; [|split; [|exact Hincl]]].
    + intros Hdy. destruct (dirty s') eqn:Hd'; [reflexivity|].
      destruct (step_clears_dirty _ _ _ _ _ H Hdy Hd') as (o & p & d' & -> & _).
      discriminate Hev.
    + intros Ha. unfold adds_left in Hadd. rewrite Ha in Hadd.
      destruct (adding s'); [reflexivity|simpl in Hadd; lia].
Qed.

Lemma run_after_close P evs : forall s s' a,
  channel_ok s -> first_source_closed s = true ->
  run P s evs = Some (s', a) ->
  data s' = data s /\
  (dirty s = true -> dirty s' = true) /\
  (adding s = true -> adding s' = true) /\
  incl (busy_rows s) (busy_rows s').
Proof.
  induction evs as [|ev evs IH]; intros s s' a Hch Hc H.
  - injection H as <- <-. repeat split; auto. apply incl_refl.
  - apply run_cons_inv in H. destruct H as (s1 & a1 & a2 & H1 & H2 & ->).
    destruct (step_after_close _ _ _ _ _ Hch Hc H1) as (Hd1 & Hy1 & Ha1 & Hi1).
    pose proof (step_first_source_closed _ _ _ _ _ Hch Hc H1) as Hc1.
    pose proof (channel_ok_step _ _ _ _ _ H1 Hch) as Hch1.
    destruct (IH _ _ _ Hch1 Hc1 H2) as (Hd2 & Hy2 & Ha2 & Hi2).
    repeat split; auto; [congruence|eapply incl_tran; eassumption].
Qed.

(** X7.  An error on the first [EventSource] closes it, and from then
    on the view is cut off from the server for good: in every run that
    follows, whatever arrives on the subscription opened later, the
    displayed list stays the one shown at the error, and a [dirty] flag,
    an [adding] flag or a row lock that is set is never cleared again. *)
Theorem view_frozen_after_first_error :
  forall (JSON_parse : string -> option TodoList) d t0 evs s a
         fatal random s1 a1 evs' s' a',
    run JSON_parse (init d t0) evs = Some (s, a) ->
    step JSON_parse s (Error 0 fatal random) = Some (s1, a1) ->
    run JSON_parse s1 evs' = Some (s', a') ->
    first_source_closed s1 = true /\
    data s' = data s /\
    (dirty s1 = true -> dirty s' = true) /\
    (adding s1 = true -> adding s' = true) /\
    (forall item, disabled s1 item = true -> disabled s' item = true).
Proof.
  intros P d t0 evs s a fatal random s1 a1 evs' s' a' Hrun Hstep Hrun'.
  pose proof (channel_ok_run _ _ _ _ _ _ Hrun) as Hch.
  pose proof (channel_ok_step _ _ _ _ _ Hstep Hch) as Hch1.
  assert (Hc1 : first_source_closed s1 = true).
  { destruct (step_Error_reachable _ _ _ _ _ _ _ Hch Hstep)
      as [(_ & _ & _ & _ & (ls & Hs & _) & _)|(Ho & _)]; [|now elim Ho].
    unfold first_source_closed. now rewrite Hs. }
  destruct (step_Error_view _ _ _ _ _ _ _ Hstep) as [(Hd & _) _].
  destruct (run_after_close _ _ _ _ _ Hch1 Hc1 Hrun') as (Hd' & Hy & Ha & Hi).
  split; [exact Hc1|]. split; [congruence|]. split; [exact Hy|].
  split; [exact Ha|].
  intros item Hdis. unfold disabled in *.
  apply existsb_exists in Hdis. destruct Hdis as (k & Hk & Heq).
  apply existsb_exists. exists k. split; [apply Hi, Hk|exact Heq].
Qed.

Lemma view_frozen_after_first_error_witness :
  let s0 := init (mkList [item_X]) 0 in
  let evs := [Opened 0; RowToggle 0 true; Tick 1000; TimerElapsed; Frame; PostOk] in
  let s := state_after parse_example s0 evs in
  let s1 := state_after parse_example s [Error 0 false one_half] in
  let evs' := [Tick 12500; BackoffElapsed 0; Opened 1; Message 1 "snapshot"] in
  let s' := state_after parse_example s1 evs' in
  dirty s1 = true /\ dirty s' = true /\ data s' = mkList [item_X] /\
  disabled s' item_X = true.
Proof.
  intros s0 evs s s1 evs' s'.
  assert (H0 : run parse_example s0 evs = Some (s, trace_of parse_example s0 evs))
    by (vm_compute; reflexivity).
  assert (H1 : step parse_example s (Error 0 false one_half)
               = Some (s1, trace_of parse_example s [Error 0 false one_half]))
    by (vm_compute; reflexivity).
  assert (H2 : run parse_example s1 evs' = Some (s', trace_of parse_example s1 evs'))
    by (vm_compute; reflexivity).
  assert (Hy : dirty s1 = true) by (vm_compute; reflexivity).
  assert (Hx : disabled s1 item_X = true) by (vm_compute; reflexivity).
  destruct (view_frozen_after_first_error parse_example _ _ _ _ _ _ _ _ _ _ _ _
              H0 H1 H2) as (_ & Hd & Hdy & _ & Hdis).
  split; [exact Hy|]. split; [exact (Hdy Hy)|].
  split; [rewrite Hd; vm_compute; reflexivity|exact (Hdis item_X Hx)].
Defined.

(** ** A whole cycle, whatever the failures *)

Lemma retry_once_now P s m i :
  loop s = Posting m i ->
  exists s',
    run P s [PostFail; Tick 1000; TimerElapsed]
    = Some (s', [SetTimeout 1000; Post (chunk_at m i)]) /\
    loop s' = Posting m i /\ now s' = now s + 1000.
Proof.
  intros Hl. cbn [run step]. rewrite Hl. cbn.
  replace (now s + 1000 <=? now s + 1000) with true
    by (symmetry; apply Z.leb_refl).
  eexists. split; [reflexivity|]. split; reflexivity.
Qed.

Lemma run_retries P m i k : forall s,
  loop s = Posting m i ->
  exists s',
    run P s (List.concat (repeat [PostFail; Tick 1000; TimerElapsed] k))
    = Some (s', List.concat (repeat [SetTimeout 1000; Post (chunk_at m i)] k)) /\
    loop s' = Posting m i /\ now s' = now s + 1000 * Z.of_nat k.
Proof.
  induction k as [|k IH]; intros s Hl.
  - exists s. split; [reflexivity|]. split; [exact Hl|]. simpl. lia.
  - destruct (retry_once_now P s m i Hl) as (s1 & H1 & Hl1 & Hn1).
    destruct (IH s1 Hl1) as (s2 & H2 & Hl2 & Hn2).
    exists s2. cbn [repeat List.concat]. rewrite run_app, H1, H2.
    split; [reflexivity|]. split; [exact Hl2|]. lia.
Qed.

Lemma filter_retries c k :
  filter is_Post (List.concat (repeat [SetTimeout 1000; Post c] k))
  = repeat (Post c) k.
Proof.
  induction k as [|k IH]; [reflexivity|].
  cbn [repeat List.concat]. rewrite filter_app, IH. reflexivity.
Qed.

Lemma run_cycle_from P m : forall j s i fails f,
  loop s = Posting m i -> j = (i + chunkSize)%nat ->
  List.length fails = List.length (chunks m j) ->
  exists s' a,
    run P s (List.concat (map attempts (f :: fails))) = Some (s', a) /\
    filter is_Post a
    = repeat (Post (chunk_at m i)) f ++ requests (chunks m j) fails /\
    loop s' = PauseWait (now s + 1000 * Z.of_nat (f + list_sum fails) + 1000).
Proof.
  apply (for_loop_ind (List.length m)
           (fun j => forall s i fails f,
                loop s = Posting m i -> j = (i + chunkSize)%nat ->
                List.length fails = List.length (chunks m j) -> _));
    intros j Hj.
  - intros s i fails f Hl -> Hlen.
    rewrite chunks_past_end in * by exact Hj.
    destruct fails; [|discriminate Hlen].
    destruct (run_retries P m i f s Hl) as (s1 & H1 & Hl1 & Hn1).
    cbn [map List.concat]. rewrite app_nil_r. unfold attempts.
    rewrite run_app, H1. cbn [run step]. rewrite Hl1, for_chunks_eq.
    apply Nat.ltb_ge in Hj. rewrite Hj.
    eexists. eexists. split; [reflexivity|]. split.
    + rewrite filter_app, filter_retries. cbn. reflexivity.
    + cbn [fst loop set_loop]. unfold list_sum. cbn [fold_right]. f_equal. lia.
  - intros IH s i fails f Hl -> Hlen.
    rewrite (chunks_eq m (i + chunkSize)) in Hlen |- *.
    apply Nat.ltb_lt in Hj. rewrite Hj in Hlen |- *.
    destruct fails as [|f1 fails]; [discriminate Hlen|].
    injection Hlen as Hlen.
    destruct (run_retries P m i f s Hl) as (s1 & H1 & Hl1 & Hn1).
    destruct (IH (set_loop (Posting m (i + chunkSize)) s1) (i + chunkSize)%nat
                fails f1 eq_refl eq_refl Hlen) as (s2 & a2 & H2 & Hp2 & Hl2).
    exists s2. eexists.
    change (List.concat (map attempts (f :: f1 :: fails)))
      with (attempts f ++ List.concat (map attempts (f1 :: fails))).
    unfold attempts at 1. rewrite <- app_assoc, run_app, H1.
    change ([PostOk] ++ List.concat (map attempts (f1 :: fails)))
      with (PostOk :: List.concat (map attempts (f1 :: fails))).
    rewrite run_cons. cbn [step]. rewrite Hl1, for_chunks_eq, Hj.
    cbn [fst snd]. rewrite H2.
    split; [reflexivity|]. split.
    + rewrite !filter_app, filter_retries, Hp2. cbn [filter is_Post requests].
      cbn [repeat app]. reflexivity.
    + rewrite Hl2. cbn [now set_loop]. unfold list_sum. cbn [fold_right].
      f_equal. lia.
Qed.

(** X8.  Let the sync loop be about to drain a buffer [m], and let the
    request for the chunk number [j] fail [fails_j] times before it
    succeeds.  Then the cycle runs to its pause, and the requests it
    sends are the chunks of [m] in order, the chunk number [j] exactly
    [fails_j + 1] times in a row: a failure delays the chunks behind it
    and repeats nothing but the failed chunk.  The pause starts 1000 ms
    after the last success. *)
Theorem cycle_sends_each_chunk_until_it_succeeds :
  forall (JSON_parse : string -> option TodoList) s fails,
    loop s = FrameWait ->
    List.length fails = List.length (chunks (localMutations s) 0) ->
    exists s' a,
      run JSON_parse s (Frame :: List.concat (map attempts fails)) = Some (s', a) /\
      filter is_Post a = requests (chunks (localMutations s) 0) fails /\
      loop s' = PauseWait (now s + 1000 * Z.of_nat (list_sum fails) + 1000).
Proof.
  intros P s fails Hl Hlen.
  rewrite run_cons. cbn [step]. rewrite Hl, sync_eq.
  destruct (localMutations s) as [|e m'] eqn:Hm.
  - rewrite chunks_eq in *. cbn in Hlen. destruct fails; [|discriminate Hlen].
    cbn [map List.concat run fst snd]. eexists. eexists.
    split; [reflexivity|]. split; [reflexivity|].
    cbn [loop]. unfold list_sum. cbn [fold_right]. f_equal. lia.
  - rewrite chunks_eq in *. cbn [List.length Nat.ltb Nat.leb] in *.
    destruct fails as [|f fails]; [discriminate Hlen|]. injection Hlen as Hlen.
    match goal with
    | |- context [run P ?s1 _] =>
        destruct (run_cycle_from P (e :: m') (0 + chunkSize)%nat s1 0%nat fails f
                    eq_refl eq_refl Hlen) as (s2 & a2 & H2 & Hp2 & Hl2)
    end.
    rewrite H2. exists s2. eexists. split; [reflexivity|]. split.
    + rewrite filter_app, Hp2. reflexivity.
    + rewrite Hl2. cbn [now]. reflexivity.
Qed.

Lemma cycle_sends_each_chunk_until_it_succeeds_witness :
  let s := state_after parse_example (init (mkList [item_X; item_Y]) 0)
             [RowToggle 0 true; RowDelete 1 true; Tick 1000; TimerElapsed] in
  let c := [mkBatch "X" (Some "milk") true; mkBatch "Y" None true] in
  exists s' a,
    run parse_example s (Frame :: List.concat (map attempts [2%nat])) = Some (s', a) /\
    filter is_Post a = [Post c; Post c; Post c] /\
    loop s' = PauseWait 4000.
Proof.
  intros s c.
  assert (Hl : loop s = FrameWait) by (vm_compute; reflexivity).
  assert (Hlen : List.length [2%nat] = List.length (chunks (localMutations s) 0))
    by (vm_compute; reflexivity).
  destruct (cycle_sends_each_chunk_until_it_succeeds parse_example s [2%nat] Hl Hlen)
    as (s' & a & Hrun & Hp & Hl').
  exists s', a. split; [exact Hrun|]. split.
  - rewrite Hp. vm_compute. reflexivity.
  - rewrite Hl'. vm_compute. reflexivity.
Defined.

(** ** The ids of new items *)

Lemma string_of_uint_dash d1 : forall d2 u1 u2,
  (NilEmpty.string_of_uint d1 ++ String "-" u1
   = NilEmpty.string_of_uint d2 ++ String "-" u2)%string ->
  d1 = d2 /\ u1 = u2.
Proof.
  induction d1; intros d2 u1 u2 H; destruct d2; simpl in H;
    try discriminate H;
    try (injection H as H; destruct (IHd1 _ _ _ H) as [-> ->]);
    try (injection H as ->);
    split; reflexivity.
Qed.

Lemma string_of_uint_nonnil d :
  d <> Decimal.Nil -> NilZero.string_of_uint d = NilEmpty.string_of_uint d.
Proof. destruct d; [now intros []|reflexivity ..]. Qed.

Lemma string_of_uint_head d :
  d <> Decimal.Nil ->
  exists c s, NilEmpty.string_of_uint d = String c s /\ c <> "-"%char.
Proof.
  destruct d; [now intros []|..]; intros _; simpl;
    eexists; eexists; (split; [reflexivity|discriminate]).
Qed.

(** The decimal numeral of [z] is a numeral without [Nil]: an optional
    sign and at least one digit. *)
Lemma string_of_Z_shape z :
  exists d, d <> Decimal.Nil /\
    (string_of_Z z = NilEmpty.string_of_uint d /\ Z.to_int z = Decimal.Pos d \/
     string_of_Z z = String "-" (NilEmpty.string_of_uint d) /\ Z.to_int z = Decimal.Neg d).
Proof.
  unfold string_of_Z. destruct z as [|p|p]; cbn [Z.to_int NilZero.string_of_int].
  - exists Decimal.zero. split; [discriminate|]. left. split; reflexivity.
  - exists (Pos.to_uint p). pose proof (DecimalPos.Unsigned.to_uint_nonnil p) as Hn.
    split; [exact Hn|]. left. split; [now apply string_of_uint_nonnil|reflexivity].
  - exists (Pos.to_uint p). pose proof (DecimalPos.Unsigned.to_uint_nonnil p) as Hn.
    split; [exact Hn|]. right.
    split; [f_equal; now apply string_of_uint_nonnil|reflexivity].
Qed.

(** X9.  [generateItemId] never yields the same id for two different
    pairs of a time and a UUID: the id determines both.  (The time is
    written as a decimal numeral, which is what the template literal
    makes of the integers that [Date.now()] returns; a numeral contains
    no ["-"] except as its sign, so the first ["-"] after the sign ends
    it.) *)
Theorem generateItemId_injective :
  forall t1 u1 t2 u2,
    generateItemId t1 u1 = generateItemId t2 u2 -> t1 = t2 /\ u1 = u2.
Proof.
  intros t1 u1 t2 u2 H. unfold generateItemId in H.
  destruct (string_of_Z_shape t1) as (d1 & Hn1 & [[E1 I1]|[E1 I1]]);
    destruct (string_of_Z_shape t2) as (d2 & Hn2 & [[E2 I2]|[E2 I2]]);
    rewrite E1, E2 in H.
  - destruct (string_of_uint_dash _ _ _ _ H) as [-> ->].
    split; [|reflexivity]. apply DecimalZ.to_int_inj. congruence.
  - exfalso. destruct (string_of_uint_head d1 Hn1) as (c & r & Hc & Hd).
    rewrite Hc in H. simpl in H. injection H as H _. contradiction.
  - exfalso. destruct (string_of_uint_head d2 Hn2) as (c & r & Hc & Hd).
    rewrite Hc in H. simpl in H. injection H as H _. now elim Hd.
  - simpl in H. injection H as H.
    destruct (string_of_uint_dash _ _ _ _ H) as [-> ->].
    split; [|reflexivity]. apply DecimalZ.to_int_inj. congruence.
Qed.

Lemma generateItemId_injective_witness :
  generateItemId 42 "u" = generateItemId 42 "u" /\ (42 = 42 /\ "u" = "u").
Proof.
  split; [reflexivity|].
  exact (generateItemId_injective 42 "u" 42 "u" eq_refl).
Defined.

(** ** The order of a drain *)

Lemma filter_filter {A} (f g : A -> bool) l :
  filter f (filter g l) = filter (fun x => f x && g x) l.
Proof.
  induction l as [|x l IH]; [reflexivity|]. simpl.
  destruct (g x); simpl; [destruct (f x)|rewrite andb_false_r]; now rewrite IH.
Qed.

Lemma keys_set m k v :
  JsMap.keys (JsMap.set m k v) =
  if existsb (String.eqb k) (JsMap.keys m) then JsMap.keys m
  else JsMap.keys m ++ [k].
Proof.
  unfold JsMap.keys. induction m as [|[k' v'] m IH]; [reflexivity|].
  cbn [JsMap.set map fst existsb].
  rewrite (String.eqb_sym k k').
  destruct (String.eqb k' k) eqn:E; simpl; [reflexivity|].
  rewrite IH. now destruct (existsb (String.eqb k) (map fst m)).
Qed.

Lemma keys_fold_set w : forall m,
  JsMap.keys (fold_left (fun m kv => JsMap.set m (fst kv) (snd kv)) w m)
  = JsMap.keys m
    ++ filter (fun k => negb (existsb (String.eqb k) (JsMap.keys m)))
         (first_seen (map fst w)).
Proof.
  induction w as [|[k v] w IH]; intros m.
  - simpl. now rewrite app_nil_r.
  - cbn [fold_left map fst snd first_seen]. rewrite IH, keys_set.
    cbn [filter]. destruct (existsb (String.eqb k) (JsMap.keys m)) eqn:E.
    + cbn [negb]. f_equal. rewrite filter_filter. apply filter_ext.
      intros k'. destruct (String.eqb_spec k' k) as [->|Hne].
      * now rewrite E.
      * now rewrite andb_true_r.
    + cbn [negb]. rewrite <- app_assoc. f_equal.
      match goal with |- [?x] ++ ?l = _ => change ([x] ++ l) with (x :: l) end.
      f_equal.
      rewrite filter_filter. apply filter_ext. intros k'.
      rewrite existsb_app. cbn [existsb]. rewrite orb_false_r, negb_orb.
      reflexivity.
Qed.

Lemma keys_build w : JsMap.keys (build w) = first_seen (map fst w).
Proof.
  unfold build. rewrite keys_fold_set. cbn.
  induction (first_seen (map fst w)) as [|x l IH]; [reflexivity|].
  simpl. now rewrite IH.
Qed.

(** X10.  A drain takes the edits out in the order in which their ids
    were first recorded since the drain before it: a later edit of an id
    that is already in the buffer replaces the edit and does not move
    the id. *)
Theorem drain_in_order_of_first_record :
  forall (JSON_parse : string -> option TodoList) d t0 evs s acts pre m post,
    run JSON_parse (init d t0) evs = Some (s, acts) ->
    acts = pre ++ Swap m :: post ->
    map fst m = first_seen (map fst (window pre [])) /\
    map post_id (List.concat (chunks m 0)) = first_seen (map fst (window pre [])).
Proof.
  intros P d t0 evs s acts pre m post Hrun ->.
  destruct (run_trace P evs (init d t0) s _ [] None Hrun eq_refl I) as (Hsw & _).
  apply swaps_ok_at in Hsw. subst m.
  pose proof (keys_build (window pre [])) as Hk. unfold JsMap.keys in Hk.
  split; [exact Hk|].
  rewrite chunks_concat. cbn [skipn]. rewrite map_map. exact Hk.
Qed.

Lemma drain_in_order_of_first_record_witness :
  let s0 := init (mkList [item_X; item_Y]) 0 in
  let evs := [Opened 0; RowToggle 0 true; RowDelete 1 true; Message 0 "renamed";
              RowDelete 0 true; Tick 1000; TimerElapsed; Frame] in
  let m := [("X", {| text := None; completed := false |});
            ("Y", {| text := None; completed := true |})] in
  exists pre post,
    trace_of parse_example s0 evs = pre ++ Swap m :: post /\
    map fst (window pre []) = ["X"; "Y"; "X"] /\
    map fst m = first_seen (map fst (window pre [])).
Proof.
  intros s0 evs m.
  assert (H : run parse_example s0 evs
              = Some (state_after parse_example s0 evs, trace_of parse_example s0 evs))
    by (vm_compute; reflexivity).
  exists [MapSet "X" {| text := Some "milk"; completed := true |};
          MapSet "Y" {| text := None; completed := true |};
          MapSet "X" {| text := None; completed := false |};
          RequestAnimationFrame], [Post (chunk_at m 0)].
  assert (Ha : trace_of parse_example s0 evs
               = [MapSet "X" {| text := Some "milk"; completed := true |};
                  MapSet "Y" {| text := None; completed := true |};
                  MapSet "X" {| text := None; completed := false |};
                  RequestAnimationFrame] ++ Swap m :: [Post (chunk_at m 0)])
    by (vm_compute; reflexivity).
  split; [exact Ha|]. split; [vm_compute; reflexivity|].
  exact (proj1 (drain_in_order_of_first_record parse_example _ _ evs _ _ _ m _ H Ha)).
Defined.

(** ** A text is added once *)

Lemma step_input_empty P s ev s' a :
  step P s ev = Some (s', a) -> is_Type ev = false ->
  addTodoInput s = "" ->
  addTodoInput s' = "" /\ filter is_GenerateItemId a = [].
Proof.
  intros H Hev Hin.
  destruct ev; try discriminate Hev;
    try (apply step_Error_view in H;
         destruct H as [(_ & _ & _ & _ & _ & Hi & _) Ha];
         rewrite Hi, (channel_actions_filter is_GenerateItemId a Ha)
           by (now intros []);
         split; [exact Hin|reflexivity]);
    step_inv H; case_handlers; simpl in *;
    try (split; [assumption|reflexivity]);
    try (split; reflexivity).
  all: rewrite Hin in *; discriminate.
Qed.

Lemma run_input_empty P evs : forall s s' a,
  run P s evs = Some (s', a) ->
  forallb (fun ev => negb (is_Type ev)) evs = true ->
  addTodoInput s = "" ->
  filter is_GenerateItemId a = [].
Proof.
  induction evs as [|ev evs IH]; intros s s' a H Hevs Hin.
  - injection H as _ <-. reflexivity.
  - apply run_cons_inv in H. destruct H as (s1 & a1 & a2 & H1 & H2 & ->).
    simpl in Hevs. apply andb_prop in Hevs. destruct Hevs as [Hev Hevs].
    apply negb_true_iff in Hev.
    destruct (step_input_empty _ _ _ _ _ H1 Hev Hin) as [Hin1 Ha1].
    rewrite filter_app, Ha1, (IH _ _ _ H2 Hevs Hin1). reflexivity.
Qed.

(** X11.  A click on "+" that adds an item empties the input, and the
    input stays empty until the user types again: in every run that
    follows without typing, also across snapshots, which enable the
    button again, no further id is generated and nothing is added. *)
Theorem typed_text_is_added_once :
  forall (JSON_parse : string -> option TodoList) s uuid s1 a1 evs s2 a2,
    step JSON_parse s (ClickAdd uuid) = Some (s1, a1) -> a1 <> [] ->
    run JSON_parse s1 evs = Some (s2, a2) ->
    forallb (fun ev => negb (is_Type ev)) evs = true ->
    addTodoInput s2 = "" /\ filter is_GenerateItemId a2 = [].
Proof.
  intros P s uuid s1 a1 evs s2 a2 H1 Ha1 H2 Hevs.
  assert (Hin : addTodoInput s1 = "").
  { step_inv H1. rewrite addTodo_eq in *.
    destruct (String.eqb (addTodoInput s) ""); [now elim Ha1|reflexivity]. }
  split; [|exact (run_input_empty _ _ _ _ _ H2 Hevs Hin)].
  clear H1 Ha1. revert s1 s2 a2 H2 Hin Hevs.
  induction evs as [|ev evs IH]; intros s1 s2 a2 H2 Hin Hevs.
  - injection H2 as <- _. exact Hin.
  - apply run_cons_inv in H2. destruct H2 as (s3 & a3 & a4 & H3 & H4 & _).
    simpl in Hevs. apply andb_prop in Hevs. destruct Hevs as [Hev Hevs].
    apply negb_true_iff in Hev.
    destruct (step_input_empty _ _ _ _ _ H3 Hev Hin) as [Hin3 _].
    exact (IH _ _ _ H4 Hin3 Hevs).
Qed.

Lemma typed_text_is_added_once_witness :
  let s := state_after parse_example (init (mkList []) 0) [Opened 0; Type_ "milk"] in
  let s1 := state_after parse_example s [ClickAdd "u"] in
  let evs := [Tick 1000; TimerElapsed; Frame; PostOk; Message 0 "snapshot";
              ClickAdd "v"; ClickAdd "w"] in
  adding (state_after parse_example s1 [Tick 1000; TimerElapsed; Frame; PostOk;
                                        Message 0 "snapshot"]) = false /\
  filter is_GenerateItemId (trace_of parse_example s1 evs) = [].
Proof.
  intros s s1 evs.
  assert (H1 : step parse_example s (ClickAdd "u")
               = Some (s1, [GenerateItemId "0-u";
                            MapSet "0-u" {| text := Some "milk"; completed := false |}]))
    by (vm_compute; reflexivity).
  assert (H2 : run parse_example s1 evs
               = Some (state_after parse_example s1 evs, trace_of parse_example s1 evs))
    by (vm_compute; reflexivity).
  assert (Hevs : forallb (fun ev => negb (is_Type ev)) evs = true)
    by (vm_compute; reflexivity).
  split; [vm_compute; reflexivity|].
  exact (proj2 (typed_text_is_added_once parse_example s "u" s1 _ evs _ _
                  H1 ltac:(discriminate) H2 Hevs)).
Defined.

(** ** The reconnection *)

Lemma nth_error_snoc {A} (l : list A) x : nth_error (l ++ [x]) (List.length l) = Some x.
Proof. induction l as [|y l IH]; [reflexivity|exact IH]. Qed.

Lemma timeout_nonneg x : 0 <= Number.timeout x.
Proof. unfold Number.timeout. apply Z.le_max_l. Qed.

(** X12.  After the first error on the first [EventSource], once the
    backoff delay has passed the timer fires and the reconnection takes
    place: one new [EventSource] is created, [es] names it, it is
    connecting, and no listener is attached to it. *)
Theorem first_error_reconnects_without_listeners :
  forall (JSON_parse : string -> option TodoList) d t0 evs s a
         fatal random s1 a1,
    run JSON_parse (init d t0) evs = Some (s, a) ->
    step JSON_parse s (Error 0 fatal random) = Some (s1, a1) ->
    exists s2,
      run JSON_parse s1 [Tick (Number.timeout (backoff random)); BackoffElapsed 0]
      = Some (s2, [NewEventSource (List.length (sources s))]) /\
      es s2 = List.length (sources s) /\
      nth_error (sources s2) (es s2) = Some (mkSource CONNECTING []) /\
      reconnecting s2 = [].
Proof.
  intros P d t0 evs s a fatal random s1 a1 Hrun Hstep.
  pose proof (channel_ok_run _ _ _ _ _ _ Hrun) as Hch.
  destruct (step_Error_reachable _ _ _ _ _ _ _ Hch Hstep)
    as [(_ & _ & _ & Hr1 & (ls & Hs1 & Hls) & (r0 & rest & Hs & _) & _ & Hv)
       |(Ho & _)]; [|now elim Ho].
  destruct Hv as (_ & _ & _ & _ & _ & _ & _ & Hn).
  pose proof (timeout_nonneg (backoff random)) as Hpos.
  set (delay := Number.timeout (backoff random)) in *.
  assert (Hlen : List.length (sources s1) = List.length (sources s)).
  { rewrite Hs1, Hls, Hs. reflexivity. }
  cbn [run step].
  replace (0 <=? delay) with true by (symmetry; now apply Z.leb_le).
  cbn [upd fst snd set_now reconnecting now nth_error].
  rewrite Hr1. cbn [nth_error]. rewrite Hn, Z.leb_refl.
  eexists. split; [cbn; rewrite Hlen; reflexivity|].
  cbn. split; [reflexivity|]. split; [|reflexivity].
  rewrite <- Hlen. apply nth_error_snoc.
Qed.

Lemma first_error_reconnects_without_listeners_witness :
  let s := state_after parse_example (init (mkList [item_X]) 0) [Opened 0] in
  let s1 := state_after parse_example s [Error 0 false one_half] in
  exists s2,
    run parse_example s1 [Tick 12500; BackoffElapsed 0]
    = Some (s2, [NewEventSource 1]) /\
    es s2 = 1%nat /\
    nth_error (sources s2) (es s2) = Some (mkSource CONNECTING []).
Proof.
  intros s s1.
  assert (H0 : run parse_example (init (mkList [item_X]) 0) [Opened 0] = Some (s, []))
    by (vm_compute; reflexivity).
  assert (H1 : step parse_example s (Error 0 false one_half)
               = Some (s1, [Close 0%nat; SetTimeout 12500]))
    by (vm_compute; reflexivity).
  assert (Hd : Number.timeout (backoff one_half) = 12500) by (vm_compute; reflexivity).
  assert (Hl : List.length (sources s) = 1%nat) by (vm_compute; reflexivity).
  destruct (first_error_reconnects_without_listeners parse_example _ _ _ _ _ _ _ _ _
              H0 H1) as (s2 & H2 & He & Hs & _).
  rewrite Hd, Hl in H2. rewrite Hl in He.
  exists s2. split; [exact H2|]. split; [exact He|exact Hs].
Defined.

(** ** A snapshot unlocks a row by changing its key *)

Lemma step_locks_displayed P s ev s' a :
  step P s ev = Some (s', a) -> locks_displayed s -> locks_displayed s'.
Proof.
  intros H Hinv. unfold locks_displayed in *.
  destruct ev;
    try (pose proof H as Hv; apply step_Error_view in Hv;
         destruct Hv as [(Hd & _) _]; rewrite Hd;
         cbn [step] in H;
         destruct (nth_error (sources s) o) as [[[] ls]|]; try discriminate H;
         injection H as <- _; unfold seqc; cbn [fst];
         rewrite dispatch_error_busy_rows; exact Hinv);
    step_inv H; case_handlers; simpl in *; auto;
    intros k Hin;
    try (destruct Hin as [<-|Hin]; [|now apply Hinv];
         eexists; split; [eapply nth_error_In; eassumption|reflexivity]).
  apply filter_In in Hin. destruct Hin as [_ Hex].
  apply existsb_exists in Hex. destruct Hex as (item & Hin & Heq).
  apply String.eqb_eq in Heq. eauto.
Qed.

Lemma locks_displayed_run P d t0 evs s a :
  run P (init d t0) evs = Some (s, a) -> locks_displayed s.
Proof.
  intros H.
  apply (run_invariant P locks_displayed (step_locks_displayed P) _ _ _ _ H).
  intros k [].
Qed.

(** X13.  A snapshot leaves the lock of a row as it is when the row's
    key, [id:versionstamp], is in the new list as well, and only rows on
    display are ever locked.  So a locked row is unlocked exactly when a
    snapshot brings its item under a new key, that is with a new
    versionstamp, or drops the item. *)
Theorem snapshot_unlocks_rows_by_key :
  forall (JSON_parse : string -> option TodoList) d t0 evs s a payload d' s' a',
    run JSON_parse (init d t0) evs = Some (s, a) ->
    step JSON_parse s (Message 0 payload) = Some (s', a') ->
    JSON_parse payload = Some d' ->
    (forall item, In item (items d') -> disabled s' item = disabled s item) /\
    (forall item, disabled s' item = true ->
                  exists old new,
                    In old (items (data s)) /\ In new (items d') /\
                    row_key old = row_key item /\ row_key new = row_key item /\
                    disabled s old = true).
Proof.
  intros P d t0 evs s a payload d' s' a' Hrun Hstep Hparse.
  pose proof (channel_ok_run _ _ _ _ _ _ Hrun) as Hch.
  pose proof (locks_displayed_run _ _ _ _ _ _ Hrun) as Hlocks.
  destruct (step_Message_reachable _ _ _ _ _ _ Hch Hstep) as [_ [[_ ->]|[Ho _]]];
    [|now elim Ho].
  rewrite messageListener_eq, Hparse. unfold disabled. cbn [fst busy_rows].
  split.
  - intros item Hin.
    destruct (existsb (String.eqb (row_key item)) (busy_rows s)) eqn:E.
    + apply existsb_exists in E. destruct E as (k & Hk & Heq).
      apply existsb_exists. exists k. split; [|exact Heq].
      apply filter_In. split; [exact Hk|].
      apply existsb_exists. exists item. split; [exact Hin|].
      apply String.eqb_eq in Heq. subst k. apply String.eqb_refl.
    + apply not_true_is_false. intros Hex.
      apply existsb_exists in Hex. destruct Hex as (k & Hk & Heq).
      apply filter_In in Hk. destruct Hk as [Hk _].
      assert (existsb (String.eqb (row_key item)) (busy_rows s) = true)
        by (apply existsb_exists; eauto).
      congruence.
  - intros item Hex.
    apply existsb_exists in Hex. destruct Hex as (k & Hk & Heq).
    apply String.eqb_eq in Heq. subst k.
    apply filter_In in Hk. destruct Hk as [Hk Hnew].
    apply existsb_exists in Hnew. destruct Hnew as (new & Hnew & Heq).
    apply String.eqb_eq in Heq.
    destruct (Hlocks _ Hk) as (old & Hold & Hkey).
    exists old, new. repeat split; auto.
    apply existsb_exists. exists (row_key item).
    split; [exact Hk|]. rewrite Hkey. apply String.eqb_refl.
Qed.

Lemma snapshot_unlocks_rows_by_key_witness :
  let s := state_after parse_example (init (mkList [item_X]) 0)
             [Opened 0; RowToggle 0 true] in
  let s' := state_after parse_example s [Message 0 "renamed"] in
  disabled s item_X = true /\ disabled s' item_X2 = false.
Proof.
  intros s s'.
  assert (H0 : run parse_example (init (mkList [item_X]) 0) [Opened 0; RowToggle 0 true]
               = Some (s, [MapSet "X" {| text := Some "milk"; completed := true |}]))
    by (vm_compute; reflexivity).
  assert (H1 : step parse_example s (Message 0 "renamed") = Some (s', []))
    by (vm_compute; reflexivity).
  assert (H2 : parse_example "renamed" = Some (mkList [item_X2]))
    by (vm_compute; reflexivity).
  destruct (snapshot_unlocks_rows_by_key parse_example _ _ _ _ _ _ _ _ _ H0 H1 H2)
    as [Hkeep _].
  split; [vm_compute; reflexivity|].
  rewrite (Hkeep item_X2 (or_introl eq_refl)). vm_compute. reflexivity.
Defined.

(** ** No edit stays behind *)

Lemma step_keeps_buffer P s ev s' a :
  step P s ev = Some (s', a) -> touches_buffer ev = false ->
  localMutations s' = localMutations s /\ existsb is_Swap a = false.
Proof.
  intros H Hev.
  destruct ev; try discriminate Hev;
    try (apply step_Error_view in H;
         destruct H as [(_ & _ & Hm & _) Ha];
         split; [exact Hm|now apply channel_actions_no_Swap]);
    step_inv H; case_handlers; simpl in *; split; reflexivity.
Qed.

Lemma run_keeps_buffer P evs : forall s s' a,
  run P s evs = Some (s', a) ->
  forallb (fun ev => negb (touches_buffer ev)) evs = true ->
  localMutations s' = localMutations s /\ existsb is_Swap a = false.
Proof.
  induction evs as [|ev evs IH]; intros s s' a H Hevs.
  - injection H as <- <-. split; reflexivity.
  - apply run_cons_inv in H. destruct H as (s1 & a1 & a2 & H1 & H2 & ->).
    simpl in Hevs. apply andb_prop in Hevs. destruct Hevs as [Hev Hevs].
    apply negb_true_iff in Hev.
    destruct (step_keeps_buffer _ _ _ _ _ H1 Hev) as [Hm1 Hs1].
    destruct (IH _ _ _ H2 Hevs) as [Hm2 Hs2].
    split; [congruence|]. rewrite existsb_app, Hs1, Hs2. reflexivity.
Qed.

Lemma forallb_repeat {A} (f : A -> bool) x n :
  f x = true -> forallb f (repeat x n) = true.
Proof. intros Hx. induction n as [|n IH]; simpl; [reflexivity|now rewrite Hx]. Qed.

Lemma to_next_frame_quiet s :
  forallb (fun ev => negb (touches_buffer ev)) (to_next_frame s) = true.
Proof.
  unfold to_next_frame, finish_batch, await_timer.
  destruct (loop s); rewrite ?forallb_app, ?forallb_repeat; reflexivity.
Qed.

Lemma run_await_timer P s due :
  (loop s = PauseWait due ->
   exists s', run P s (await_timer s due) = Some (s', [RequestAnimationFrame]) /\
              loop s' = FrameWait) /\
  (forall m i, loop s = RetryWait m i due ->
   exists s', run P s (await_timer s due) = Some (s', [Post (chunk_at m i)]) /\
              loop s' = Posting m i).
Proof.
  assert (H0 : (0 <=? Z.max 0 (due - now s)) = true) by (apply Z.leb_le; lia).
  assert (H1 : (due <=? now s + Z.max 0 (due - now s)) = true)
    by (apply Z.leb_le; lia).
  split; [intros Hl|intros m i Hl];
    unfold await_timer; cbn [run step]; rewrite H0; cbn; rewrite Hl, H1;
    eexists; split; reflexivity.
Qed.

Lemma run_finish_batch P m i s :
  loop s = Posting m i ->
  exists s' a, run P s (finish_batch m i) = Some (s', a) /\ loop s' = FrameWait.
Proof.
  intros Hl. unfold finish_batch.
  destruct (run_all_PostOk P m (i + chunkSize) s) as (s1 & H1 & Hl1);
    [exists i; split; [exact Hl|reflexivity]|].
  rewrite run_app, H1. cbn [run step].
  pose proof (run_now_mono _ _ _ _ _ H1) as Hmono.
  cbn. rewrite Hl1.
  replace (now s + 1000 <=? now s1 + 1000) with true
    by (symmetry; apply Z.leb_le; lia).
  eexists. eexists. split; reflexivity.
Qed.

Lemma run_to_next_frame P s :
  exists s' a,
    run P s (to_next_frame s) = Some (s', a) /\
    loop s' = FrameWait /\
    localMutations s' = localMutations s /\ existsb is_Swap a = false.
Proof.
  assert (exists s' a, run P s (to_next_frame s) = Some (s', a) /\ loop s' = FrameWait)
    as (s' & a & Hrun & Hl').
  { unfold to_next_frame. destruct (loop s) as [m i|m i due|due|] eqn:Hl.
    - exact (run_finish_batch P m i s Hl).
    - destruct (proj2 (run_await_timer P s due) m i Hl) as (s1 & H1 & Hl1).
      destruct (run_finish_batch P m i s1 Hl1) as (s2 & a2 & H2 & Hl2).
      rewrite run_app, H1, H2. eauto.
    - destruct (proj1 (run_await_timer P s due) Hl) as (s1 & H1 & Hl1). eauto.
    - exists s, []. split; [reflexivity|exact Hl]. }
  exists s', a. split; [exact Hrun|]. split; [exact Hl'|].
  exact (run_keeps_buffer _ _ _ _ _ Hrun (to_next_frame_quiet s)).
Qed.

Lemma run_cycle P s :
  loop s = FrameWait ->
  exists s',
    run P s (Frame :: repeat PostOk (List.length (chunks (localMutations s) 0)))
    = Some (s', Swap (localMutations s)
                :: map Post (chunks (localMutations s) 0) ++ [SetTimeout 1000]) /\
    localMutations s' = [].
Proof.
  intros Hl. rewrite run_cons. cbn [step]. rewrite Hl, sync_eq.
  destruct (localMutations s) as [|e m'] eqn:Em.
  - rewrite chunks_past_end by (simpl; lia). simpl.
    eexists. split; reflexivity.
  - rewrite (chunks_eq (e :: m') 0). cbn [List.length Nat.ltb Nat.leb map].
    match goal with
    | |- context [run P ?s1 _] =>
        destruct (run_all_PostOk P (e :: m') (0 + chunkSize) s1) as (s' & Hrun & Hl');
        [exists 0%nat; split; reflexivity|];
        pose proof (run_keeps_buffer _ _ _ _ _ Hrun
                      (forallb_repeat _ PostOk _ eq_refl)) as [Hm _]
    end.
    rewrite Hrun. exists s'. split; [reflexivity|exact Hm].
Qed.

(** X14.  No edit stays behind: whatever the state of the view, when
    time passes and no request fails any more, the sync loop gets to
    its next drain without draining before, takes out the whole buffer,
    sends all of it chunk by chunk, and leaves the buffer empty. *)
Theorem buffer_is_drained_and_submitted :
  forall (JSON_parse : string -> option TodoList) s,
    exists s' pre,
      run JSON_parse s
        (to_next_frame s
         ++ Frame :: repeat PostOk (List.length (chunks (localMutations s) 0)))
      = Some (s', pre ++ Swap (localMutations s)
                      :: map Post (chunks (localMutations s) 0)
                      ++ [SetTimeout 1000]) /\
      existsb is_Swap pre = false /\
      List.concat (chunks (localMutations s) 0) = map batch_record (localMutations s) /\
      localMutations s' = [].
Proof.
  intros P s.
  destruct (run_to_next_frame P s) as (s1 & pre & H1 & Hl1 & Hm1 & Hpre).
  destruct (run_cycle P s1 Hl1) as (s2 & H2 & Hm2).
  rewrite Hm1 in H2.
  exists s2, pre. rewrite run_app, H1, H2.
  split; [reflexivity|]. split; [exact Hpre|]. split; [|exact Hm2].
  rewrite chunks_concat. reflexivity.
Qed.

(** * The editing mode of a row *)

Lemma ui_run_cons_inv P u e es u' a :
  ui_run P u (e :: es) = Some (u', a) ->
  exists u1 a1 a2,
    ui_step P u e = Some (u1, a1) /\ ui_run P u1 es = Some (u', a2) /\
    a = a1 ++ a2.
Proof.
  cbn [ui_run]. destruct (ui_step P u e) as [[u1 a1]|]; [|discriminate].
  destruct (ui_run P u1 es) as [[u2 a2]|] eqn:E2; [|discriminate].
  intros H. injection H as <- <-. exists u1, a1, a2. auto.
Qed.

Lemma ui_run_app P es1 : forall u es2,
  ui_run P u (es1 ++ es2) =
  match ui_run P u es1 with
  | None => None
  | Some (u1, a1) =>
      match ui_run P u1 es2 with
      | None => None
      | Some (u2, a2) => Some (u2, a1 ++ a2)
      end
  end.
Proof.
  induction es1 as [|e es1 IH]; intros u es2.
  - cbn. now destruct (ui_run P u es2) as [[u2 a2]|].
  - cbn [app ui_run]. destruct (ui_step P u e) as [[u1 a1]|]; [|reflexivity].
    rewrite IH. destruct (ui_run P u1 es1) as [[u2 a2]|]; [|reflexivity].
    destruct (ui_run P u2 es2) as [[u3 a3]|]; [|reflexivity].
    now rewrite app_assoc.
Qed.

Lemma row_state_set_row item r u :
  row_state (set_row item r u) item = render_row item r.
Proof.
  unfold row_state, set_row. cbn. now rewrite String.eqb_refl.
Qed.

Lemma row_ok_render item r : row_ok (render_row item r).
Proof. unfold row_ok, render_row. now destruct (editing r). Qed.

Lemma row_state_ok u item : rows_ok u -> row_ok (row_state u item).
Proof.
  unfold rows_ok, row_state. intros H.
  destruct (find _ (rows u)) as [kr|] eqn:E; [|reflexivity].
  apply find_some in E. destruct E as [Hin _].
  rewrite Forall_forall in H. exact (H _ Hin).
Qed.

Lemma rows_ok_set_row item r u : rows_ok u -> rows_ok (set_row item r u).
Proof.
  unfold rows_ok, set_row. cbn [rows]. intros H. constructor.
  - apply row_ok_render.
  - rewrite Forall_forall in *. intros kr Hin.
    apply filter_In in Hin. now apply H.
Qed.

Lemma rows_ok_view_step u r u' a :
  view_step u r = Some (u', a) -> rows_ok u -> rows_ok u'.
Proof.
  unfold view_step. destruct r as [[s' a']|]; [|discriminate].
  intros H Hok. injection H as <- _. unfold rows_ok, render_ui in *. cbn [rows].
  rewrite Forall_forall in *. intros kr Hin. apply filter_In in Hin.
  now apply Hok.
Qed.

Ltac ui_inv H :=
  cbn [ui_step] in H;
  repeat match type of H with
         | context [match nth_error ?l ?n with _ => _ end] =>
             destruct (nth_error l n) eqn:?
         | context [if ?b then _ else _] => destruct b eqn:?
         | context [match input ?r with _ => _ end] => destruct (input r) eqn:?
         end;
  try discriminate H.

Lemma rows_ok_step P u e u' a :
  ui_step P u e = Some (u', a) -> rows_ok u -> rows_ok u'.
Proof.
  intros H Hok. destruct e; ui_inv H;
    try (injection H as <- _; now apply rows_ok_set_row);
    eapply rows_ok_view_step; eassumption.
Qed.

Lemma rows_ok_run P es : forall u u' a,
  ui_run P u es = Some (u', a) -> rows_ok u -> rows_ok u'.
Proof.
  induction es as [|e es IH]; intros u u' a H Hok.
  - injection H as <- _. exact Hok.
  - apply ui_run_cons_inv in H. destruct H as (u1 & a1 & a2 & H1 & H2 & _).
    eapply IH; [exact H2|]. eapply rows_ok_step; eassumption.
Qed.

Lemma row_state_render_ui s rs item row :
  nth_error (items (data s)) row = Some item ->
  row_state (render_ui (mkUI s rs)) item = row_state (mkUI s rs) item.
Proof.
  intros Hn. unfold row_state, render_ui. cbn [rows view].
  induction rs as [|[k r] rs IH]; [reflexivity|].
  cbn [filter find fst snd].
  destruct (String.eqb k (row_key item)) eqn:E.
  - apply String.eqb_eq in E. subst k.
    replace (existsb _ (items (data s))) with true; [cbn; now rewrite String.eqb_refl|].
    symmetry. apply existsb_exists. exists item.
    split; [eapply nth_error_In; eassumption|apply String.eqb_refl].
  - destruct (existsb _ (items (data s))); [cbn [find fst]; now rewrite E|exact IH].
Qed.

(** X15.  In every state the user interface reaches, a row in editing
    mode has its text input.  So the guards [if (!input.current) return]
    never fire: a click on "Save" always records the text of the input
    as an edit of the item, with the item's [completed], and locks the
    row; a click on "Cancel" always leaves the editing mode, records
    nothing and leaves the view as it is. *)
Theorem save_and_cancel_always_act :
  forall (JSON_parse : string -> option TodoList) d t0 es u a0,
    ui_run JSON_parse (ui_init d t0) es = Some (u, a0) ->
    (forall row u' a,
        ui_step JSON_parse u (ClickSave row) = Some (u', a) ->
        exists item value,
          nth_error (items (data (view u))) row = Some item /\
          input (row_state u item) = Some value /\
          a = [MapSet (id item)
                 {| text := Some value; completed := item_completed item |}] /\
          JsMap.get (localMutations (view u')) (id item)
          = Some {| text := Some value; completed := item_completed item |} /\
          disabled (view u') item = true) /\
    (forall row u' a,
        ui_step JSON_parse u (ClickCancel row) = Some (u', a) ->
        exists item,
          nth_error (items (data (view u))) row = Some item /\
          a = [] /\ view u' = view u /\ row_state u' item = new_row).
Proof.
  intros P d t0 es u a0 Hrun.
  assert (Hok : rows_ok u).
  { eapply rows_ok_run; [exact Hrun|]. constructor. }
  split; intros row u' a H; ui_inv H.
  - pose proof (row_state_ok u t Hok) as Hr. unfold row_ok in Hr.
    apply negb_false_iff in Heqb.
    destruct (input (row_state u t)) as [value|] eqn:Hi; [|congruence].
    exists t, value. split; [reflexivity|]. split; [exact Hi|].
    unfold view_step in H. cbn [step] in H. rewrite Heqo in H.
    destruct (disabled (view u) t); [discriminate H|].
    rewrite doSave_eq, row_save_eq in H. injection H as <- <-.
    cbn. split; [reflexivity|]. split; [apply get_set_same|].
    unfold disabled. cbn. now rewrite String.eqb_refl.
  - pose proof (row_state_ok u t Hok) as Hr. unfold row_ok in Hr.
    apply orb_false_iff in Heqb. destruct Heqb as [He _].
    apply negb_false_iff in He.
    injection H as <- <-. exists t.
    split; [reflexivity|]. split; [reflexivity|]. split; [reflexivity|].
    rewrite row_state_set_row. unfold cancelEdit, render_row.
    destruct (input (row_state u t)); [reflexivity|congruence].
Qed.

Lemma save_and_cancel_always_act_witness :
  let u := ui_after parse_example (ui_init (mkList [item_X]) 0)
             [ClickEdit 0; TypeRow 0 "oat milk"] in
  exists u',
    ui_step parse_example u (ClickSave 0)
    = Some (u', [MapSet "X" {| text := Some "oat milk"; completed := false |}]) /\
    disabled (view u') item_X = true.
Proof.
  intros u.
  assert (Hrun : ui_run parse_example (ui_init (mkList [item_X]) 0)
                   [ClickEdit 0; TypeRow 0 "oat milk"] = Some (u, []))
    by (vm_compute; reflexivity).
  assert (Hstep : ui_step parse_example u (ClickSave 0)
                  = Some (ui_after parse_example u [ClickSave 0],
                          [MapSet "X" {| text := Some "oat milk"; completed := false |}]))
    by (vm_compute; reflexivity).
  destruct (save_and_cancel_always_act parse_example _ _ _ _ _ Hrun) as [Hsave _].
  destruct (Hsave _ _ _ Hstep) as (item & value & Hn & _ & _ & _ & Hdis).
  exists (ui_after parse_example u [ClickSave 0]). split; [exact Hstep|].
  assert (Hitem : item = item_X).
  { vm_compute in Hn. now injection Hn as <-. }
  rewrite <- Hitem. exact Hdis.
Defined.

(** ** What "Save" records *)

Lemma last_cons {A} (l : list A) : forall a d, last (a :: l) d = last l a.
Proof.
  induction l as [|b l IH]; intros a d; [reflexivity|].
  change (last (a :: b :: l) d) with (last (b :: l) d).
  rewrite !IH. reflexivity.
Qed.

Lemma ui_run_typing P row item vs : forall u v0,
  nth_error (items (data (view u))) row = Some item ->
  row_state u item = mkRow true (Some v0) ->
  exists u',
    ui_run P u (map (TypeRow row) vs) = Some (u', []) /\
    view u' = view u /\
    row_state u' item = mkRow true (Some (last vs v0)).
Proof.
  induction vs as [|v vs IH]; intros u v0 Hn Hr.
  - exists u. repeat split; auto.
  - destruct (IH (set_row item (typeRow v (row_state u item)) u) v) as (u' & H & Hv & Hr').
    + exact Hn.
    + rewrite row_state_set_row, Hr. reflexivity.
    + exists u'. cbn [map ui_run ui_step]. rewrite Hn, Hr. cbn [input].
      rewrite <- Hr, H. split; [reflexivity|]. split; [exact Hv|].
      rewrite Hr', last_cons. reflexivity.
Qed.

(** X16.  Let a row be in its initial state and not locked.  After
    "Edit", the input holds the text of the item; typing changes it.
    "Save" then records, as the new text of the item, the text typed
    last, or the item's own text when nothing was typed, with the item's
    [completed]; the row stays in editing mode and is locked.  "Cancel"
    instead records nothing and puts the row back into its initial
    state: what was typed is gone. *)
Theorem save_records_the_input_cancel_discards_it :
  forall (JSON_parse : string -> option TodoList) u row item vs,
    nth_error (items (data (view u))) row = Some item ->
    disabled (view u) item = false ->
    row_state u item = new_row ->
    (exists u',
        ui_run JSON_parse u (ClickEdit row :: map (TypeRow row) vs ++ [ClickSave row])
        = Some (u', [MapSet (id item)
                       {| text := Some (last vs (item_text item));
                          completed := item_completed item |}]) /\
        row_state u' item = mkRow true (Some (last vs (item_text item))) /\
        disabled (view u') item = true) /\
    (exists u',
        ui_run JSON_parse u (ClickEdit row :: map (TypeRow row) vs ++ [ClickCancel row])
        = Some (u', []) /\
        view u' = view u /\ row_state u' item = new_row).
Proof.
  intros P u row item vs Hn Hdis Hr.
  set (u1 := set_row item (startEdit new_row) u).
  assert (H1 : ui_step P u (ClickEdit row) = Some (u1, [])).
  { cbn [ui_step]. rewrite Hn, Hr, Hdis. reflexivity. }
  assert (Hr1 : row_state u1 item = mkRow true (Some (item_text item))).
  { unfold u1. rewrite row_state_set_row. reflexivity. }
  destruct (ui_run_typing P row item vs u1 (item_text item) Hn Hr1)
    as (u2 & H2 & Hv2 & Hr2).
  assert (Hn2 : nth_error (items (data (view u2))) row = Some item)
    by (rewrite Hv2; exact Hn).
  assert (Hdis2 : disabled (view u2) item = false) by (rewrite Hv2; exact Hdis).
  split.
  - eexists. cbn [ui_run]. rewrite H1, ui_run_app, H2.
    cbn [ui_run ui_step]. rewrite Hn2, Hr2. cbn [editing negb input step].
    rewrite Hn2, Hdis2, doSave_eq, row_save_eq. cbn [view_step].
    split; [reflexivity|]. split.
    + erewrite row_state_render_ui by (cbn [data]; exact Hn2).
      exact Hr2.
    + unfold disabled. cbn. now rewrite String.eqb_refl.
  - eexists. cbn [ui_run]. rewrite H1, ui_run_app, H2.
    cbn [ui_run ui_step]. rewrite Hn2, Hr2, Hdis2. cbn [editing negb orb].
    split; [reflexivity|]. split; [exact Hv2|].
    rewrite row_state_set_row. reflexivity.
Qed.

Lemma save_records_the_input_cancel_discards_it_witness :
  let u := ui_init (mkList [item_X; item_Y]) 0 in
  (exists u',
      ui_run parse_example u
        [ClickEdit 1; TypeRow 1 "egg"; TypeRow 1 "six eggs"; ClickSave 1]
      = Some (u', [MapSet "Y" {| text := Some "six eggs"; completed := true |}])) /\
  (exists u',
      ui_run parse_example u
        [ClickEdit 1; TypeRow 1 "egg"; TypeRow 1 "six eggs"; ClickCancel 1]
      = Some (u', []) /\ row_state u' item_Y = new_row).
Proof.
  intros u.
  assert (Hn : nth_error (items (data (view u))) 1 = Some item_Y)
    by (vm_compute; reflexivity).
  assert (Hdis : disabled (view u) item_Y = false) by (vm_compute; reflexivity).
  assert (Hr : row_state u item_Y = new_row) by (vm_compute; reflexivity).
  destruct (save_records_the_input_cancel_discards_it parse_example u 1%nat item_Y
              ["egg"; "six eggs"] Hn Hdis Hr)
    as [(u1 & H1 & _) (u2 & H2 & _ & Hr2)].
  split; [exists u1; exact H1|exists u2; split; [exact H2|exact Hr2]].
Defined.

(** ** A locked row in the user interface *)

Lemma ui_step_view P u e u' a :
  ui_step P u e = Some (u', a) ->
  (view u' = view u /\ a = []) \/
  (exists ev, step P (view u) ev = Some (view u', a) /\
              is_Message ev = is_snapshot e).
Proof.
  intros H. destruct e; ui_inv H;
    try (injection H as <- <-; left; split; reflexivity);
    right; unfold view_step in H;
    match type of H with
    | context [step P (view u) ?ev] =>
        exists ev; destruct (step P (view u) ev) as [[s' a']|]; [|discriminate H];
        injection H as <- <-; split; [reflexivity|]
    end; try reflexivity.
Qed.

Lemma ui_step_keeps_rows P u e u' a :
  ui_step P u e = Some (u', a) -> is_snapshot e = false ->
  data (view u') = data (view u) /\
  incl (busy_rows (view u)) (busy_rows (view u')).
Proof.
  intros H He. destruct (ui_step_view _ _ _ _ _ H) as [[-> _]|(ev & Hs & Hm)].
  - split; [reflexivity|apply incl_refl].
  - rewrite He in Hm. exact (step_keeps_rows _ _ _ _ _ Hs Hm).
Qed.

Lemma ui_run_keeps_rows P es : forall u u' a,
  ui_run P u es = Some (u', a) ->
  forallb (fun e => negb (is_snapshot e)) es = true ->
  data (view u') = data (view u) /\
  incl (busy_rows (view u)) (busy_rows (view u')).
Proof.
  induction es as [|e es IH]; intros u u' a H Hes.
  - injection H as <- _. split; [reflexivity|apply incl_refl].
  - apply ui_run_cons_inv in H. destruct H as (u1 & a1 & a2 & H1 & H2 & _).
    simpl in Hes. apply andb_prop in Hes. destruct Hes as [He Hes].
    apply negb_true_iff in He.
    destruct (ui_step_keeps_rows _ _ _ _ _ H1 He) as [Hd1 Hi1].
    destruct (IH _ _ _ H2 Hes) as [Hd2 Hi2].
    split; [congruence|eapply incl_tran; eassumption].
Qed.

Lemma ui_step_disabled P u row e item :
  is_click_on row e = true ->
  nth_error (items (data (view u))) row = Some item ->
  disabled (view u) item = true ->
  ui_step P u e = None.
Proof.
  intros He Hn Hd.
  destruct e; try discriminate He; simpl in He;
    apply Nat.eqb_eq in He; subst; cbn [ui_step step]; rewrite Hn, ?Hd, ?orb_true_r;
    try reflexivity;
    destruct (editing (row_state u item)); reflexivity.
Qed.

(** X17.  Once a click on a row has recorded an edit, the row is
    locked: in every run of the user interface that follows and in
    which no message arrives, each click on a button or on the checkbox
    of that row is refused.  A row that saved from the editing mode in
    particular can neither be cancelled nor saved again. *)
Theorem locked_row_refuses_every_click :
  forall (JSON_parse : string -> option TodoList) u row e u1 a1 es u2 a2 e',
    is_click_on row e = true ->
    ui_step JSON_parse u e = Some (u1, a1) -> a1 <> [] ->
    ui_run JSON_parse u1 es = Some (u2, a2) ->
    forallb (fun e => negb (is_snapshot e)) es = true ->
    is_click_on row e' = true ->
    ui_step JSON_parse u2 e' = None.
Proof.
  intros P u row e u1 a1 es u2 a2 e' He H1 Ha1 H2 Hes He'.
  assert (exists item, nth_error (items (data (view u))) row = Some item /\
                       data (view u1) = data (view u) /\
                       In (row_key item) (busy_rows (view u1)))
    as (item & Hn & Hd1 & Hin).
  { destruct (ui_step_view _ _ _ _ _ H1) as [[_ ->]|(ev & Hs & _)]; [now elim Ha1|].
    destruct e; try discriminate He; simpl in He; apply Nat.eqb_eq in He; subst;
      ui_inv H1; try (injection H1 as _ <-; now elim Ha1);
      unfold view_step in H1;
      match type of H1 with
      | context [step P (view u) ?ev0] =>
          destruct (step P (view u) ev0) as [[s' a']|] eqn:Hs0; [|discriminate H1];
          injection H1 as <- <-;
          destruct (step_row_locks P (view u) row ev0 s' a' (Nat.eqb_refl row) Hs0 Ha1)
            as (item & Hn & Hd & Hin);
          exists item; cbn [view render_ui];
          split; [rewrite <- Heqo; exact Hn|split; assumption]
      end. }
  destruct (ui_run_keeps_rows _ _ _ _ _ H2 Hes) as [Hd2 Hincl].
  apply (ui_step_disabled P u2 row e' item He').
  - now rewrite Hd2, Hd1.
  - apply disabled_In, Hincl, Hin.
Qed.

Lemma locked_row_refuses_every_click_witness :
  let u := ui_after parse_example (ui_init (mkList [item_X; item_Y]) 0)
             [ClickEdit 0; TypeRow 0 "oat milk"] in
  let u1 := ui_after parse_example u [ClickSave 0] in
  let es := [TypeRow 0 "soy milk"; ViewEvent (Tick 1000); ViewEvent TimerElapsed;
             ViewEvent Frame; ViewEvent PostOk] in
  let u2 := ui_after parse_example u1 es in
  ui_step parse_example u2 (ClickCancel 0) = None.
Proof.
  intros u u1 es u2.
  assert (H1 : ui_step parse_example u (ClickSave 0)
               = Some (u1, [MapSet "X" {| text := Some "oat milk"; completed := false |}]))
    by (vm_compute; reflexivity).
  assert (H2 : ui_run parse_example u1 es
               = Some (u2, [RequestAnimationFrame;
                            Swap [("X", {| text := Some "oat milk"; completed := false |})];
                            Post [mkBatch "X" (Some "oat milk") false];
                            SetTimeout 1000]))
    by (vm_compute; reflexivity).
  apply (locked_row_refuses_every_click parse_example u 0%nat (ClickSave 0) u1 _
           es u2 _ (ClickCancel 0) eq_refl H1 ltac:(discriminate) H2);
    vm_compute; reflexivity.
Defined.
